(** * go-git: a shallow embedding of the object store and object model

    The development follows [git.go] and [cmd.go]: repository location and
    creation, the framed object encoding, the blob / tree / commit codecs,
    ref resolution and the recursive tree checkout.

    Conventions.
    - A Go [string] is a Rocq [string]; a Go [[]byte] is a [list ascii]; the
      conversions [string(b)] and [[]byte(s)] are written [str] and [raw].
    - Go's [int] is a 64-bit signed integer, modelled in [Z] with the range
      check written out where the library performs one.
    - A Go [error] value is a term of [error]; [fmt.Errorf("ctx: %w", e)] is
      [Wrap "ctx: %w" e]: the format text is kept as the context, its
      arguments are not rendered.
    - The filesystem is an explicit state threaded through the calls.
    - Loops that are not structurally bounded take fuel; [None] means that
      the fuel ran out, never that the program stopped. *)

From Stdlib Require Import ZArith Lia List Ascii String Bool.
From stdpp Require Import base option list gmap strings.

Local Open Scope Z_scope.

(** ** Bytes and strings *)

Abbreviation byte := ascii.
Abbreviation bytes := (list ascii).

Definition str (b : bytes) : string := string_of_list_ascii b.
Definition raw (s : string) : bytes := list_ascii_of_string s.

Definition len {A} (l : list A) : Z := Z.of_nat (length l).

Definition NUL : byte := Ascii.zero.
Definition SP : byte := " "%char.
Definition LF : byte := Ascii.ascii_of_nat 10.

(** The string ["\n"]. *)
Definition nl : string := String LF "".

(** Go's [int] on a 64-bit platform. *)
Definition maxInt : Z := 2 ^ 63 - 1.
Definition minInt : Z := - 2 ^ 63.
Definition maxUint64 : Z := 2 ^ 64 - 1.

(** ** Errors *)

Inductive error : Type :=
| EOF                          (* io.EOF *)
| ErrBufferFull                (* bufio.ErrBufferFull *)
| ErrNotExist                  (* ENOENT, matched by os.ErrNotExist *)
| ErrExist                     (* EEXIST, matched by os.ErrExist *)
| ENOTDIR
| EISDIR
| ErrSyntax                    (* strconv.ErrSyntax *)
| ErrRange                     (* strconv.ErrRange *)
| InvalidByteError (b : ascii) (* encoding/hex *)
| ErrLength                    (* encoding/hex *)
| ErrHeader                    (* compress/zlib: invalid stream *)
| New (msg : string)           (* errors.New, fmt.Errorf without %w *)
| Wrap (ctx : string) (e : error). (* fmt.Errorf("...: %w", e) *)

(** [errors.Is]: walk the chain of wrapped errors looking for a sentinel. *)
Fixpoint root_cause (e : error) : error :=
  match e with
  | Wrap _ e' => root_cause e'
  | _ => e
  end.

Definition is_EOF (e : error) : bool :=
  match root_cause e with EOF => true | _ => false end.
Definition is_ErrExist (e : error) : bool :=
  match root_cause e with ErrExist => true | _ => false end.
Definition is_ErrNotExist (e : error) : bool :=
  match root_cause e with ErrNotExist => true | _ => false end.

(** The outcome of a call that can return a value, return an error, or
    panic. *)
Inductive result (A : Type) : Type :=
| Ok (a : A)
| Err (e : error)
| Panic (msg : string).
Arguments Ok {A} a.
Arguments Err {A} e.
Arguments Panic {A} msg.

(** ** strconv *)

Module strconv.

Definition digit_char (d : Z) : ascii := ascii_of_nat (48 + Z.to_nat d).

(** [ch -= '0'; if ch > 9 { syntax error }] on an unsigned byte. *)
Definition digit_val (c : ascii) : option Z :=
  let n := Z.of_nat (nat_of_ascii c) in
  if (48 <=? n) && (n <=? 57) then Some (n - 48) else None.

(** Decimal digits of a non-negative number, most significant first. *)
Fixpoint fmt_digits (fuel : nat) (n : Z) (acc : string) : string :=
  let acc' := String (digit_char (n mod 10)) acc in
  match fuel with
  | O => acc'
  | S fuel' => if n <? 10 then acc' else fmt_digits fuel' (n / 10) acc'
  end.

(** [strconv.Itoa], also the rendering of the [%d] verb. *)
Definition Itoa (n : Z) : string :=
  if n <? 0
  then String "-"%char (fmt_digits (Z.to_nat (Z.log2 (- n))) (- n) "")
  else fmt_digits (Z.to_nat (Z.log2 n)) n "".

(** The digit loop of [ParseUint] in base 10, which [Atoi]'s fast path
    agrees with on the short strings it takes: a byte that is not a digit
    is a syntax error, a value beyond [uint64] a range error, whichever
    comes first. *)
Fixpoint parse_digits (s : string) (acc : Z) : Z + error :=
  match s with
  | EmptyString => inl acc
  | String c s' =>
      match digit_val c with
      | None => inr ErrSyntax
      | Some d =>
          let acc' := acc * 10 + d in
          if maxUint64 <? acc' then inr ErrRange else parse_digits s' acc'
      end
  end.

(** [strconv.Atoi]: an optional sign, then at least one digit, nothing
    else; a value outside [int] is a range error. *)
Definition Atoi (s : string) : Z + error :=
  let '(neg, body) :=
    match s with
    | String "-"%char s' => (true, s')
    | String "+"%char s' => (false, s')
    | _ => (false, s)
    end in
  match body with
  | EmptyString => inr ErrSyntax
  | _ =>
      match parse_digits body 0 with
      | inr e => inr e
      | inl n =>
          let v := if neg then - n else n in
          if (minInt <=? v) && (v <=? maxInt) then inl v else inr ErrRange
      end
  end.

End strconv.

(** ** encoding/hex *)

Module hex.

Definition hexdigit (n : nat) : ascii :=
  if (n <? 10)%nat then ascii_of_nat (48 + n) else ascii_of_nat (87 + n).

Fixpoint EncodeToString (b : bytes) : string :=
  match b with
  | [] => EmptyString
  | c :: b' =>
      let n := nat_of_ascii c in
      String (hexdigit (n / 16)) (String (hexdigit (n mod 16)) (EncodeToString b'))
  end.

(** [reverseHexTable]: the value of a hexadecimal digit, either case. *)
Definition fromHexChar (c : ascii) : option nat :=
  let n := nat_of_ascii c in
  if (48 <=? n)%nat && (n <=? 57)%nat then Some (n - 48)%nat
  else if (97 <=? n)%nat && (n <=? 102)%nat then Some (n - 87)%nat
  else if (65 <=? n)%nat && (n <=? 70)%nat then Some (n - 55)%nat
  else None.

(** [hex.DecodeString] returns the bytes decoded before the error together
    with the error. *)
Fixpoint Decode (src : bytes) : bytes * option error :=
  match src with
  | [] => ([], None)
  | [p] =>
      match fromHexChar p with
      | None => ([], Some (InvalidByteError p))
      | Some _ => ([], Some ErrLength)
      end
  | p :: q :: src' =>
      match fromHexChar p, fromHexChar q with
      | None, _ => ([], Some (InvalidByteError p))
      | Some _, None => ([], Some (InvalidByteError q))
      | Some a, Some b =>
          let '(out, e) := Decode src' in
          (ascii_of_nat (a * 16 + b) :: out, e)
      end
  end.

Definition DecodeString (s : string) : bytes * option error := Decode (raw s).

End hex.

(** ** bufio.Reader over an in-memory byte source

    [buf] is the buffered, still unread window [b.buf[b.r:b.w]]; [src] is
    what the underlying reader has not handed out yet; [err] is the pending
    error [b.err].  The buffer holds [defaultBufSize] bytes. *)

Module bufio.

Definition defaultBufSize : nat := 4096.

Record Reader : Type := mkReader {
  buf : bytes;
  src : bytes;
  err : option error;
}.

Definition NewReader (data : bytes) : Reader :=
  {| buf := []; src := data; err := None |}.

(** [bytes.Reader.Read] into a slice of [n] bytes: end of input is
    reported by [0, io.EOF]; otherwise it copies as much as fits. *)
Definition src_Read (n : nat) (s : bytes) : bytes * option error * bytes :=
  match s with
  | [] => ([], Some EOF, [])
  | _ => (take n s, None, drop n s)
  end.

(** [b.fill()]: slide the window to the front and read once into the free
    space behind it.  Callers only fill a buffer that is not full. *)
Definition fill (b : Reader) : Reader :=
  let '(data, e, s') := src_Read (defaultBufSize - length (buf b)) (src b) in
  {| buf := buf b ++ data; src := s'; err := e |}.

(** [b.readErr()]: hand out the pending error and clear it. *)
Definition readErr (b : Reader) : option error * Reader :=
  (err b, {| buf := buf b; src := src b; err := None |}).

(** [bytes.IndexByte]: the bytes up to and including the first [delim],
    and what follows it. *)
Fixpoint cut (delim : byte) (l : bytes) : option (bytes * bytes) :=
  match l with
  | [] => None
  | c :: l' =>
      if Ascii.eqb c delim then Some ([c], l')
      else match cut delim l' with
           | Some (pre, post) => Some (c :: pre, post)
           | None => None
           end
  end.

(** [b.ReadSlice(delim)]. *)
Fixpoint ReadSlice (fuel : nat) (delim : byte) (b : Reader)
  : option (bytes * option error * Reader) :=
  match fuel with
  | O => None
  | S fuel' =>
      match cut delim (buf b) with
      | Some (line, rest) =>
          Some (line, None, {| buf := rest; src := src b; err := err b |})
      | None =>
          match err b with
          | Some _ =>
              let '(e, b') := readErr {| buf := []; src := src b; err := err b |} in
              Some (buf b, e, b')
          | None =>
              if (defaultBufSize <=? length (buf b))%nat
              then Some (buf b, Some ErrBufferFull,
                         {| buf := []; src := src b; err := err b |})
              else ReadSlice fuel' delim (fill b)
          end
      end
  end.

(** [b.collectFragments(delim)] as used by [ReadBytes]: keep reading full
    buffers until the delimiter or an error other than [ErrBufferFull]. *)
Fixpoint collectFragments (fuel : nat) (delim : byte) (acc : bytes) (b : Reader)
  : option (bytes * option error * Reader) :=
  match fuel with
  | O => None
  | S fuel' =>
      match ReadSlice 3 delim b with
      | None => None
      | Some (frag, Some ErrBufferFull, b') =>
          collectFragments fuel' delim (acc ++ frag) b'
      | Some (frag, e, b') => Some (acc ++ frag, e, b')
      end
  end.

(** [b.ReadString(delim)]. *)
Definition ReadString (delim : byte) (b : Reader)
  : option (string * option error * Reader) :=
  match collectFragments (S (length (buf b) + length (src b))) delim [] b with
  | Some (data, e, b') => Some (str data, e, b')
  | None => None
  end.

(** [b.ReadByte()]. *)
Fixpoint ReadByte_loop (fuel : nat) (b : Reader)
  : option (byte * option error * Reader) :=
  match fuel with
  | O => None
  | S fuel' =>
      match buf b with
      | c :: rest => Some (c, None, {| buf := rest; src := src b; err := err b |})
      | [] =>
          match err b with
          | Some _ => let '(e, b') := readErr b in Some (NUL, e, b')
          | None => ReadByte_loop fuel' (fill b)
          end
      end
  end.

Definition ReadByte (b : Reader) := ReadByte_loop 3 b.

(** [b.Peek(1)]. *)
Fixpoint Peek1_fill (fuel : nat) (b : Reader) : option Reader :=
  match fuel with
  | O => None
  | S fuel' =>
      match buf b, err b with
      | [], None => Peek1_fill fuel' (fill b)
      | _, _ => Some b
      end
  end.

Definition Peek1 (b : Reader) : option (bytes * option error * Reader) :=
  match Peek1_fill 3 b with
  | None => None
  | Some b1 =>
      match buf b1 with
      | c :: _ => Some ([c], None, b1)
      | [] =>
          let '(e, b2) := readErr b1 in
          Some ([], Some (default ErrBufferFull e), b2)
      end
  end.

(** [b.Read(p)] with [len(p) = n], [n > 0]: the bytes come from at most
    one read of the underlying source, so fewer than [n] may be returned
    with a nil error. *)
Definition Read (n : nat) (b : Reader) : bytes * option error * Reader :=
  match buf b with
  | _ :: _ =>
      (take n (buf b), None,
       {| buf := drop n (buf b); src := src b; err := err b |})
  | [] =>
      match err b with
      | Some _ => let '(e, b') := readErr b in ([], e, b')
      | None =>
          if (defaultBufSize <=? n)%nat then
            (* large read, empty buffer: read directly into p *)
            let '(data, e, s') := src_Read n (src b) in
            (data, e, {| buf := []; src := s'; err := None |})
          else
            let '(data, e, s') := src_Read defaultBufSize (src b) in
            match data with
            | [] => ([], e, {| buf := []; src := s'; err := None |})
            | _ => (take n data, None,
                    {| buf := drop n data; src := s'; err := e |})
            end
      end
  end.

(** [ioutil.ReadAll(b)]: read until an error; [io.EOF] ends the input and
    is not reported.  The chunk asked for on each call is the free
    capacity of the result slice; only the number of calls depends on it,
    so a fixed chunk of 512 bytes (the initial capacity) is used. *)
Fixpoint ReadAll_loop (fuel : nat) (acc : bytes) (b : Reader)
  : option (bytes * option error) :=
  match fuel with
  | O => None
  | S fuel' =>
      let '(data, e, b') := Read 512 b in
      match e with
      | Some EOF => Some (acc ++ data, None)
      | Some e' => Some (acc ++ data, Some e')
      | None => ReadAll_loop fuel' (acc ++ data) b'
      end
  end.

Definition ReadAll (b : Reader) : option (bytes * option error) :=
  ReadAll_loop (S (S (length (buf b) + length (src b)))) [] b.

End bufio.

(** ** The object model *)

(** [s[:len(s)-1]] on a non-empty string. *)
Definition chop (s : string) : string := str (removelast (raw s)).

Definition string_eqb (a b : string) : bool := String.eqb a b.

(** *** Blob *)

Record BlobObject : Type := { Data : bytes }.

Module Blob.
Definition Deserialize (data : bytes) : BlobObject * option error :=
  ({| Data := data |}, None).
Definition Serialize (o : BlobObject) : bytes * option error := (Data o, None).
End Blob.

(** *** Commit *)

Record CommitObject : Type := {
  Header : gmap string (list string);
  Comment : string;
}.

Module Commit.

(** [header[key] = append(header[key], v)]. *)
Definition append_value (header : gmap string (list string)) (key v : string)
  : gmap string (list string) :=
  <[key := default [] (header !! key) ++ [v]]> header.

(** The [readHeader] loop.  The state is the reader, the header built so
    far, the pending key and the pending buffer. *)
Fixpoint readHeader (fuel : nat) (rd : bufio.Reader)
    (header : gmap string (list string)) (key : string) (buf : bytes)
  : option ((gmap string (list string) * bufio.Reader) + error) :=
  match fuel with
  | O => None
  | S fuel' =>
      match bufio.ReadByte rd with
      | None => None
      | Some (_, Some e, rd1) =>
          if is_EOF e then
            if negb (string_eqb key "") && negb (length buf =? 0)%nat
            then Some (inl (append_value header key (str buf), rd1))
            else Some (inl (header, rd1))
          else Some (inr e)
      | Some (c, None, rd1) =>
          if Ascii.eqb c SP then
            if string_eqb key ""
            then readHeader fuel' rd1 header (str buf) []
            else readHeader fuel' rd1 header key (buf ++ [c])
          else if Ascii.eqb c LF then
            match bufio.Peek1 rd1 with
            | None => None
            | Some (next, e, rd2) =>
                match e, next with
                | None, n :: _ =>
                    if Ascii.eqb n LF then
                      (* End of header. *)
                      match bufio.ReadByte rd2 with
                      | None => None
                      | Some (_, _, rd3) =>
                          Some (inl (append_value header key (str buf), rd3))
                      end
                    else
                      readHeader fuel' rd2 (append_value header key (str buf)) "" []
                | _, _ =>
                    readHeader fuel' rd2 (append_value header key (str buf)) "" []
                end
            end
          else readHeader fuel' rd1 header key (buf ++ [c])
      end
  end.

Definition Deserialize (data : bytes) : option (CommitObject + error) :=
  match readHeader (S (length data)) (bufio.NewReader data) ∅ "" [] with
  | None => None
  | Some (inr e) => Some (inr e)
  | Some (inl (header, rd)) =>
      match bufio.ReadAll rd with
      | None => None
      | Some (_, Some e) => Some (inr (Wrap "comment: %w" e))
      | Some (comment, None) =>
          Some (inl {| Header := header; Comment := str comment |})
      end
  end.

(** [CommitObject.Serialize] is not written yet: it panics. *)
Definition Serialize (o : CommitObject) : result bytes := Panic "todo".

End Commit.

(** *** Tree *)

Record TreeLeaf : Type := {
  Mode : Z;        (* os.FileMode, a uint32 *)
  Path : string;
  Sha : bytes;
}.

Record TreeObject : Type := { Leafs : list TreeLeaf }.

Module Tree.

(** [os.FileMode(n)]: conversion of an [int] to [uint32]. *)
Definition FileMode (n : Z) : Z := n mod 2 ^ 32.

(** The loop of [Deserialize]; [leafs] is [o.Leafs], which the method
    appends to in place, so the leaves read before an error stay. *)
Fixpoint Deserialize_loop (fuel : nat) (rd : bufio.Reader) (leafs : list TreeLeaf)
  : option (list TreeLeaf * option error) :=
  match fuel with
  | O => None
  | S fuel' =>
      match bufio.ReadString SP rd with
      | None => None
      | Some (mode, Some e, _) =>
          if is_EOF e then Some (leafs, None)
          else Some (leafs, Some (Wrap "reading mode: %w" e))
      | Some (mode, None, rd1) =>
          let mode := chop mode in
          match strconv.Atoi mode with
          | inr e => Some (leafs, Some (Wrap "invalid %q mode value: %w" e))
          | inl n =>
              match bufio.ReadString NUL rd1 with
              | None => None
              | Some (_, Some e, _) => Some (leafs, Some (Wrap "read path: %w" e))
              | Some (path, None, rd2) =>
                  (* sha := make([]byte, 20); rd.Read(sha) *)
                  let '(got, e, rd3) := bufio.Read 20 rd2 in
                  match e with
                  | Some e' => Some (leafs, Some (Wrap "read sha: %w" e'))
                  | None =>
                      let sha := got ++ replicate (20 - length got) NUL in
                      let leaf := {| Mode := FileMode n; Path := chop path; Sha := sha |} in
                      Deserialize_loop fuel' rd3 (leafs ++ [leaf])
                  end
              end
          end
      end
  end.

Definition Deserialize (o : TreeObject) (data : bytes)
  : option (TreeObject * option error) :=
  match Deserialize_loop (S (length data)) (bufio.NewReader data) (Leafs o) with
  | None => None
  | Some (leafs, e) => Some ({| Leafs := leafs |}, e)
  end.

(** [fmt.Fprintf(&b, "%d %s\x00%s", leaf.Mode, leaf.Path, leaf.Sha)]. *)
Definition leaf_bytes (leaf : TreeLeaf) : bytes :=
  raw (strconv.Itoa (Mode leaf)) ++ [SP] ++ raw (Path leaf) ++ [NUL] ++ Sha leaf.

Definition Serialize (o : TreeObject) : bytes * option error :=
  (concat (map leaf_bytes (Leafs o)), None).

End Tree.

(** *** The [Object] interface and the registry of constructors *)

Inductive Object : Type :=
| OCommit (c : CommitObject)
| OBlob (b : BlobObject)
| OTree (t : TreeObject).

(** The values of the [objects] map: a constructor either yields a fresh
    object to deserialize into, or panics. *)
Inductive kind_ctor : Type :=
| NewCommit | NewBlob | NewTree
| CtorPanic (msg : string).

Definition objects : gmap string kind_ctor :=
  {[ "commit" := NewCommit; "blob" := NewBlob; "tree" := NewTree;
     "tag" := CtorPanic "todo: tag" ]}.

(** ** path and path/filepath (Unix) *)

Module path.

Definition SLASH : byte := "/"%char.

(** [strings.Split(p, "/")]. *)
Fixpoint split_from (l : bytes) (cur : bytes) : list string :=
  match l with
  | [] => [str (rev cur)]
  | c :: l' =>
      if Ascii.eqb c SLASH then str (rev cur) :: split_from l' []
      else split_from l' (c :: cur)
  end.

Definition split (p : string) : list string := split_from (raw p) [].

Fixpoint join_slash (elems : list string) : string :=
  match elems with
  | [] => ""
  | [e] => e
  | e :: rest => e +:+ "/" +:+ join_slash rest
  end.

Definition rooted (p : string) : bool :=
  match p with
  | String c _ => Ascii.eqb c SLASH
  | EmptyString => false
  end.

(** The element rules of [Clean]: empty and [.] elements vanish, [..]
    removes the element before it, is dropped at the root, and is kept at
    the start of a relative path.  [out] is the result so far, last
    element first. *)
Fixpoint clean_elems (root : bool) (elems : list string) (out : list string)
  : list string :=
  match elems with
  | [] => rev out
  | e :: rest =>
      if string_eqb e "" || string_eqb e "." then clean_elems root rest out
      else if string_eqb e ".." then
        match out with
        | top :: out' =>
            if string_eqb top ".." then clean_elems root rest (e :: out)
            else clean_elems root rest out'
        | [] =>
            if root then clean_elems root rest []
            else clean_elems root rest [e]
        end
      else clean_elems root rest (e :: out)
  end.

(** [path.Clean]. *)
Definition Clean (p : string) : string :=
  let out := join_slash (clean_elems (rooted p) (split p) []) in
  let s := if rooted p then "/" +:+ out else out in
  if string_eqb s "" then "." else s.

(** [path.Join]: empty elements are ignored, the result is cleaned, and
    joining nothing gives the empty string. *)
Definition Join (elems : list string) : string :=
  match filter (λ e, e ≠ "") elems with
  | [] => ""
  | es => Clean (join_slash es)
  end.

(** The prefix of [p] up to and including its last slash. *)
Fixpoint upto_last_slash (l : bytes) : bytes :=
  match l with
  | [] => []
  | c :: l' =>
      match upto_last_slash l' with
      | [] => if Ascii.eqb c SLASH then [c] else []
      | pre => c :: pre
      end
  end.

(** [filepath.Dir]. *)
Definition Dir (p : string) : string := Clean (str (upto_last_slash (raw p))).

End path.

(** ** The filesystem

    Entries are keyed by the list of path elements from the root; the root
    itself always exists.  A path string is resolved against the working
    directory the way the kernel does it, in a filesystem without symbolic
    links.  Calls fail only for structural reasons (a missing entry, a file
    where a directory is needed, and so on). *)

Inductive node : Type :=
| Dir
| File (content : bytes).

Record FS : Type := {
  cwd : string;                      (* absolute, clean *)
  nodes : gmap (list string) node;
}.

Module os.

Definition resolve (fs : FS) (p : string) : list string :=
  let full := if path.rooted p then p else cwd fs +:+ "/" +:+ p in
  path.clean_elems true (path.split full) [].

Definition node_at (m : gmap (list string) node) (k : list string) : option node :=
  match k with
  | [] => Some Dir
  | _ => m !! k
  end.

Definition is_file (o : option node) : bool :=
  match o with Some (File _) => true | _ => false end.

(** Some proper ancestor of [k] is a regular file. *)
Definition under_file (m : gmap (list string) node) (k : list string) : bool :=
  existsb (λ n, is_file (node_at m (take n k))) (seq 0 (length k)).

Definition missing (m : gmap (list string) node) (k : list string) : error :=
  if under_file m k then ENOTDIR else ErrNotExist.

(** [os.Stat(p)], reduced to [info.IsDir()]. *)
Definition Stat (fs : FS) (p : string) : bool + error :=
  if string_eqb p "" then inr ErrNotExist else
  let k := resolve fs p in
  match node_at (nodes fs) k with
  | Some Dir => inl true
  | Some (File _) => inl false
  | None => inr (missing (nodes fs) k)
  end.

(** [os.Mkdir] of one directory. *)
Definition Mkdir (m : gmap (list string) node) (k : list string)
  : gmap (list string) node * option error :=
  match node_at m k with
  | Some _ => (m, Some ErrExist)
  | None =>
      match node_at m (removelast k) with
      | Some Dir => (<[k := Dir]> m, None)
      | Some (File _) => (m, Some ENOTDIR)
      | None => (m, Some (missing m k))
      end
  end.

(** [os.MkdirAll]: nothing to do for an existing directory, an error for
    an existing file; otherwise make the parent, then the directory.  [rk]
    is the path, last element first. *)
Fixpoint MkdirAll_from (rk : list string) (m : gmap (list string) node)
  : gmap (list string) node * option error :=
  match node_at m (rev rk) with
  | Some Dir => (m, None)
  | Some (File _) => (m, Some ENOTDIR)
  | None =>
      match rk with
      | [] => (m, None)
      | _ :: rparent =>
          match MkdirAll_from rparent m with
          | (m', Some e) => (m', Some e)
          | (m', None) => Mkdir m' (rev rk)
          end
      end
  end.

Definition MkdirAll (fs : FS) (p : string) : FS * option error :=
  if string_eqb p "" then (fs, Some ErrNotExist) else
  let '(m, e) := MkdirAll_from (rev (resolve fs p)) (nodes fs) in
  ({| cwd := cwd fs; nodes := m |}, e).

(** [ioutil.WriteFile], and [os.OpenFile] with [O_CREATE|O_WRONLY|O_TRUNC]
    followed by writing [content] and closing. *)
Definition WriteFile (fs : FS) (p : string) (content : bytes) : FS * option error :=
  if string_eqb p "" then (fs, Some ErrNotExist) else
  let k := resolve fs p in
  let put := ({| cwd := cwd fs; nodes := <[k := File content]> (nodes fs) |}, None) in
  match node_at (nodes fs) k with
  | Some Dir => (fs, Some EISDIR)
  | Some (File _) => put
  | None =>
      match node_at (nodes fs) (removelast k) with
      | Some Dir => put
      | Some (File _) => (fs, Some ENOTDIR)
      | None => (fs, Some (missing (nodes fs) k))
      end
  end.

(** [ioutil.ReadFile]; also [os.Open] followed by reading to the end. *)
Definition ReadFile (fs : FS) (p : string) : bytes + error :=
  if string_eqb p "" then inr ErrNotExist else
  let k := resolve fs p in
  match node_at (nodes fs) k with
  | Some (File c) => inl c
  | Some Dir => inr EISDIR
  | None => inr (missing (nodes fs) k)
  end.

End os.

Module filepath.

(** [filepath.Abs]: a rooted path is cleaned, any other is joined to the
    working directory. *)
Definition Abs (fs : FS) (p : string) : string :=
  if path.rooted p then path.Clean p else path.Join [cwd fs; p].

Definition Dir := path.Dir.
Definition Join := path.Join.

End filepath.

(** ** External codecs

    [crypto/sha1] and [compress/zlib] are libraries outside the repository.
    They enter as interfaces: [sha1.Sum] returns a [[20]byte]; a stream
    written by a zlib writer is read back unchanged by a zlib reader. *)

Module sha1.
Class Hash : Type := {
  Sum : bytes → bytes;
  Sum_length : ∀ data, length (Sum data) = 20%nat;
}.

(** SHA-1 as in FIPS 180-4, on 32-bit words in [Z], for running the store
    on concrete inputs. *)
Definition w32 (x : Z) : Z := x mod 2 ^ 32.
Definition rotl (n x : Z) : Z := w32 (Z.lor (Z.shiftl x n) (Z.shiftr x (32 - n))).

Definition word_bytes (x : Z) : bytes :=
  [ascii_of_N (Z.to_N (Z.shiftr x 24 mod 256));
   ascii_of_N (Z.to_N (Z.shiftr x 16 mod 256));
   ascii_of_N (Z.to_N (Z.shiftr x 8 mod 256));
   ascii_of_N (Z.to_N (x mod 256))].

(** Big-endian words of a byte string whose length is a multiple of 4. *)
Fixpoint words (l : bytes) : list Z :=
  match l with
  | a :: b :: c :: d :: l' =>
      let z (x : ascii) := Z.of_N (N_of_ascii x) in
      (z a * 2 ^ 24 + z b * 2 ^ 16 + z c * 2 ^ 8 + z d) :: words l'
  | _ => []
  end.

(** The message, a 1 bit, zeros up to 56 modulo 64, and the length in bits
    as a 64-bit big-endian number. *)
Definition pad (data : bytes) : bytes :=
  let n := length data in
  let zeros := ((55 + 64 - n mod 64) mod 64)%nat in
  let bits := 8 * Z.of_nat n in
  data ++ [ascii_of_nat 128] ++ replicate zeros Ascii.zero
       ++ word_bytes (Z.shiftr bits 32) ++ word_bytes bits.

(** The message schedule, latest word first. *)
Fixpoint schedule (n : nat) (w : list Z) : list Z :=
  match n with
  | O => w
  | S n' =>
      let x i := nth i w 0 in
      schedule n' (rotl 1 (Z.lxor (Z.lxor (x 2%nat) (x 7%nat))
                                  (Z.lxor (x 13%nat) (x 15%nat))) :: w)
  end.

Definition state : Type := Z * Z * Z * Z * Z.

Definition round (t : nat) (st : state) (wt : Z) : state :=
  let '(a, b, c, d, e) := st in
  let '(f, k) :=
    if (t <? 20)%nat then
      (Z.lor (Z.land b c) (Z.land (Z.lxor b (2 ^ 32 - 1)) d), 0x5A827999)
    else if (t <? 40)%nat then (Z.lxor (Z.lxor b c) d, 0x6ED9EBA1)
    else if (t <? 60)%nat then
      (Z.lor (Z.lor (Z.land b c) (Z.land b d)) (Z.land c d), 0x8F1BBCDC)
    else (Z.lxor (Z.lxor b c) d, 0xCA62C1D6) in
  (w32 (rotl 5 a + f + e + k + wt), a, rotl 30 b, c, d).

Fixpoint rounds (t : nat) (ws : list Z) (st : state) : state :=
  match ws with
  | [] => st
  | wt :: ws' => rounds (S t) ws' (round t st wt)
  end.

Definition block (h : state) (w16 : list Z) : state :=
  let '(h0, h1, h2, h3, h4) := h in
  let '(a, b, c, d, e) := rounds 0 (rev (schedule 64 (rev w16))) h in
  (w32 (h0 + a), w32 (h1 + b), w32 (h2 + c), w32 (h3 + d), w32 (h4 + e)).

Fixpoint blocks (n : nat) (ws : list Z) (h : state) : state :=
  match n with
  | O => h
  | S n' => blocks n' (drop 16 ws) (block h (take 16 ws))
  end.

Definition fips_Sum (data : bytes) : bytes :=
  let ws := words (pad data) in
  let h := blocks (length ws / 16)
             ws (0x67452301, 0xEFCDAB89, 0x98BADCFE, 0x10325476, 0xC3D2E1F0) in
  word_bytes h.1.1.1.1 ++ word_bytes h.1.1.1.2 ++ word_bytes h.1.1.2
    ++ word_bytes h.1.2 ++ word_bytes h.2.

Definition fips : Hash :=
  {| Sum := fips_Sum; Sum_length := λ _, eq_refl |}.
End sha1.

Module zlib.
Class Codec : Type := {
  compress : bytes → bytes;            (* NewWriter, Write, Close *)
  decompress : bytes → option bytes;   (* NewReader and reading to the end *)
  decompress_compress : ∀ data, decompress (compress data) = Some data;
}.

(** A stand-in codec for running the store on concrete inputs: the two
    bytes of a zlib header followed by the data as it is.  It is not the
    deflate format; the store only relies on the interface. *)
Definition header : bytes := [ascii_of_nat 120; ascii_of_nat 156].

Definition plain_compress (data : bytes) : bytes := header ++ data.

Definition plain_decompress (stored : bytes) : option bytes :=
  match stored with
  | h1 :: h2 :: data =>
      if Ascii.eqb h1 (ascii_of_nat 120) && Ascii.eqb h2 (ascii_of_nat 156)
      then Some data else None
  | _ => None
  end.

Definition plain : Codec :=
  {| compress := plain_compress;
     decompress := plain_decompress;
     decompress_compress := λ _, eq_refl |}.
End zlib.

(** ** The repository *)

Record Repository : Type := {
  workdir : string;
  gitdir : string;
}.

Definition defaultDescription : string := "Unnamed repository.
".
Definition defaultHEAD : string := "ref: refs/heads/master
".
Definition defaultConfig : string := "[core]
repositoryformatversion = 0
filemode = false
bare = false
".

(** [isDir] *)
Definition isDir (fs : FS) (p : string) : bool * option error :=
  match os.Stat fs p with
  | inl d => (d, None)
  | inr e =>
      if is_ErrNotExist e then (false, None)
      else (false, Some (Wrap "stat: %w" e))
  end.

Definition OpenRepository (fs : FS) (dir : string) : Repository + error :=
  let gitdir := path.Join [dir; ".git"] in
  match isDir fs dir with
  | (_, Some e) => inr (Wrap "is dir: %w" e)
  | (false, None) => inr (New "not a git directory: %q")
  | (true, None) => inl {| workdir := dir; gitdir := gitdir |}
  end.

(** [Repository.DirPath] *)
Definition DirPath (r : Repository) (fs : FS) (mkdir : bool) (pathChunks : list string)
  : FS * (string + error) :=
  let full := path.Join [gitdir r; path.Join pathChunks] in
  match isDir fs full with
  | (_, Some e) => (fs, inr (Wrap "is dir: %w" e))
  | (true, None) => (fs, inl full)
  | (false, None) =>
      if negb mkdir then (fs, inr (Wrap "dir %q: %w" ErrNotExist))
      else
        match os.MkdirAll fs full with
        | (fs', Some e) => (fs', inr (Wrap "mkdir %q: %w" e))
        | (fs', None) => (fs', inl full)
        end
  end.

(** [Repository.WriteFile] *)
Definition WriteFile (r : Repository) (fs : FS) (mkdir : bool) (content : bytes)
    (pathChunks : list string) : FS * option error :=
  let ensured :=
    if (1 <? length pathChunks)%nat
    then DirPath r fs mkdir (take (length pathChunks - 2) pathChunks)
    else (fs, inl "") in
  match ensured with
  | (fs1, inr e) => (fs1, Some (Wrap "ensure directory: %w" e))
  | (fs1, inl _) =>
      let full := path.Join [gitdir r; path.Join pathChunks] in
      match os.WriteFile fs1 full content with
      | (fs2, Some e) => (fs2, Some (Wrap "write contnt: %w" e))
      | (fs2, None) => (fs2, None)
      end
  end.

(** [CreateRepository] *)
Definition CreateRepository (fs : FS) (dir : string) : FS * (Repository + error) :=
  match os.MkdirAll fs (path.Join [dir; ".git"]) with
  | (fs0, Some e) =>
      if is_ErrExist e
      then (fs0, inr (Wrap "already a git repository: %w" e))
      else (fs0, inr (Wrap "mkdir .git: %w" e))
  | (fs0, None) =>
      match OpenRepository fs0 dir with
      | inr e => (fs0, inr (Wrap "new repository: %w" e))
      | inl repo =>
          let step1 :=
            match isDir fs0 (workdir repo) with
            | (_, Some e) => (fs0, Some (Wrap "workdir is dir %q: %w" e))
            | (true, None) => (fs0, None)
            | (false, None) =>
                match os.MkdirAll fs0 (workdir repo) with
                | (fs', Some e) => (fs', Some (Wrap "mkdir workdir: %w" e))
                | (fs', None) => (fs', None)
                end
            end in
          let mkdirs (ctx : string) (chunks : list string) (st : FS * option error) :=
            match st with
            | (fs', Some e) => (fs', Some e)
            | (fs', None) =>
                match DirPath repo fs' true chunks with
                | (fs'', inl _) => (fs'', None)
                | (fs'', inr e) => (fs'', Some (Wrap ctx e))
                end
            end in
          let write (ctx : string) (content : string) (name : string)
              (st : FS * option error) :=
            match st with
            | (fs', Some e) => (fs', Some e)
            | (fs', None) =>
                match WriteFile repo fs' true (raw content) [name] with
                | (fs'', None) => (fs'', None)
                | (fs'', Some e) => (fs'', Some (Wrap ctx e))
                end
            end in
          let st := mkdirs "mkdir branches: %w" ["branches"] step1 in
          let st := mkdirs "mkdir objects: %w" ["objects"] st in
          let st := mkdirs "mkdir refs/tags: %w" ["refs"; "tags"] st in
          let st := mkdirs "mkdir refs/heads: %w" ["refs"; "heads"] st in
          let st := write "write description file: %w" defaultDescription "description" st in
          let st := write "write HEAD file: %w" defaultHEAD "HEAD" st in
          let st := write "write config file: %w" defaultConfig "config" st in
          match st with
          | (fs', Some e) => (fs', inr e)
          | (fs', None) => (fs', inl repo)
          end
      end
  end.

(** One turn of the loop of [FindRepository]: the call either returns, or
    goes round again with the parent directory. *)
Definition FindRepository_step (fs : FS) (repo : string)
  : (Repository + error) + string :=
  match isDir fs (path.Join [repo; ".git"]) with
  | (true, None) => inl (OpenRepository fs repo)
  | _ =>
      if string_eqb repo "."
      then inl (inr (Wrap "no .git directory: %w" ErrNotExist))
      else inr (filepath.Dir repo)
  end.

Fixpoint FindRepository_loop (fuel : nat) (fs : FS) (repo : string)
  : option (Repository + error) :=
  match fuel with
  | O => None
  | S fuel' =>
      match FindRepository_step fs repo with
      | inl r => Some r
      | inr parent => FindRepository_loop fuel' fs parent
      end
  end.

(** [FindRepository]; [filepath.Abs] cannot fail in this filesystem. *)
Definition FindRepository (fuel : nat) (fs : FS) (repo : string)
  : option (Repository + error) :=
  FindRepository_loop fuel fs (filepath.Abs fs repo).

(** ** The object store *)

Section Store.

Context {hash : sha1.Hash} {codec : zlib.Codec}.

(** [frame := kind ' ' decimal-length '\0' payload], as built by
    [fmt.Fprintf(&b, "%s %d\x00", kind, len(content))] and [b.Write]. *)
Definition frame (kind : string) (content : bytes) : bytes :=
  raw kind ++ [SP] ++ raw (strconv.Itoa (len content)) ++ [NUL] ++ content.

(** [path.Join(r.gitdir, "objects", s[:2], s[2:])] *)
Definition object_path (r : Repository) (s : string) : string :=
  path.Join [gitdir r; "objects"; str (take 2 (raw s)); str (drop 2 (raw s))].

(** [obj := newObj(); obj.Deserialize(content)] *)
Definition construct (ctor : kind_ctor) (content : bytes)
  : option (result Object) :=
  match ctor with
  | CtorPanic msg => Some (Panic msg)
  | NewBlob =>
      match Blob.Deserialize content with
      | (o, None) => Some (Ok (OBlob o))
      | (_, Some e) => Some (Err e)
      end
  | NewTree =>
      match Tree.Deserialize {| Leafs := [] |} content with
      | None => None
      | Some (o, None) => Some (Ok (OTree o))
      | Some (_, Some e) => Some (Err e)
      end
  | NewCommit =>
      match Commit.Deserialize content with
      | None => None
      | Some (inl o) => Some (Ok (OCommit o))
      | Some (inr e) => Some (Err e)
      end
  end.

(** [Repository.ReadObject].  The decompressed frame is read through a
    [bufio.Reader] with [ReadString] and [ReadAll] only, whose results depend
    on the bytes of the stream and not on the pieces in which the reader
    underneath delivers them; the stream is therefore given as a whole. *)
Definition ReadObject (r : Repository) (fs : FS) (sha : bytes)
  : option (result Object) :=
  if negb (length sha =? 20)%nat then Some (Err (New "invalid hash length: %d")) else
  let s := hex.EncodeToString sha in
  let full := object_path r s in
  match os.ReadFile fs full with
  | inr EISDIR => Some (Err (Wrap "zlib object reader: %w" EISDIR))
  | inr e => Some (Err (Wrap "read object: %w" e))
  | inl stored =>
      match zlib.decompress stored with
      | None => Some (Err (Wrap "zlib object reader: %w" ErrHeader))
      | Some data =>
          let rd := bufio.NewReader data in
          match bufio.ReadString SP rd with
          | None => None
          | Some (_, Some e, _) => Some (Err (Wrap "read object kind: %w" e))
          | Some (kind, None, rd1) =>
              let kind := chop kind in
              match objects !! kind with
              | None => Some (Err (New "unknown object kind: %q"))
              | Some newObj =>
                  match bufio.ReadString NUL rd1 with
                  | None => None
                  | Some (_, Some e, _) => Some (Err (Wrap "read object size: %w" e))
                  | Some (ssize, None, rd2) =>
                      match strconv.Atoi (chop ssize) with
                      | inr e => Some (Err (Wrap "invalid object size: %w" e))
                      | inl size =>
                          match bufio.ReadAll rd2 with
                          | None => None
                          | Some (_, Some e) => Some (Err (Wrap "read object content: %w" e))
                          | Some (content, None) =>
                              if negb (size =? len content)
                              then Some (Err (New "bad object length %d != %d"))
                              else
                                match construct newObj content with
                                | None => None
                                | Some (Err e) =>
                                    Some (Err (Wrap "deserialize %s object: %w" e))
                                | Some other => Some other
                                end
                          end
                      end
                  end
              end
          end
      end
  end.

(** [Repository.WriteObject]: the identifier is returned on every path. *)
Definition WriteObject (r : Repository) (fs : FS) (kind : string) (content : bytes)
  : FS * (bytes * option error) :=
  let framed := frame kind content in
  let sha := sha1.Sum framed in
  let s := hex.EncodeToString sha in
  match DirPath r fs true ["objects"; str (take 2 (raw s))] with
  | (fs1, inr e) => (fs1, (sha, Some (Wrap "ensure object dir: %w" e)))
  | (fs1, inl _) =>
      let full := object_path r s in
      match os.WriteFile fs1 full (zlib.compress framed) with
      | (fs2, Some e) => (fs2, (sha, Some (Wrap "open object file: %w" e)))
      | (fs2, None) => (fs2, (sha, None))
      end
  end.

(** [Repository.ResolveRef].  [hex.DecodeString] hands back its bytes and
    its error together; [Err] is a failed read of a ref file, [Panic] the
    slice [ref[5:]] of a string of four bytes. *)
Fixpoint ResolveRef (fuel : nat) (r : Repository) (fs : FS) (ref : string)
  : option (result (bytes * option error)) :=
  match fuel with
  | O => None
  | S fuel' =>
      if String.prefix "ref:" ref then
        if (String.length ref <? 5)%nat
        then Some (Panic "slice bounds out of range")
        else
          let target := str (drop 5 (raw ref)) in
          match os.ReadFile fs target with
          | inr e => Some (Err (Wrap "read ref %q: %w" e))
          | inl data => ResolveRef fuel' r fs (str data)
          end
      else Some (Ok (hex.DecodeString ref))
  end.

(** [treeCheckout] (cmd.go).  The recursion follows the identifiers stored
    in the tree, so its depth is bounded by fuel; the inner loop runs over
    the leaves.  The value of the nested call is dropped by the caller:
    only a panic and the nested call's effect on the filesystem get
    through. *)
Fixpoint treeCheckout (fuel : nat) (r : Repository) (fs : FS)
    (tr : TreeObject) (dest_dir : string) {struct fuel}
  : option (FS * result unit) :=
  match fuel with
  | O => None
  | S fuel' =>
      (fix leaves (ls : list TreeLeaf) (fs : FS) {struct ls}
         : option (FS * result unit) :=
         match ls with
         | [] => Some (fs, Ok tt)
         | leaf :: rest =>
             match ReadObject r fs (Sha leaf) with
             | None => None
             | Some (Panic m) => Some (fs, Panic m)
             | Some (Err e) => Some (fs, Err (Wrap "read %x: %w" e))
             | Some (Ok obj) =>
                 let dest := filepath.Join [dest_dir; Path leaf] in
                 match obj with
                 | OTree sub =>
                     match os.MkdirAll fs dest with
                     | (fs1, Some e) => Some (fs1, Err (Wrap "mkdir %q: %w" e))
                     | (fs1, None) =>
                         match treeCheckout fuel' r fs1 sub dest with
                         | None => None
                         | Some (fs2, Panic m) => Some (fs2, Panic m)
                         | Some (fs2, _) => leaves rest fs2
                         end
                     end
                 | OBlob b =>
                     match os.WriteFile fs dest (Data b) with
                     | (fs1, Some e) => Some (fs1, Err (Wrap "write %q blob: %w" e))
                     | (fs1, None) => leaves rest fs1
                     end
                 | OCommit _ => Some (fs, Err (New "unexpected %T"))
                 end
             end
         end) (Leafs tr) fs
  end.

End Store.

(** ** The commands (cmd.go)

    A command writes to [output] (or to the standard output) and returns an
    error; the text written is returned beside the result. *)

Definition QUOTE : byte := ascii_of_nat 34.

Section Commands.

Context {hash : sha1.Hash} {codec : zlib.Codec}.

(** [cmdInit] *)
Definition cmdInit (fs : FS) (args : list string) : FS * option error :=
  match args with
  | [] =>
      match CreateRepository fs "." with
      | (fs', inl _) => (fs', None)
      | (fs', inr e) => (fs', Some e)
      end
  | [dir] =>
      match CreateRepository fs dir with
      | (fs', inl _) => (fs', None)
      | (fs', inr e) => (fs', Some e)
      end
  | _ => (fs, Some (New "usage: init [<dir>]"))
  end.

(** [cmdHashObject]; the second component is what [fmt.Println] prints. *)
Definition cmdHashObject (fuel : nat) (fs : FS) (args : list string)
  : option (FS * string * option error) :=
  match args with
  | [kind; file] =>
      if negb (string_eqb kind "commit" || string_eqb kind "tree"
               || string_eqb kind "tag" || string_eqb kind "blob")
      then Some (fs, "", Some (New "invalid object type"))
      else
        match FindRepository fuel fs "." with
        | None => None
        | Some (inr e) => Some (fs, "", Some (Wrap "cannot open git repository: %w" e))
        | Some (inl repo) =>
            match os.ReadFile fs file with
            | inr e => Some (fs, "", Some (Wrap "read file: %w" e))
            | inl content =>
                match WriteObject repo fs kind content with
                | (fs', (_, Some e)) => Some (fs', "", Some (Wrap "write object: %w" e))
                | (fs', (sha, None)) => Some (fs', hex.EncodeToString sha +:+ nl, None)
                end
            end
        end
  | _ => Some (fs, "", Some (New "usage: hash-object <kind> <path>"))
  end.

(** The line that [fmt.Fprintf] writes for one parent: the identifier in
    hexadecimal and the parent header value, each between double quotes,
    with an arrow between them, then a semicolon and a newline. *)
Definition edge (sha : bytes) (parent : string) : string :=
  String QUOTE (hex.EncodeToString sha) +:+ String QUOTE " -> "
    +:+ String QUOTE parent +:+ String QUOTE ";" +:+ nl.

(** [writeGraphviz].  [w] is what the writer holds; [seen] is handed on
    from call to call and neither read nor written.  The recursion follows
    the parent headers of the stored commits, so its depth is bounded by
    fuel; the inner loop runs over the parents of one commit. *)
Fixpoint writeGraphviz (fuel : nat) (r : Repository) (fs : FS) (w : string)
    (seen : gset string) (sha : bytes) {struct fuel}
  : option (string * result unit) :=
  match fuel with
  | O => None
  | S fuel' =>
      match ReadObject r fs sha with
      | None => None
      | Some (Panic m) => Some (w, Panic m)
      | Some (Err e) => Some (w, Err (Wrap "read %q object: %w" e))
      | Some (Ok (OCommit c)) =>
          (fix parents (ps : list string) (w : string) {struct ps}
             : option (string * result unit) :=
             match ps with
             | [] => Some (w, Ok tt)
             | parent :: rest =>
                 let w1 := w +:+ edge sha parent in
                 match hex.DecodeString parent with
                 | (_, Some e) =>
                     Some (w1, Err (Wrap "invalid %q parent sha: %w" e))
                 | (parentSha, None) =>
                     match writeGraphviz fuel' r fs w1 seen parentSha with
                     | None => None
                     | Some (w2, Ok _) => parents rest w2
                     | Some (w2, failure) => Some (w2, failure)
                     end
                 end
             end) (default [] (Header c !! "parent")) w
      | Some (Ok _) => Some (w, Err (New "not a commit object: %T"))
      end
  end.

(** [cmdLog]: the graph is built in a buffer, which reaches [output] only
    when the walk has succeeded. *)
Definition cmdLog (fuel : nat) (fs : FS) (args : list string)
  : option (string * result unit) :=
  match args with
  | [hash] =>
      match hex.DecodeString hash with
      | (_, Some e) => Some ("", Err (Wrap "invalid hash value: %w" e))
      | (sha, None) =>
          match FindRepository fuel fs "." with
          | None => None
          | Some (inr e) => Some ("", Err (Wrap "cannot open git repository: %w" e))
          | Some (inl repo) =>
              match writeGraphviz fuel repo fs ("digraph gogitlog{" +:+ nl) ∅ sha with
              | None => None
              | Some (b, Ok _) => Some (b +:+ "}" +:+ nl, Ok tt)
              | Some (_, Err e) => Some ("", Err e)
              | Some (_, Panic m) => Some ("", Panic m)
              end
          end
      end
  | _ => Some ("", Err (New "usage: log <sha>"))
  end.

(** [cmdCheckout].  Taking the first value of the tree header panics when
    the commit has none, and so does the type assertion when the object it
    names is not a tree; the error of making the destination directory is
    dropped. *)
Definition cmdCheckout (fuel : nat) (fs : FS) (args : list string)
  : option (FS * result unit) :=
  match args with
  | [commit; dest] =>
      match hex.DecodeString commit with
      | (_, Some e) => Some (fs, Err (Wrap "invalid hash value: %w" e))
      | (sha, None) =>
          match FindRepository fuel fs "." with
          | None => None
          | Some (inr e) => Some (fs, Err (Wrap "cannot open git repository: %w" e))
          | Some (inl repo) =>
              let checkout (tr : TreeObject) :=
                let destDir := filepath.Abs fs dest in
                let '(fs1, _) := os.MkdirAll fs destDir in
                treeCheckout fuel repo fs1 tr destDir in
              match ReadObject repo fs sha with
              | None => None
              | Some (Panic m) => Some (fs, Panic m)
              | Some (Err e) => Some (fs, Err (Wrap "read %q object: %w" e))
              | Some (Ok (OCommit c)) =>
                  match default [] (Header c !! "tree") with
                  | [] => Some (fs, Panic "index out of range [0] with length 0")
                  | tree :: _ =>
                      match hex.DecodeString tree with
                      | (_, Some e) =>
                          Some (fs, Err (Wrap "invalid tree hash value: %w" e))
                      | (treeSha, None) =>
                          match ReadObject repo fs treeSha with
                          | None => None
                          | Some (Panic m) => Some (fs, Panic m)
                          | Some (Err e) =>
                              Some (fs, Err (Wrap "read %q tree object: %w" e))
                          | Some (Ok (OTree tr)) => checkout tr
                          | Some (Ok _) =>
                              Some (fs, Panic "interface conversion: not *main.TreeObject")
                          end
                      end
                  end
              | Some (Ok (OTree tr)) => checkout tr
              | Some (Ok (OBlob _)) => Some (fs, Err (New "unexpected %T"))
              end
          end
      end
  | _ => Some (fs, Err (New "usage: checkout <commit> <path>"))
  end.

(** [cmdTag] *)
Definition cmdTag (fuel : nat) (fs : FS) (args : list string)
  : option (FS * option error) :=
  match args with
  | [name; hash] =>
      match FindRepository fuel fs "." with
      | None => None
      | Some (inr e) => Some (fs, Some (Wrap "cannot open git repository: %w" e))
      | Some (inl repo) =>
          match WriteFile repo fs true (raw (hash +:+ nl)) ["refs"; "tags"; name] with
          | (fs', Some e) => Some (fs', Some (Wrap "write tag file: %w" e))
          | (fs', None) => Some (fs', None)
          end
      end
  | _ => Some (fs, Some (New "usage: tag <name> <hash>"))
  end.

End Commands.

(** * Definitions used in the statements *)

(** ** Readers *)

(** Everything the reader has not handed out yet. *)
Definition stream (b : bufio.Reader) : bytes := bufio.buf b ++ bufio.src b.

(** The states a reader over an in-memory source goes through. *)
Definition wf_reader (b : bufio.Reader) : Prop :=
  (length (bufio.buf b) ≤ bufio.defaultBufSize)%nat ∧
  (bufio.err b = None ∨ (bufio.err b = Some EOF ∧ bufio.src b = [])).

(** The three ways [ReadSlice] ends, read against the stream. *)
Inductive slice_outcome (d : byte) (b : bufio.Reader)
  : bytes → option error → bufio.Reader → Prop :=
| slice_line line b' :
    bufio.cut d (stream b) = Some (line, stream b') →
    slice_outcome d b line None b'
| slice_end b' :
    bufio.cut d (stream b) = None → stream b' = [] →
    slice_outcome d b (stream b) (Some EOF) b'
| slice_more frag b' :
    bufio.cut d frag = None → frag ≠ [] → stream b = frag ++ stream b' →
    slice_outcome d b frag (Some ErrBufferFull) b'.

(** ** Byte strings *)

Definition is_digit (c : ascii) : Prop := ∃ d, 0 <= d <= 9 ∧ c = strconv.digit_char d.

Definition no_byte (d : byte) (l : bytes) : Prop :=
  Forall (λ c, Ascii.eqb c d = false) l.

(** A leaf as the grammar of a tree entry can carry it. *)
Definition wf_leaf (l : TreeLeaf) : Prop :=
  0 <= Mode l < 2 ^ 32 ∧ no_byte NUL (raw (Path l)) ∧ length (Sha l) = 20%nat.

(** ** Concrete stores *)

Module example.

Definition repo : Repository := {| workdir := "/r"; gitdir := "/r/.git" |}.

(** An initialised, empty repository at [/r]. *)
Definition fresh : FS :=
  (CreateRepository {| cwd := "/"; nodes := ∅ |} "/r").1.

Definition write := WriteObject (hash := sha1.fips) (codec := zlib.plain) repo.
Definition read := ReadObject (codec := zlib.plain) repo.

End example.

(** Inputs for tree parsing. *)
Module tree_example.

(** One leaf followed by three bytes where the identifier should be. *)
Definition short_sha : bytes := raw "420 a" ++ [NUL] ++ raw "xyz".

(** 137 regular files named ["100"] to ["236"]; each entry takes 30 bytes,
    so the identifier of the last one starts at byte 4090 and lies across
    the end of the first 4096 bytes. *)
Definition leaf (i : nat) : TreeLeaf :=
  {| Mode := 33188;
     Path := strconv.Itoa (100 + Z.of_nat i);
     Sha := replicate 20 "x"%char |}.

Definition big : TreeObject := {| Leafs := map leaf (seq 0 137) |}.

Definition damaged : TreeLeaf :=
  {| Mode := 33188;
     Path := "236";
     Sha := replicate 6 "x"%char ++ replicate 14 NUL |}.

End tree_example.

(** Inputs for repository creation. *)
Module create_example.

(** A repository at [/r] whose HEAD points at the branch [dev]. *)
Definition existing : FS :=
  (os.WriteFile example.fresh "/r/.git/HEAD" (raw ("ref: refs/heads/dev" +:+ nl))).1.

End create_example.

(** Inputs for the search of a repository. *)
Module find_example.

(** Only the directory [/a]. *)
Definition plain : FS := {| cwd := "/"; nodes := {[ ["a"] := Dir ]} |}.

End find_example.

(** Inputs for ref resolution. *)
Module ref_example.

(** The identifier of the empty blob. *)
Definition id : bytes := sha1.fips_Sum (frame "blob" []).

(** The repository [/r] seen from its metadata directory, with the branch
    [master] written the way [cmdTag] writes a ref: the identifier and a
    newline. *)
Definition store : FS :=
  (WriteFile example.repo
     {| cwd := "/r/.git"; nodes := nodes example.fresh |} true
     (raw (hex.EncodeToString id +:+ nl)) ["refs"; "heads"; "master"]).1.

End ref_example.

(** Inputs for checkout. *)
Module checkout_example.

(** A subtree whose only leaf names an object that is not in the store. *)
Definition sub : TreeObject :=
  {| Leafs := [ {| Mode := 33188; Path := "x"; Sha := replicate 20 "x"%char |} ] |}.

Definition stored := example.write example.fresh "tree" (Tree.Serialize sub).1.

Definition store : FS := stored.1.

Definition leaf : TreeLeaf := {| Mode := 16384; Path := "sub"; Sha := stored.2.1 |}.

Definition checkout := treeCheckout (codec := zlib.plain).

End checkout_example.

(** ** Well-formed commits *)

(** A header key: not empty, without a space or a newline. *)
Definition header_key (k : string) : Prop :=
  k ≠ "" ∧ no_byte SP (raw k) ∧ no_byte LF (raw k).

(** A header line: a key and a value without a newline. *)
Definition header_line (kv : string * string) : Prop :=
  header_key kv.1 ∧ no_byte LF (raw kv.2).

(** [key ' ' value '\n'] *)
Definition line_bytes (kv : string * string) : bytes :=
  raw kv.1 ++ [SP] ++ raw kv.2 ++ [LF].

(** The header lines, a blank line, and the comment. *)
Definition commit_bytes (lines : list (string * string)) (comment : string) : bytes :=
  concat (map line_bytes lines) ++ [LF] ++ raw comment.

(** The header multimap of a list of lines: every value under its key, in
    the order of the lines. *)
Definition header_of (lines : list (string * string)) : gmap string (list string) :=
  foldl (λ h kv, Commit.append_value h kv.1 kv.2) ∅ lines.

(** The commit of the repository's test, with a second parent line. *)
Module commit_example.

Definition lines : list (string * string) :=
  [ ("tree", "c7aebf0cbe2b1a70501c7b7e1e28faceaba77541");
    ("parent", "c2367d038bac610d36342cb5e3a88b5b0ca16616");
    ("parent", "e69de29bb2d1d6434b8b29ae775ad8c2e48c5391");
    ("author", "Bob R <bobr@example.com> 1580755918 +0100");
    ("committer", "Bob R <bobr@example.com> 1580755918 +0100") ].

Definition text : string :=
  "tree c7aebf0cbe2b1a70501c7b7e1e28faceaba77541
parent c2367d038bac610d36342cb5e3a88b5b0ca16616
parent e69de29bb2d1d6434b8b29ae775ad8c2e48c5391
author Bob R <bobr@example.com> 1580755918 +0100
committer Bob R <bobr@example.com> 1580755918 +0100

A commit message".

End commit_example.

(** Stored objects, sound and damaged. *)
Module store_example.

Definition tree : TreeObject :=
  {| Leafs := [checkout_example.leaf; tree_example.leaf 0] |}.

(** The blob ["hi"] in a fresh repository. *)
Definition with_blob := example.write example.fresh "blob" (raw "hi").

Definition blob_id : bytes := with_blob.2.1.

(** The file of the blob replaced by the stored form of [frame]. *)
Definition damaged (frame : bytes) : FS :=
  (os.WriteFile with_blob.1
     (object_path example.repo (hex.EncodeToString blob_id))
     (zlib.plain_compress frame)).1.

End store_example.

(** ** Chains of refs *)

(** [p] holds a redirection to [q], without anything after it. *)
Definition redirects (fs : FS) (p q : string) : Prop :=
  os.ReadFile fs p = inl (raw ("ref: " +:+ q)).

(** The files [paths], each redirecting to the next, the last one holding
    the identifier [id] in hexadecimal. *)
Fixpoint ref_chain (fs : FS) (p : string) (paths : list string) (id : bytes) : Prop :=
  match paths with
  | [] => os.ReadFile fs p = inl (raw (hex.EncodeToString id))
  | q :: rest => redirects fs p q ∧ ref_chain fs q rest id
  end.

(** Inputs for ref chains. *)
Module chain_example.

(** [a] redirects to [b], [b] holds the identifier of the empty blob, and
    [loop] redirects to itself. *)
Definition store : FS :=
  {| cwd := "/";
     nodes := {[ ["a"] := File (raw "ref: b");
                 ["b"] := File (raw (hex.EncodeToString ref_example.id));
                 ["loop"] := File (raw "ref: loop") ]} |}.

End chain_example.

(** ** The ancestry walk *)

(** The loop of [writeGraphviz] over the parents of one commit, with the
    recursive call as a parameter. *)
Definition parents_loop (walk : string → bytes → option (string * result unit))
    (sha : bytes) : list string → string → option (string * result unit) :=
  fix parents (ps : list string) (w : string) {struct ps}
    : option (string * result unit) :=
    match ps with
    | [] => Some (w, Ok tt)
    | parent :: rest =>
        let w1 := w +:+ edge sha parent in
        match hex.DecodeString parent with
        | (_, Some e) =>
            Some (w1, Err (Wrap "invalid %q parent sha: %w" e))
        | (parentSha, None) =>
            match walk w1 parentSha with
            | None => None
            | Some (w2, Ok _) => parents rest w2
            | Some (w2, failure) => Some (w2, failure)
            end
        end
    end.

(** The text for the parents [ps] of [sha], where [outs] is what the walk
    of each parent writes: for every parent its edge, then its walk. *)
Fixpoint edges (sha : bytes) (ps : list string) (outs : list string) : string :=
  match ps, outs with
  | p :: ps', out :: outs' => edge sha p +:+ out +:+ edges sha ps' outs'
  | _, _ => ""
  end.

(** A history in the store of [/r], seen from inside [/r]:
    [base <- root], [root <- left], [root <- right], [left, right <- merge],
    and a commit whose second parent is not in the store. *)
Module log_example.

Definition commit (parents : list bytes) (comment : string) : bytes :=
  commit_bytes
    (("tree", "c7aebf0cbe2b1a70501c7b7e1e28faceaba77541")
       :: map (λ p, ("parent", hex.EncodeToString p)) parents)
    comment.

Definition s0 := example.write example.fresh "commit" (commit [] "base").
Definition base : bytes := s0.2.1.
Definition s1 := example.write s0.1 "commit" (commit [base] "root").
Definition root : bytes := s1.2.1.
Definition s2 := example.write s1.1 "commit" (commit [root] "left").
Definition left : bytes := s2.2.1.
Definition s3 := example.write s2.1 "commit" (commit [root] "right").
Definition right : bytes := s3.2.1.
Definition s4 := example.write s3.1 "commit" (commit [left; right] "merge").
Definition merge : bytes := s4.2.1.

Definition absent : bytes := replicate 20 "x"%char.

Definition s5 := example.write s4.1 "commit" (commit [left; absent] "broken").
Definition broken : bytes := s5.2.1.

Definition store : FS := {| cwd := "/r"; nodes := nodes s5.1 |}.

Definition commit_of (parents : list bytes) (comment : string) : CommitObject :=
  {| Header :=
       header_of
         (("tree", "c7aebf0cbe2b1a70501c7b7e1e28faceaba77541")
            :: map (λ p, ("parent", hex.EncodeToString p)) parents);
     Comment := comment |}.

(** What the walks write. *)
Definition walk_root : string := edge root (hex.EncodeToString base).
Definition walk_left : string := edge left (hex.EncodeToString root) +:+ walk_root.
Definition walk_right : string := edge right (hex.EncodeToString root) +:+ walk_root.

End log_example.

(** A file [a.txt] beside the repository of [/r], seen from inside [/r]. *)
Module hash_example.

Definition store : FS :=
  (os.WriteFile {| cwd := "/r"; nodes := nodes example.fresh |} "a.txt" (raw "hi")).1.

End hash_example.

(** ** Directories that stay *)

(** From [fs] to [fs'] the working directory is the same and every
    directory is still a directory. *)
Definition kept (fs fs' : FS) : Prop :=
  cwd fs' = cwd fs ∧
  ∀ k, os.node_at (nodes fs) k = Some Dir → os.node_at (nodes fs') k = Some Dir.

(** Inputs for the commands: the repository of [/r] seen from inside [/r]. *)
Module command_example.

Definition inside : FS := {| cwd := "/r"; nodes := nodes example.fresh |}.

(** A commit without a tree line. *)
Definition treeless :=
  example.write inside "commit" (commit_bytes [("author", "Bob R")] "no tree").

(** The tag [v1] for the empty blob, as [cmdTag] writes it. *)
Definition tagged : FS :=
  (WriteFile example.repo inside true
     (raw (hex.EncodeToString ref_example.id +:+ nl)) ["refs"; "tags"; "v1"]).1.


End command_example.

(** ** Errors of repository creation *)


(** ** Paths *)

(** A path element that [Clean] keeps as it is: not empty, not [.], not
    [..], and without a slash. *)
Definition plain (e : string) : Prop :=
  e ≠ "" ∧ e ≠ "." ∧ e ≠ ".." ∧ no_byte path.SLASH (raw e).

(** The list of elements of a rooted path, from the root: its key in the
    filesystem. *)
Definition path_key (g : string) : list string :=
  path.clean_elems true (path.split g) [].

(** ** Checking out *)

Section CheckoutLoop.

Context {codec : zlib.Codec}.


End CheckoutLoop.


(** Two blobs in the store of [/r], a tree that names them, and an empty
    directory [/out]. *)
Module blobs_example.

Definition first := example.write example.fresh "blob" (raw "hi").
Definition second := example.write first.1 "blob" (raw "ho").

Definition tree : TreeObject :=
  {| Leafs := [ {| Mode := 33188; Path := "a.txt"; Sha := first.2.1 |};
                {| Mode := 33188; Path := "b.txt"; Sha := second.2.1 |} ] |}.

Definition store : FS := (os.MkdirAll second.1 "/out").1.

(** The tree in the store, a commit of it, and the repository seen from
    inside [/r]. *)
Definition third := example.write second.1 "tree" (Tree.Serialize tree).1.
Definition fourth :=
  example.write third.1 "commit"
    (commit_bytes [("tree", hex.EncodeToString third.2.1)] "two files").

Definition commit : CommitObject :=
  {| Header := header_of [("tree", hex.EncodeToString third.2.1)];
     Comment := "two files" |}.

Definition inside : FS := {| cwd := "/r"; nodes := nodes fourth.1 |}.

End blobs_example.

(** * Properties *)

(** ** Bytes and strings *)

Lemma str_raw (s : string) : str (raw s) = s.
Proof. apply string_of_list_ascii_of_string. Qed.

Lemma raw_str (b : bytes) : raw (str b) = b.
Proof. apply list_ascii_of_string_of_list_ascii. Qed.

Lemma raw_app (s t : string) : raw (s +:+ t) = raw s ++ raw t.
Proof. induction s as [|c s IH]; simpl; [done | by rewrite IH]. Qed.

Lemma removelast_snoc {A} (l : list A) (x : A) : removelast (l ++ [x]) = l.
Proof. rewrite removelast_app by discriminate. simpl. apply app_nil_r. Qed.

Lemma chop_snoc (l : bytes) (c : byte) : chop (str (l ++ [c])) = str l.
Proof. unfold chop. by rewrite raw_str, removelast_snoc. Qed.

Lemma len_nonneg {A} (l : list A) : 0 <= len l.
Proof. unfold len. lia. Qed.

(** ** strconv: [Atoi] reads back what [%d] prints *)

Module strconv_facts.
Import strconv.

Lemma digit_cases (d : Z) :
  0 <= d <= 9 →
  d = 0 ∨ d = 1 ∨ d = 2 ∨ d = 3 ∨ d = 4 ∨ d = 5 ∨ d = 6 ∨ d = 7 ∨ d = 8 ∨ d = 9.
Proof. lia. Qed.

Ltac each_digit d H :=
  pose proof (digit_cases d H) as Hcases;
  repeat (destruct Hcases as [-> | Hcases]); [.. | subst d].

Lemma digit_val_char (d : Z) : 0 <= d <= 9 → digit_val (digit_char d) = Some d.
Proof. intros H. each_digit d H; reflexivity. Qed.

Lemma is_digit_neq (c x : ascii) :
  is_digit c → (nat_of_ascii x < 48 ∨ 57 < nat_of_ascii x)%nat → Ascii.eqb c x = false.
Proof.
  intros (d & Hd & ->) Hx. apply Ascii.eqb_neq. intros <-.
  each_digit d Hd; vm_compute in Hx; lia.
Qed.

Lemma mod10_range (n : Z) : 0 <= n mod 10 <= 9.
Proof. pose proof (Z.mod_pos_bound n 10). lia. Qed.

Lemma parse_digits_cons (d : Z) (rest : string) (a : Z) :
  0 <= d <= 9 → a * 10 + d <= maxUint64 →
  parse_digits (String (digit_char d) rest) a = parse_digits rest (a * 10 + d).
Proof.
  intros Hd Ha. cbn [parse_digits]. rewrite digit_val_char by done.
  cbv zeta. destruct (Z.ltb_spec maxUint64 (a * 10 + d)); [lia | done].
Qed.

Lemma fmt_digits_parse (fuel : nat) : ∀ n acc,
  0 <= n < 2 * 2 ^ Z.of_nat fuel → n <= maxUint64 →
  parse_digits (fmt_digits fuel n acc) 0 = parse_digits acc n.
Proof.
  induction fuel as [|fuel IH]; intros n acc Hn Hmax.
  - cbn [fmt_digits]. change (2 ^ Z.of_nat 0) with 1 in Hn.
    rewrite parse_digits_cons;
      [| apply mod10_range | rewrite Z.mod_small by lia; lia].
    rewrite Z.mod_small by lia. done.
  - cbn [fmt_digits]. destruct (Z.ltb_spec n 10) as [Hlt | Hge].
    + rewrite parse_digits_cons;
        [| apply mod10_range | rewrite Z.mod_small by lia; lia].
      rewrite Z.mod_small by lia. done.
    + pose proof (Z.div_mod n 10 ltac:(lia)) as Hdm.
      pose proof (mod10_range n) as Hm.
      rewrite IH.
      * rewrite parse_digits_cons; [| done | lia]. f_equal. lia.
      * rewrite Nat2Z.inj_succ, Z.pow_succ_r in Hn by lia.
        split; [apply Z.div_pos; lia |].
        apply Z.div_lt_upper_bound; lia.
      * lia.
Qed.

Lemma fmt_digits_head (fuel : nat) : ∀ n acc,
  ∃ d rest, 0 <= d <= 9 ∧ fmt_digits fuel n acc = String (digit_char d) rest.
Proof.
  induction fuel as [|fuel IH]; intros n acc.
  - exists (n mod 10), acc. split; [apply mod10_range | done].
  - cbn [fmt_digits]. destruct (n <? 10).
    + exists (n mod 10), acc. split; [apply mod10_range | done].
    + apply IH.
Qed.

Lemma fmt_digits_all (fuel : nat) : ∀ n acc,
  Forall is_digit (raw acc) → Forall is_digit (raw (fmt_digits fuel n acc)).
Proof.
  induction fuel as [|fuel IH]; intros n acc Hacc.
  - constructor; [|done]. exists (n mod 10). split; [apply mod10_range | done].
  - cbn [fmt_digits]. destruct (n <? 10).
    + constructor; [|done]. exists (n mod 10). split; [apply mod10_range | done].
    + apply IH. constructor; [|done].
      exists (n mod 10). split; [apply mod10_range | done].
Qed.

Lemma log2_fuel (n : Z) : 0 <= n → 0 <= n < 2 * 2 ^ Z.of_nat (Z.to_nat (Z.log2 n)).
Proof.
  intros Hn. rewrite Z2Nat.id by apply Z.log2_nonneg.
  destruct (Z.eq_dec n 0) as [-> | Hne]; [simpl; lia |].
  pose proof (Z.log2_spec n ltac:(lia)) as [_ Hup].
  rewrite Z.pow_succ_r in Hup by apply Z.log2_nonneg. lia.
Qed.

Lemma Itoa_digits (n : Z) : 0 <= n → Forall is_digit (raw (Itoa n)).
Proof.
  intros Hn. unfold Itoa. destruct (Z.ltb_spec n 0); [lia |].
  apply fmt_digits_all. constructor.
Qed.

Lemma Atoi_digits (d : Z) (rest : string) (n : Z) :
  0 <= d <= 9 → 0 <= n <= maxInt →
  parse_digits (String (digit_char d) rest) 0 = inl n →
  Atoi (String (digit_char d) rest) = inl n.
Proof.
  intros Hd Hn Hparse.
  assert (Hrange : (minInt <=? n) && (n <=? maxInt) = true).
  { unfold minInt, maxInt in *. apply andb_true_iff. split; apply Z.leb_le; lia. }
  unfold Atoi.
  each_digit d Hd;
    (change (digit_char _) with "0"%char in * ||
     change (digit_char _) with "1"%char in * ||
     change (digit_char _) with "2"%char in * ||
     change (digit_char _) with "3"%char in * ||
     change (digit_char _) with "4"%char in * ||
     change (digit_char _) with "5"%char in * ||
     change (digit_char _) with "6"%char in * ||
     change (digit_char _) with "7"%char in * ||
     change (digit_char _) with "8"%char in * ||
     change (digit_char _) with "9"%char in *);
    cbv iota beta; rewrite Hparse; cbv iota beta; by rewrite Hrange.
Qed.

(** [Atoi] is a left inverse of [Itoa] on the non-negative [int]s. *)
Lemma Atoi_Itoa (n : Z) : 0 <= n <= maxInt → Atoi (Itoa n) = inl n.
Proof.
  intros Hn. unfold Itoa. destruct (Z.ltb_spec n 0); [lia |].
  assert (Hmax : n <= maxUint64) by (unfold maxInt, maxUint64 in *; lia).
  pose proof (fmt_digits_parse _ n "" (log2_fuel n ltac:(lia)) Hmax) as Hparse.
  destruct (fmt_digits_head (Z.to_nat (Z.log2 n)) n "") as (d & rest & Hd & Heq).
  rewrite Heq in *. by apply Atoi_digits.
Qed.

End strconv_facts.

(** ** bufio: what the reader hands out, in terms of the unread stream *)

Module bufio_facts.
Import bufio.

Lemma wf_NewReader (data : bytes) : wf_reader (NewReader data).
Proof. split; simpl; [lia | by left]. Qed.

Lemma stream_NewReader (data : bytes) : stream (NewReader data) = data.
Proof. done. Qed.

Lemma bufsize_pos : (0 < defaultBufSize)%nat.
Proof. unfold defaultBufSize. lia. Qed.

(** *** [cut] *)

Lemma cut_app (d : byte) (l pre post : bytes) :
  cut d l = Some (pre, post) → l = pre ++ post.
Proof.
  revert pre post. induction l as [|c l IH]; intros pre post; simpl; [done |].
  destruct (Ascii.eqb c d).
  - intros [= <- <-]. done.
  - destruct (cut d l) as [[pre' post'] |]; [|done].
    intros [= <- <-]. simpl. f_equal. by apply IH.
Qed.

Lemma cut_nonempty (d : byte) (l pre post : bytes) :
  cut d l = Some (pre, post) → pre ≠ [].
Proof.
  destruct l as [|c l]; simpl; [done |].
  destruct (Ascii.eqb c d); [by intros [= <- <-] |].
  destruct (cut d l) as [[pre' post'] |]; [by intros [= <- <-] | done].
Qed.

Lemma cut_found_app (d : byte) (l pre post rest : bytes) :
  cut d l = Some (pre, post) → cut d (l ++ rest) = Some (pre, post ++ rest).
Proof.
  revert pre post. induction l as [|c l IH]; intros pre post; simpl; [done |].
  destruct (Ascii.eqb c d); [by intros [= <- <-] |].
  destruct (cut d l) as [[pre' post'] |]; [|done].
  intros [= <- <-]. by rewrite (IH pre' post').
Qed.

Lemma cut_none_app (d : byte) (l rest : bytes) :
  cut d l = None →
  cut d (l ++ rest) =
    match cut d rest with
    | Some (pre, post) => Some (l ++ pre, post)
    | None => None
    end.
Proof.
  induction l as [|c l IH]; simpl.
  - intros _. by destruct (cut d rest) as [[??]|].
  - destruct (Ascii.eqb c d); [done |].
    destruct (cut d l) as [[??]|]; [done |]. intros _.
    rewrite IH by done. by destruct (cut d rest) as [[??]|].
Qed.

Lemma cut_none_iff (d : byte) (l : bytes) :
  cut d l = None ↔ Forall (λ c, Ascii.eqb c d = false) l.
Proof.
  induction l as [|c l IH]; simpl; [split; [constructor | done] |].
  destruct (Ascii.eqb c d) eqn:Hc.
  - split; [done |]. intros H. inversion H; congruence.
  - destruct (cut d l) as [[??]|].
    + split; [done |]. intros H. inversion H; subst.
      by assert (Some (l0, l1) = None) by by apply IH.
    + split; [|done]. intros _. constructor; [done | by apply IH].
Qed.

(** The first delimiter ends the first piece. *)
Lemma cut_first (d : byte) (l rest : bytes) :
  Forall (λ c, Ascii.eqb c d = false) l →
  cut d (l ++ d :: rest) = Some (l ++ [d], rest).
Proof.
  intros Hl. rewrite cut_none_app by by apply cut_none_iff.
  simpl. by rewrite Ascii.eqb_refl.
Qed.

(** *** [fill] *)

Lemma fill_eof (b : Reader) :
  src b = [] → fill b = {| buf := buf b; src := []; err := Some EOF |}.
Proof. intros H. unfold fill, src_Read. rewrite H. by rewrite app_nil_r. Qed.

Lemma fill_data (b : Reader) :
  src b ≠ [] → (length (buf b) < defaultBufSize)%nat →
  ∃ data rest,
    fill b = {| buf := buf b ++ data; src := rest; err := None |} ∧
    src b = data ++ rest ∧ data ≠ [] ∧
    (length (buf b ++ data) ≤ defaultBufSize)%nat ∧
    ((length (buf b ++ data) < defaultBufSize)%nat → rest = []).
Proof.
  intros Hsrc Hlen. unfold fill, src_Read.
  destruct (src b) as [|c s] eqn:Hs; [done |].
  set (k := (defaultBufSize - length (buf b))%nat).
  exists (take k (c :: s)), (drop k (c :: s)). split; [done |].
  split; [by rewrite take_drop |].
  split.
  { destruct k eqn:Hk; [lia | done]. }
  rewrite length_app, length_take. split; [lia |].
  intros Hlt. apply drop_ge. lia.
Qed.

(** *** [ReadSlice] *)

Lemma ReadSlice_found (fuel : nat) (d : byte) (b : Reader) (line rest : bytes) :
  cut d (buf b) = Some (line, rest) →
  ReadSlice (S fuel) d b =
    Some (line, None, {| buf := rest; src := src b; err := err b |}).
Proof. intros H. simpl. by rewrite H. Qed.

Lemma ReadSlice_eof (fuel : nat) (d : byte) (b : Reader) (e : error) :
  cut d (buf b) = None → err b = Some e →
  ReadSlice (S fuel) d b =
    Some (buf b, Some e, {| buf := []; src := src b; err := None |}).
Proof. intros H He. simpl. by rewrite H, He. Qed.

Lemma ReadSlice_full (fuel : nat) (d : byte) (b : Reader) :
  cut d (buf b) = None → err b = None →
  (defaultBufSize ≤ length (buf b))%nat →
  ReadSlice (S fuel) d b =
    Some (buf b, Some ErrBufferFull, {| buf := []; src := src b; err := None |}).
Proof.
  intros H He Hlen. cbn [ReadSlice]. rewrite H, He.
  destruct (Nat.leb_spec defaultBufSize (length (buf b))); [done | lia].
Qed.

Lemma ReadSlice_fill (fuel : nat) (d : byte) (b : Reader) :
  cut d (buf b) = None → err b = None →
  (length (buf b) < defaultBufSize)%nat →
  ReadSlice (S fuel) d b = ReadSlice fuel d (fill b).
Proof.
  intros H He Hlen. cbn [ReadSlice]. rewrite H, He.
  destruct (Nat.leb_spec defaultBufSize (length (buf b))); [lia | done].
Qed.

Lemma ReadSlice_spec (d : byte) (b : Reader) :
  wf_reader b →
  ∃ frag e b', ReadSlice 3 d b = Some (frag, e, b') ∧ wf_reader b' ∧
               slice_outcome d b frag e b'.
Proof.
  intros [Hlen Herr].
  destruct (cut d (buf b)) as [[line rest]|] eqn:Hcut.
  { (* the delimiter is already buffered *)
    eexists _, _, _. split; [by apply ReadSlice_found |]. split.
    - split; simpl; [|done].
      apply cut_app in Hcut. rewrite Hcut, length_app in Hlen. lia.
    - constructor. unfold stream; simpl. by apply cut_found_app. }
  destruct Herr as [Herr | [Herr Hsrc]]; cycle 1.
  { (* the source is exhausted *)
    eexists _, _, _. split; [by apply ReadSlice_eof |]. split.
    - split; simpl; [lia | by left].
    - replace (buf b) with (stream b) at 1
        by (unfold stream; rewrite Hsrc; apply app_nil_r).
      constructor.
      + unfold stream. rewrite Hsrc, app_nil_r. done.
      + unfold stream; simpl. done. }
  destruct (Nat.le_gt_cases defaultBufSize (length (buf b))) as [Hfull | Hroom].
  { (* a full buffer without the delimiter *)
    eexists _, _, _. split; [by apply ReadSlice_full |]. split.
    - split; simpl; [lia | by left].
    - constructor; [done | | done].
      intros Hnil. rewrite Hnil in Hfull. pose proof bufsize_pos. simpl in *. lia. }
  rewrite ReadSlice_fill by done.
  destruct (src b) as [|c s] eqn:Hsrc.
  { (* nothing left to read: the fill records EOF *)
    rewrite fill_eof by done.
    eexists _, _, _. split; [by apply ReadSlice_eof |]. split.
    - split; simpl; [lia | by left].
    - simpl. replace (buf b) with (stream b) at 1
        by (unfold stream; rewrite Hsrc; apply app_nil_r).
      constructor; [|done].
      unfold stream. rewrite Hsrc, app_nil_r. done. }
  destruct (fill_data b) as (data & rest & Hfill & Hsplit & Hdata & Hle & Hlast);
    [by rewrite Hsrc | done |].
  rewrite Hfill.
  assert (Hstream : stream b = (buf b ++ data) ++ rest).
  { unfold stream. rewrite Hsplit. by rewrite app_assoc. }
  destruct (cut d (buf b ++ data)) as [[line rest']|] eqn:Hcut1.
  { eexists _, _, _. split; [by apply ReadSlice_found |]. split.
    - split; simpl; [|by left].
      apply cut_app in Hcut1. rewrite Hcut1, length_app in Hle. lia.
    - constructor. rewrite Hstream. unfold stream; simpl.
      by apply cut_found_app. }
  destruct (Nat.le_gt_cases defaultBufSize (length (buf b ++ data)))
    as [Hfull | Hroom1].
  { eexists _, _, _. split; [by apply ReadSlice_full |]. split.
    - split; simpl; [lia | by left].
    - constructor; [done | | done].
      intros Hnil. apply app_eq_nil in Hnil as [_ ?]. done. }
  specialize (Hlast Hroom1). subst rest.
  rewrite ReadSlice_fill by done. rewrite fill_eof by done.
  eexists _, _, _. split; [by apply ReadSlice_eof |]. split.
  - split; simpl; [lia | by left].
  - simpl. rewrite app_nil_r in Hstream. rewrite <- Hstream.
    constructor; [by rewrite Hstream | done].
Qed.

(** *** [ReadString] *)

Lemma collectFragments_spec (d : byte) (fuel : nat) : ∀ acc b,
  wf_reader b → (length (stream b) < fuel)%nat →
  ∃ b', wf_reader b' ∧
    match cut d (stream b) with
    | Some (pre, post) =>
        collectFragments fuel d acc b = Some (acc ++ pre, None, b') ∧
        stream b' = post
    | None =>
        collectFragments fuel d acc b = Some (acc ++ stream b, Some EOF, b') ∧
        stream b' = []
    end.
Proof.
  induction fuel as [|fuel IH]; intros acc b Hwf Hfuel; [lia |].
  destruct (ReadSlice_spec d b Hwf) as (frag & e & b1 & Hrs & Hwf1 & Hout).
  cbn [collectFragments]. rewrite Hrs.
  destruct Hout as [line b1 Hcut | b1 Hcut Hnil | frag b1 Hcut Hne Hsplit].
  - exists b1. split; [done |]. by rewrite Hcut.
  - exists b1. split; [done |]. by rewrite Hcut.
  - assert (Hlt : (length (stream b1) < fuel)%nat).
    { rewrite Hsplit, length_app in Hfuel.
      destruct frag; [done | simpl in Hfuel; lia]. }
    destruct (IH (acc ++ frag) b1 Hwf1 Hlt) as (b' & Hwf' & Hrec).
    exists b'. split; [done |].
    rewrite Hsplit, cut_none_app by done.
    destruct (cut d (stream b1)) as [[pre post]|].
    + destruct Hrec as [-> <-]. by rewrite app_assoc.
    + destruct Hrec as [-> ->]. by rewrite app_assoc.
Qed.

(** With the delimiter in the stream, [ReadString] returns the bytes up to
    and including it, whatever the buffer boundaries. *)
Lemma ReadString_line (d : byte) (b : Reader) (pre post : bytes) :
  wf_reader b → cut d (stream b) = Some (pre, post) →
  ∃ b', ReadString d b = Some (str pre, None, b') ∧ wf_reader b' ∧ stream b' = post.
Proof.
  intros Hwf Hcut. unfold ReadString.
  destruct (collectFragments_spec d (S (length (buf b) + length (src b))) [] b Hwf)
    as (b' & Hwf' & Hrec).
  { unfold stream. rewrite length_app. lia. }
  rewrite Hcut in Hrec. destruct Hrec as [-> <-]. by exists b'.
Qed.

(** Without it, [ReadString] returns what is left, and [io.EOF]. *)
Lemma ReadString_end (d : byte) (b : Reader) :
  wf_reader b → cut d (stream b) = None →
  ∃ b', ReadString d b = Some (str (stream b), Some EOF, b') ∧
        wf_reader b' ∧ stream b' = [].
Proof.
  intros Hwf Hcut. unfold ReadString.
  destruct (collectFragments_spec d (S (length (buf b) + length (src b))) [] b Hwf)
    as (b' & Hwf' & Hrec).
  { unfold stream. rewrite length_app. lia. }
  rewrite Hcut in Hrec. destruct Hrec as [-> Hnil]. by exists b'.
Qed.

(** *** [Read] and [ReadAll] *)

Lemma Read_spec (n : nat) (b : Reader) :
  (0 < n < defaultBufSize)%nat → wf_reader b →
  ∃ data e b', Read n b = (data, e, b') ∧ wf_reader b' ∧
    ((e = None ∧ data ≠ [] ∧ stream b = data ++ stream b') ∨
     (e = Some EOF ∧ data = [] ∧ stream b = [] ∧ stream b' = [])).
Proof.
  intros Hn [Hlen Herr]. unfold Read.
  destruct (buf b) as [|c rest] eqn:Hbuf.
  - destruct Herr as [Herr | [Herr Hsrc]]; cycle 1.
    { rewrite Herr. unfold readErr. rewrite Herr, Hbuf, Hsrc.
      eexists _, _, _. split; [done |]. split; [split; simpl; [lia | by left] |].
      right. unfold stream. by rewrite Hbuf, Hsrc. }
    rewrite Herr.
    destruct (Nat.leb_spec defaultBufSize n) as [? | _]; [lia |].
    unfold src_Read. destruct (src b) as [|c s] eqn:Hsrc.
    { eexists _, _, _. split; [done |]. split; [split; simpl; [lia | by left] |].
      right. unfold stream. by rewrite Hbuf, Hsrc. }
    destruct defaultBufSize as [|k] eqn:Hk; [lia |].
    cbn [take]. eexists _, _, _. split; [done |]. split.
    + split; simpl; [|by left].
      rewrite length_drop. pose proof (length_take s k). simpl. lia.
    + left. split; [done |]. split.
      * destruct n; [lia | done].
      * unfold stream. rewrite Hbuf, Hsrc. cbn [buf src app].
        rewrite app_assoc, take_drop.
        change (c :: take k s) with (take (S k) (c :: s)).
        by rewrite take_drop.
  - eexists _, _, _. split; [done |]. split.
    + split; cbn [buf src err]; [|done].
      rewrite length_drop. lia.
    + left. split; [done |]. split.
      * destruct n; [lia | done].
      * unfold stream. rewrite Hbuf. cbn [buf src].
        by rewrite app_assoc, take_drop.
Qed.

Lemma ReadAll_loop_spec (fuel : nat) : ∀ acc b,
  wf_reader b → (length (stream b) < fuel)%nat →
  ReadAll_loop fuel acc b = Some (acc ++ stream b, None).
Proof.
  induction fuel as [|fuel IH]; intros acc b Hwf Hfuel; [lia |].
  destruct (Read_spec 512 b) as (data & e & b' & Hread & Hwf' & Hcase);
    [unfold defaultBufSize; lia | done |].
  cbn [ReadAll_loop]. rewrite Hread.
  destruct Hcase as [(-> & Hne & Hsplit) | (-> & -> & Hnil & _)].
  - rewrite IH; [by rewrite Hsplit, app_assoc | done |].
    rewrite Hsplit, length_app in Hfuel. destruct data; [done | simpl in *; lia].
  - rewrite Hnil. done.
Qed.

(** [ReadAll] returns the whole unread stream. *)
Lemma ReadAll_spec (b : Reader) : wf_reader b → ReadAll b = Some (stream b, None).
Proof.
  intros Hwf. unfold ReadAll. rewrite ReadAll_loop_spec; [done | done |].
  unfold stream. rewrite length_app. lia.
Qed.

End bufio_facts.

(** ** The filesystem *)

Module os_facts.
Import os.

Lemma node_at_insert (m : gmap (list string) node) (k : list string) (n : node) :
  k ≠ [] → node_at (<[k := n]> m) k = Some n.
Proof. intros Hk. destruct k; [done |]. simpl. apply lookup_insert_eq. Qed.

(** A file that was written is read back. *)
Lemma WriteFile_ReadFile (fs fs' : FS) (p : string) (content : bytes) :
  WriteFile fs p content = (fs', None) → ReadFile fs' p = inl content.
Proof.
  unfold WriteFile, ReadFile.
  destruct (string_eqb p ""); [done |].
  assert (Hput : ∀ k, k ≠ [] →
    node_at (nodes {| cwd := cwd fs; nodes := <[k := File content]> (nodes fs) |}) k
    = Some (File content)).
  { intros k Hk. simpl. by apply node_at_insert. }
  destruct (resolve fs p) as [|e k] eqn:Hk; [done |].
  destruct (node_at (nodes fs) (e :: k)) as [[|old]|] eqn:Hnode.
  - done.
  - intros [= <-]. unfold resolve in *. cbn [cwd]. rewrite Hk.
    by rewrite Hput.
  - destruct (node_at (nodes fs) (removelast (e :: k))) as [[|old]|]; [|done..].
    intros [= <-]. unfold resolve in *. cbn [cwd]. rewrite Hk.
    by rewrite Hput.
Qed.

(** [MkdirAll] of a directory that exists changes nothing and reports no
    error, [os.ErrExist] least of all. *)
Lemma MkdirAll_existing (fs : FS) (p : string) :
  Stat fs p = inl true → MkdirAll fs p = (fs, None).
Proof.
  unfold Stat, MkdirAll. destruct (string_eqb p ""); [done |].
  destruct (node_at (nodes fs) (resolve fs p)) as [[|c]|] eqn:Hnode; [|done..].
  intros _.
  assert (Hfrom : MkdirAll_from (rev (resolve fs p)) (nodes fs) = (nodes fs, None)).
  { destruct (rev (resolve fs p)) eqn:Hrev; cbn [MkdirAll_from];
      rewrite <- Hrev, rev_involutive, Hnode; done. }
  rewrite Hfrom. by destruct fs.
Qed.

End os_facts.

(** ** The object store *)

Section StoreFacts.

Context {hash : sha1.Hash} {codec : zlib.Codec}.

Lemma digits_no_byte (n : Z) (d : byte) :
  0 <= n → (nat_of_ascii d < 48 ∨ 57 < nat_of_ascii d)%nat →
  no_byte d (raw (strconv.Itoa n)).
Proof.
  intros Hn Hd. eapply Forall_impl; [by apply strconv_facts.Itoa_digits |].
  intros c Hc. by apply strconv_facts.is_digit_neq.
Qed.

(** Reading a stored, well-framed object gets as far as the constructor
    registered for its kind. *)
Lemma ReadObject_framed (r : Repository) (fs : FS) (sha : bytes)
    (kind : string) (ctor : kind_ctor) (content : bytes) :
  length sha = 20%nat →
  os.ReadFile fs (object_path r (hex.EncodeToString sha))
    = inl (zlib.compress (frame kind content)) →
  no_byte SP (raw kind) →
  objects !! kind = Some ctor →
  len content <= maxInt →
  ReadObject r fs sha =
    match construct ctor content with
    | None => None
    | Some (Err e) => Some (Err (Wrap "deserialize %s object: %w" e))
    | Some other => Some other
    end.
Proof.
  intros Hsha Hfile Hkind Hctor Hlen.
  unfold ReadObject. rewrite Hsha. cbn [Nat.eqb negb].
  rewrite Hfile, zlib.decompress_compress.
  destruct (bufio_facts.ReadString_line SP (bufio.NewReader (frame kind content))
              (raw kind ++ [SP])
              (raw (strconv.Itoa (len content)) ++ [NUL] ++ content))
    as (rd1 & -> & Hwf1 & Hs1).
  { apply bufio_facts.wf_NewReader. }
  { rewrite bufio_facts.stream_NewReader. unfold frame.
    by apply bufio_facts.cut_first. }
  rewrite chop_snoc, str_raw, Hctor.
  destruct (bufio_facts.ReadString_line NUL rd1
              (raw (strconv.Itoa (len content)) ++ [NUL]) content)
    as (rd2 & -> & Hwf2 & Hs2); [done | |].
  { rewrite Hs1. apply bufio_facts.cut_first.
    apply digits_no_byte; [apply len_nonneg | vm_compute; lia]. }
  rewrite chop_snoc, str_raw.
  rewrite strconv_facts.Atoi_Itoa by (split; [apply len_nonneg | done]).
  rewrite bufio_facts.ReadAll_spec by done. rewrite Hs2.
  rewrite Z.eqb_refl. cbn [negb]. done.
Qed.

(** What a successful [WriteObject] leaves behind. *)
Lemma WriteObject_stored (r : Repository) (fs fs' : FS) (kind : string)
    (content sha : bytes) :
  WriteObject r fs kind content = (fs', (sha, None)) →
  sha = sha1.Sum (frame kind content) ∧
  os.ReadFile fs' (object_path r (hex.EncodeToString sha))
    = inl (zlib.compress (frame kind content)).
Proof.
  unfold WriteObject.
  destruct (DirPath r fs true _) as [fs1 [full | e]]; [|done].
  destruct (os.WriteFile fs1 _ _) as [fs2 [e|]] eqn:Hwrite; [done |].
  intros [= <- <-]. split; [done |].
  by apply os_facts.WriteFile_ReadFile in Hwrite.
Qed.

(** C1. Writing a byte sequence as a blob and reading back the returned
    identifier yields the blob holding exactly that byte sequence:
    [readObject(writeObject("blob", p)) == Blob{p}]. *)
Theorem blob_write_read_roundtrip (r : Repository) (fs fs' : FS) (p sha : bytes) :
  len p <= maxInt →
  WriteObject r fs "blob" p = (fs', (sha, None)) →
  ReadObject r fs' sha = Some (Ok (OBlob {| Data := p |})).
Proof.
  intros Hlen Hwrite.
  apply WriteObject_stored in Hwrite as [-> Hfile].
  rewrite (ReadObject_framed r fs' _ "blob" NewBlob p); try done.
  - apply sha1.Sum_length.
  - repeat constructor.
Qed.

(** C2. The identifier returned by [WriteObject] does not depend on the
    state of the store: it is the 20-byte SHA-1 sum of the frame
    [kind ' ' decimal-length NUL payload], and the frame is never the
    payload alone. *)
Theorem WriteObject_identifier_is_frame_hash (r : Repository) (fs1 fs2 : FS)
    (kind : string) (content : bytes) :
  (WriteObject r fs1 kind content).2.1 = (WriteObject r fs2 kind content).2.1 ∧
  (WriteObject r fs1 kind content).2.1 = sha1.Sum (frame kind content) ∧
  length (WriteObject r fs1 kind content).2.1 = 20%nat ∧
  frame kind content
    = raw kind ++ [SP] ++ raw (strconv.Itoa (len content)) ++ [NUL] ++ content ∧
  frame kind content ≠ content.
Proof.
  assert (Hid : ∀ fs, (WriteObject r fs kind content).2.1
                      = sha1.Sum (frame kind content)).
  { intros fs. unfold WriteObject.
    destruct (DirPath r fs true _) as [fs' [full | e]]; [|done].
    by destruct (os.WriteFile fs' _ _) as [fs'' [e|]]. }
  rewrite !Hid. repeat split.
  - apply sha1.Sum_length.
  - intros Heq. apply (f_equal length) in Heq.
    unfold frame in Heq. rewrite !length_app in Heq. simpl in Heq. lia.
Qed.

(** C10. Reading a stored object whose frame carries the kind ["tag"]
    panics: the constructor registered for that kind panics when it is
    called, after the frame has been read and checked. *)
Theorem ReadObject_tag_panics (r : Repository) (fs : FS) (sha content : bytes) :
  length sha = 20%nat →
  len content <= maxInt →
  os.ReadFile fs (object_path r (hex.EncodeToString sha))
    = inl (zlib.compress (frame "tag" content)) →
  ReadObject r fs sha = Some (Panic "todo: tag").
Proof.
  intros Hsha Hlen Hfile.
  rewrite (ReadObject_framed r fs sha "tag" (CtorPanic "todo: tag") content);
    try done.
  repeat constructor.
Qed.

End StoreFacts.

(** Witness of C1: the blob ["hi"] written to a fresh repository. *)
Lemma blob_write_read_roundtrip_witness :
  example.read (example.write example.fresh "blob" (raw "hi")).1
               (example.write example.fresh "blob" (raw "hi")).2.1
  = Some (Ok (OBlob {| Data := raw "hi" |})).
Proof.
  apply (blob_write_read_roundtrip (hash := sha1.fips) (codec := zlib.plain)
           example.repo example.fresh _ (raw "hi") _).
  - vm_compute. discriminate.
  - vm_compute. reflexivity.
Defined.

(** Witness of C10: a tag object written to a fresh repository. *)
Lemma ReadObject_tag_panics_witness :
  example.read (example.write example.fresh "tag" (raw "v1")).1
               (example.write example.fresh "tag" (raw "v1")).2.1
  = Some (Panic "todo: tag").
Proof.
  apply (ReadObject_tag_panics (codec := zlib.plain) example.repo _ _ (raw "v1")).
  - vm_compute. reflexivity.
  - vm_compute. discriminate.
  - vm_compute. reflexivity.
Defined.

(** ** Commit parsing *)

(** C8. The literal cases of commit parsing: the empty input gives an empty
    header and an empty comment; ["foo bar"] without a trailing blank line
    gives the header [{"foo": ["bar"]}] and an empty comment; and at the end
    of the input a pending key with a non-empty buffer is flushed as one
    last header value. *)
Theorem Commit_Deserialize_literal_cases :
  Commit.Deserialize (raw "") = Some (inl {| Header := ∅; Comment := "" |}) ∧
  Commit.Deserialize (raw "foo bar")
    = Some (inl {| Header := {[ "foo" := ["bar"] ]}; Comment := "" |}) ∧
  (∀ header k key c buf,
     Commit.readHeader 1 (bufio.NewReader []) header (String k key) (c :: buf)
     = Some (inl (Commit.append_value header (String k key) (str (c :: buf)),
                  bufio.NewReader []))).
Proof.
  split; [vm_compute; reflexivity |].
  split; [vm_compute; reflexivity |].
  intros header k key c buf. reflexivity.
Qed.

(** ** Tree parsing *)

(** Input that ends inside a mode token is accepted, as an empty tree. *)
Example Tree_Deserialize_accepts_open_mode :
  Tree.Deserialize {| Leafs := [] |} (raw "420") = Some ({| Leafs := [] |}, None).
Proof. vm_compute. reflexivity. Qed.

(** C3 (the code differs). The tree of 137 well-formed leaves does not
    survive serialization and parsing: the call succeeds, and the last leaf
    comes back with 6 bytes of its identifier and 14 zero bytes. *)
Theorem Tree_roundtrip_fails_across_buffer :
  Tree.Deserialize {| Leafs := [] |} (Tree.Serialize tree_example.big).1
    = Some ({| Leafs := map tree_example.leaf (seq 0 136)
                          ++ [tree_example.damaged] |}, None) ∧
  Tree.Deserialize {| Leafs := [] |} (Tree.Serialize tree_example.big).1
    ≠ Some (tree_example.big, None).
Proof. split; [vm_compute; reflexivity | vm_compute; discriminate]. Qed.

(** ** Repository creation *)

(** C4 (the code differs). Creating a repository where [.git] already is a
    directory succeeds, and the existing HEAD is overwritten with the
    default one. *)
Theorem CreateRepository_existing_is_overwritten :
  isDir create_example.existing "/r/.git" = (true, None) ∧
  os.ReadFile create_example.existing "/r/.git/HEAD"
    = inl (raw ("ref: refs/heads/dev" +:+ nl)) ∧
  (CreateRepository create_example.existing "/r").2 = inl example.repo ∧
  os.ReadFile (CreateRepository create_example.existing "/r").1 "/r/.git/HEAD"
    = inl (raw defaultHEAD).
Proof. repeat split; vm_compute; reflexivity. Qed.

(** ** Looking for a repository *)

Module path_facts.
Import path.

Lemma rooted_inv (p : string) :
  rooted p = true → ∃ rest, p = String SLASH rest.
Proof.
  destruct p as [|c rest]; [done |]. simpl.
  intros Hc. apply Ascii.eqb_eq in Hc as ->. by exists rest.
Qed.

Lemma rooted_not_dot (p : string) : rooted p = true → string_eqb p "." = false.
Proof. intros Hp. apply rooted_inv in Hp as [rest ->]. done. Qed.

Lemma rooted_Clean (p : string) : rooted p = true → rooted (Clean p) = true.
Proof. intros Hp. unfold Clean. rewrite Hp. done. Qed.

Lemma rooted_Dir (p : string) : rooted p = true → rooted (Dir p) = true.
Proof.
  intros Hp. apply rooted_inv in Hp as [rest ->].
  unfold Dir. apply rooted_Clean.
  change (raw (String SLASH rest)) with (SLASH :: raw rest).
  cbn [upto_last_slash]. by destruct (upto_last_slash (raw rest)).
Qed.

Lemma rooted_Abs (fs : FS) (p : string) :
  rooted (cwd fs) = true → rooted (filepath.Abs fs p) = true.
Proof.
  intros Hcwd. unfold filepath.Abs.
  destruct (rooted p) eqn:Hp; [by apply rooted_Clean |].
  apply rooted_inv in Hcwd as [rest Hcwd]. rewrite Hcwd.
  unfold Join. rewrite filter_cons_True by done.
  destruct (filter _ [p]) as [|e es]; apply rooted_Clean; done.
Qed.

End path_facts.

(** In [FindRepository] the path is absolute from the start, and the parent
    of an absolute path is absolute: the test [repo == "."] never holds. *)
Lemma FindRepository_loop_stuck (fs : FS) (fuel : nat) : ∀ repo,
  path.rooted repo = true →
  (∀ n, isDir fs (path.Join [Nat.iter n filepath.Dir repo; ".git"]) ≠ (true, None)) →
  FindRepository_loop fuel fs repo = None.
Proof.
  induction fuel as [|fuel IH]; intros repo Hrooted Hnone; [done |].
  cbn [FindRepository_loop]. unfold FindRepository_step.
  pose proof (Hnone 0%nat) as H0. cbn [Nat.iter nat_rect] in H0.
  rewrite (path_facts.rooted_not_dot repo Hrooted).
  assert (Hnext : FindRepository_loop fuel fs (filepath.Dir repo) = None).
  { apply IH; [by apply path_facts.rooted_Dir |].
    intros n. rewrite <- Nat.iter_succ_r. apply Hnone. }
  destruct (isDir fs (path.Join [repo; ".git"])) as [[|] [e|]]; done.
Qed.

(** C5 (the code differs). From a start path none of whose ancestors holds a
    [.git] directory, [FindRepository] returns nothing, whatever the number
    of turns of its loop: it does not fail with NotFound, it goes on asking
    for the parent of the root. *)
Theorem FindRepository_without_repository_never_returns (fs : FS) (start : string) :
  path.rooted (cwd fs) = true →
  (∀ n, isDir fs (path.Join [Nat.iter n filepath.Dir (filepath.Abs fs start); ".git"])
        ≠ (true, None)) →
  ∀ fuel, FindRepository fuel fs start = None.
Proof.
  intros Hcwd Hnone fuel. unfold FindRepository.
  apply FindRepository_loop_stuck; [by apply path_facts.rooted_Abs | done].
Qed.

Lemma find_example_ancestors (n : nat) : Nat.iter (S n) filepath.Dir "/a" = "/".
Proof. induction n as [|n IH]; [done |]. cbn [Nat.iter nat_rect] in *. by rewrite IH. Qed.

(** Witness of C5: the start path [/a] in a filesystem without any [.git];
    a hundred turns of the loop, like any other number, return nothing. *)
Lemma FindRepository_without_repository_never_returns_witness :
  FindRepository 100 find_example.plain "/a" = None.
Proof.
  apply (FindRepository_without_repository_never_returns find_example.plain "/a").
  - reflexivity.
  - intros n. destruct n as [|n].
    + vm_compute. discriminate.
    + change (filepath.Abs find_example.plain "/a") with "/a".
      rewrite find_example_ancestors. vm_compute. discriminate.
Defined.

(** When [.git] is found the repository is opened at that directory. *)
Lemma FindRepository_loop_found (fs : FS) (fuel : nat) (repo : string) :
  isDir fs (path.Join [repo; ".git"]) = (true, None) →
  isDir fs repo = (true, None) →
  FindRepository_loop (S fuel) fs repo
  = Some (inl {| workdir := repo; gitdir := path.Join [repo; ".git"] |}).
Proof.
  intros Hgit Hdir. cbn [FindRepository_loop]. unfold FindRepository_step.
  rewrite Hgit. unfold OpenRepository. by rewrite Hdir.
Qed.

(** ** Ref resolution *)

Module hex_facts.
Import hex.

Lemma Decode_byte (c : ascii) :
  fromHexChar (hexdigit (nat_of_ascii c / 16)) = Some (nat_of_ascii c / 16)%nat ∧
  fromHexChar (hexdigit (nat_of_ascii c mod 16)) = Some (nat_of_ascii c mod 16)%nat ∧
  ascii_of_nat (nat_of_ascii c / 16 * 16 + nat_of_ascii c mod 16) = c ∧
  Ascii.eqb (hexdigit (nat_of_ascii c / 16)) "r" = false.
Proof. destruct c as [[] [] [] [] [] [] [] []]; vm_compute; done. Qed.

(** [DecodeString] is a left inverse of [EncodeToString]. *)
Lemma Decode_Encode (b : bytes) : DecodeString (EncodeToString b) = (b, None).
Proof.
  unfold DecodeString. induction b as [|c b IH]; [done |].
  destruct (Decode_byte c) as (H1 & H2 & H3 & _).
  cbn [EncodeToString raw list_ascii_of_string Decode].
  fold (raw (EncodeToString b)). rewrite H1, H2, IH, H3. done.
Qed.

Lemma not_ref_head (c : ascii) (s : string) :
  Ascii.eqb c "r" = false → String.prefix "ref:" (String c s) = false.
Proof.
  intros Hc. cbn [String.prefix].
  destruct (ascii_dec "r" c) as [<- | _]; [|done].
  by rewrite Ascii.eqb_refl in Hc.
Qed.

Lemma Encode_not_ref (b : bytes) : String.prefix "ref:" (EncodeToString b) = false.
Proof.
  destruct b as [|c b]; [done |].
  destruct (Decode_byte c) as (_ & _ & _ & Hr).
  by apply not_ref_head.
Qed.

Lemma Decode_Encode_newline (b : bytes) :
  DecodeString (EncodeToString b +:+ nl) = (b, Some (InvalidByteError LF)).
Proof.
  unfold DecodeString. rewrite raw_app.
  induction b as [|c b IH]; [done |].
  destruct (Decode_byte c) as (H1 & H2 & H3 & _).
  cbn [EncodeToString raw list_ascii_of_string app Decode].
  fold (raw (EncodeToString b)). rewrite H1, H2, IH, H3. done.
Qed.

Lemma Encode_newline_not_ref (b : bytes) :
  String.prefix "ref:" (EncodeToString b +:+ nl) = false.
Proof.
  destruct b as [|c b]; [done |].
  destruct (Decode_byte c) as (_ & _ & _ & Hr).
  by apply (not_ref_head _ (String _ (EncodeToString b) +:+ nl)).
Qed.

End hex_facts.

(** A ref string that is a bare hexadecimal identifier resolves to the bytes
    of that identifier. *)
Lemma ResolveRef_direct (fuel : nat) (r : Repository) (fs : FS) (id : bytes) :
  ResolveRef (S fuel) r fs (hex.EncodeToString id) = Some (Ok (id, None)).
Proof.
  cbn [ResolveRef]. by rewrite hex_facts.Encode_not_ref, hex_facts.Decode_Encode.
Qed.

(** A ref string that is an identifier followed by a newline comes back
    from the decoder with the bytes of the identifier and an error. *)
Lemma ResolveRef_direct_newline (fuel : nat) (r : Repository) (fs : FS) (id : bytes) :
  ResolveRef (S fuel) r fs (hex.EncodeToString id +:+ nl)
  = Some (Ok (id, Some (InvalidByteError LF))).
Proof.
  cbn [ResolveRef].
  by rewrite hex_facts.Encode_newline_not_ref, hex_facts.Decode_Encode_newline.
Qed.

(** C7 (the code differs). With the ref files as the repository writes them,
    resolution fails.  An identifier followed by a newline comes back from
    the decoder with an error, and a redirection followed by a newline is
    looked up under a file name that ends in the newline.  So the HEAD that
    [CreateRepository] writes does not resolve, and neither does a branch
    file that holds an identifier and a newline. *)
Theorem ResolveRef_fails_on_trailing_newline :
  (∀ fuel r fs id,
     ResolveRef (S fuel) r fs (hex.EncodeToString id +:+ nl)
     = Some (Ok (id, Some (InvalidByteError LF)))) ∧
  (∀ fuel r fs target,
     ResolveRef (S fuel) r fs ("ref: " +:+ target +:+ nl)
     = match os.ReadFile fs (target +:+ nl) with
       | inr e => Some (Err (Wrap "read ref %q: %w" e))
       | inl data => ResolveRef fuel r fs (str data)
       end) ∧
  os.ReadFile ref_example.store "HEAD" = inl (raw defaultHEAD) ∧
  os.ReadFile ref_example.store "refs/heads/master"
    = inl (raw (hex.EncodeToString ref_example.id +:+ nl)) ∧
  (∀ fuel, ResolveRef (S (S fuel)) example.repo ref_example.store "ref: HEAD"
           = Some (Err (Wrap "read ref %q: %w" ErrNotExist))) ∧
  (∀ fuel, ResolveRef (S (S fuel)) example.repo ref_example.store
             "ref: refs/heads/master"
           = Some (Ok (ref_example.id, Some (InvalidByteError LF)))).
Proof.
  split; [intros; apply ResolveRef_direct_newline |].
  split.
  { intros fuel r fs target.
    change ("ref: " +:+ target +:+ nl)
      with (String "r" (String "e" (String "f" (String ":" (String " "
              (target +:+ nl)))))).
    cbn [ResolveRef String.prefix].
    repeat (destruct (ascii_dec _ _) as [_ | Hne]; [|done]).
    cbn [String.length Nat.ltb Nat.leb raw list_ascii_of_string drop].
    fold (raw (target +:+ nl)). by rewrite drop_0, str_raw. }
  split; [vm_compute; reflexivity |].
  split; [vm_compute; reflexivity |].
  split; intros fuel; vm_compute; reflexivity.
Qed.

(** ** Checkout *)

Section Checkout.

Context {codec : zlib.Codec}.

(** C9 (the code differs). An error of the nested checkout of a subtree
    does not reach the caller: when the only leaf of a tree is a subtree
    whose checkout fails, checking out the tree succeeds. *)
Theorem treeCheckout_drops_nested_error (fuel : nat) (r : Repository)
    (fs fs1 fs2 : FS) (leaf : TreeLeaf) (sub : TreeObject) (dir : string)
    (e : error) :
  ReadObject r fs (Sha leaf) = Some (Ok (OTree sub)) →
  os.MkdirAll fs (filepath.Join [dir; Path leaf]) = (fs1, None) →
  treeCheckout fuel r fs1 sub (filepath.Join [dir; Path leaf]) = Some (fs2, Err e) →
  treeCheckout (S fuel) r fs {| Leafs := [leaf] |} dir = Some (fs2, Ok tt).
Proof.
  intros Hread Hmkdir Hnested.
  cbn [treeCheckout Leafs]. rewrite Hread, Hmkdir, Hnested. done.
Qed.

End Checkout.

(** Witness of C9: the nested checkout fails on the missing object and the
    outer checkout returns without an error. *)
Lemma treeCheckout_drops_nested_error_witness :
  checkout_example.checkout 1 example.repo
    (os.MkdirAll checkout_example.store "/out/sub").1
    checkout_example.sub "/out/sub"
  = Some ((os.MkdirAll checkout_example.store "/out/sub").1,
          Err (Wrap "read %x: %w" (Wrap "read object: %w" ErrNotExist))) ∧
  checkout_example.checkout 2 example.repo checkout_example.store
    {| Leafs := [checkout_example.leaf] |} "/out"
  = Some ((os.MkdirAll checkout_example.store "/out/sub").1, Ok tt).
Proof.
  split; [vm_compute; reflexivity |].
  apply (treeCheckout_drops_nested_error (codec := zlib.plain) 1 example.repo
           checkout_example.store
           (os.MkdirAll checkout_example.store "/out/sub").1
           (os.MkdirAll checkout_example.store "/out/sub").1
           checkout_example.leaf checkout_example.sub "/out"
           (Wrap "read %x: %w" (Wrap "read object: %w" ErrNotExist))).
  - vm_compute. reflexivity.
  - vm_compute. reflexivity.
  - vm_compute. reflexivity.
Defined.

(** ** Tree parsing within one buffer, and the errors it does report *)

Module tree_facts.
Import bufio bufio_facts.

Lemma ReadString_buffered (d : byte) (b : Reader) (line rest : bytes) :
  cut d (buf b) = Some (line, rest) →
  ReadString d b
  = Some (str line, None, {| buf := rest; src := src b; err := err b |}).
Proof.
  intros Hcut. unfold ReadString. cbn [collectFragments].
  rewrite (ReadSlice_found 2 d b line rest Hcut). by rewrite app_nil_l.
Qed.

(** The first read of a reader over at most one buffer of data takes all
    of it. *)
Lemma ReadString_fresh (d : byte) (data line rest : bytes) :
  (length data ≤ defaultBufSize)%nat →
  cut d data = Some (line, rest) →
  ReadString d (NewReader data)
  = Some (str line, None, {| buf := rest; src := []; err := None |}).
Proof.
  intros Hlen Hcut. unfold ReadString. cbn [collectFragments].
  rewrite ReadSlice_fill; [| done | done | apply bufsize_pos].
  assert (Hfill : fill (NewReader data) = {| buf := data; src := []; err := None |}).
  { unfold fill, NewReader, src_Read. cbn [buf src length app].
    destruct data as [|c data']; [done |].
    rewrite Nat.sub_0_r, take_ge, drop_ge by done. done. }
  rewrite Hfill.
  rewrite (ReadSlice_found 1 d {| buf := data; src := []; err := None |} line rest Hcut).
  by rewrite app_nil_l.
Qed.

Lemma Read_identifier (sha rest : bytes) :
  length sha = 20%nat →
  Read 20 {| buf := sha ++ rest; src := []; err := None |}
  = (sha, None, {| buf := rest; src := []; err := None |}).
Proof.
  intros Hsha. unfold Read. cbn [buf src err].
  destruct sha as [|c sha']; [done |]. cbn [app].
  change (c :: sha' ++ rest) with ((c :: sha') ++ rest).
  rewrite take_app_length', drop_app_length' by done. done.
Qed.

(** One turn of the loop on an entry that lies in the buffer. *)
Lemma Deserialize_loop_step (fuel : nat) (b : Reader) (acc : list TreeLeaf)
    (leaf : TreeLeaf) (rest : bytes) :
  wf_leaf leaf →
  ReadString SP b
  = Some (str (raw (strconv.Itoa (Mode leaf)) ++ [SP]), None,
          {| buf := raw (Path leaf) ++ [NUL] ++ Sha leaf ++ rest;
             src := []; err := None |}) →
  Tree.Deserialize_loop (S fuel) b acc
  = Tree.Deserialize_loop fuel {| buf := rest; src := []; err := None |}
      (acc ++ [leaf]).
Proof.
  intros (Hmode & Hpath & Hsha) Hread.
  cbn [Tree.Deserialize_loop]. rewrite Hread.
  rewrite chop_snoc, str_raw.
  rewrite strconv_facts.Atoi_Itoa by (unfold maxInt; lia).
  rewrite (ReadString_buffered NUL _ (raw (Path leaf) ++ [NUL]) (Sha leaf ++ rest))
    by by apply cut_first.
  cbn [src err]. rewrite Read_identifier by done.
  rewrite Hsha, chop_snoc, str_raw. cbn [Nat.sub replicate].
  rewrite app_nil_r. unfold Tree.FileMode. rewrite Z.mod_small by done.
  by destruct leaf.
Qed.

Lemma leaf_bytes_cut (leaf : TreeLeaf) (rest : bytes) :
  wf_leaf leaf →
  cut SP (Tree.leaf_bytes leaf ++ rest)
  = Some (raw (strconv.Itoa (Mode leaf)) ++ [SP],
          raw (Path leaf) ++ [NUL] ++ Sha leaf ++ rest).
Proof.
  intros (Hmode & _ & _). unfold Tree.leaf_bytes.
  rewrite <- !app_assoc. cbn [app].
  rewrite cut_first; [done |].
  apply digits_no_byte; [lia | vm_compute; lia].
Qed.

Lemma Deserialize_loop_buffered (ls : list TreeLeaf) : ∀ fuel acc,
  Forall wf_leaf ls → (length ls < fuel)%nat →
  Tree.Deserialize_loop fuel
    {| buf := concat (map Tree.leaf_bytes ls); src := []; err := None |} acc
  = Some (acc ++ ls, None).
Proof.
  induction ls as [|leaf ls IH]; intros fuel acc Hwf Hfuel.
  - destruct fuel as [|fuel]; [simpl in Hfuel; lia |].
    by rewrite app_nil_r.
  - destruct fuel as [|fuel]; [simpl in Hfuel; lia |].
    inversion Hwf as [|? ? Hleaf Hrest]; subst.
    cbn [map concat].
    rewrite (Deserialize_loop_step fuel _ acc leaf (concat (map Tree.leaf_bytes ls)));
      [| done |].
    + rewrite IH by (simpl in Hfuel; done || lia). by rewrite <- app_assoc.
    + apply ReadString_buffered. cbn [buf]. by apply leaf_bytes_cut.
Qed.

Lemma leaf_bytes_length (ls : list TreeLeaf) :
  (length ls ≤ length (concat (map Tree.leaf_bytes ls)))%nat.
Proof.
  induction ls as [|leaf ls IH]; [done |].
  cbn [map concat]. unfold Tree.leaf_bytes at 1.
  rewrite !length_app. simpl. lia.
Qed.

(** A well-formed tree whose serialization fits in the reader's buffer is
    read back as it was written. *)
Lemma Tree_roundtrip_within_buffer (t : TreeObject) :
  Forall wf_leaf (Leafs t) →
  (length (Tree.Serialize t).1 ≤ defaultBufSize)%nat →
  Tree.Deserialize {| Leafs := [] |} (Tree.Serialize t).1 = Some (t, None).
Proof.
  destruct t as [ls]. cbn [Leafs Tree.Serialize fst]. intros Hwf Hlen.
  unfold Tree.Deserialize. cbn [Leafs].
  destruct ls as [|leaf ls]; [done |].
  inversion Hwf as [|? ? Hleaf Hrest]; subst.
  cbn [map concat] in *.
  rewrite (Deserialize_loop_step _ _ [] leaf (concat (map Tree.leaf_bytes ls)));
    [| done |].
  - rewrite Deserialize_loop_buffered; [done | done |].
    pose proof (leaf_bytes_length ls). rewrite length_app.
    unfold Tree.leaf_bytes at 1. rewrite !length_app. simpl. lia.
  - apply ReadString_fresh; [done | by apply leaf_bytes_cut].
Qed.

(** A mode token that is not a number is an error. *)
Lemma Tree_Deserialize_bad_mode (o : TreeObject) (mode : string) (rest : bytes)
    (e : error) :
  no_byte SP (raw mode) → strconv.Atoi mode = inr e →
  Tree.Deserialize o (raw mode ++ [SP] ++ rest)
  = Some (o, Some (Wrap "invalid %q mode value: %w" e)).
Proof.
  intros Hmode Hatoi. unfold Tree.Deserialize. cbn [Tree.Deserialize_loop].
  destruct (ReadString_line SP (NewReader (raw mode ++ [SP] ++ rest))
              (raw mode ++ [SP]) rest) as (b1 & -> & _ & _).
  { apply wf_NewReader. }
  { rewrite stream_NewReader. by apply cut_first. }
  rewrite chop_snoc, str_raw, Hatoi. by destruct o.
Qed.

(** A name that is not closed by a NUL byte is an error. *)
Lemma Tree_Deserialize_open_name (o : TreeObject) (m : Z) (name : bytes) :
  0 <= m <= maxInt → no_byte NUL name →
  Tree.Deserialize o (raw (strconv.Itoa m) ++ [SP] ++ name)
  = Some (o, Some (Wrap "read path: %w" EOF)).
Proof.
  intros Hm Hname. unfold Tree.Deserialize. cbn [Tree.Deserialize_loop].
  destruct (ReadString_line SP (NewReader (raw (strconv.Itoa m) ++ [SP] ++ name))
              (raw (strconv.Itoa m) ++ [SP]) name) as (b1 & -> & Hwf1 & Hs1).
  { apply wf_NewReader. }
  { rewrite stream_NewReader. apply cut_first.
    apply digits_no_byte; [lia | vm_compute; lia]. }
  rewrite chop_snoc, str_raw, strconv_facts.Atoi_Itoa by done.
  destruct (ReadString_end NUL b1 Hwf1) as (b2 & -> & _ & _).
  { rewrite Hs1. by apply cut_none_iff. }
  by destruct o.
Qed.

(** An entry with no byte at all after the name is an error. *)
Lemma Tree_Deserialize_no_identifier (o : TreeObject) (m : Z) (name : bytes) :
  0 <= m <= maxInt → no_byte NUL name →
  Tree.Deserialize o (raw (strconv.Itoa m) ++ [SP] ++ name ++ [NUL])
  = Some (o, Some (Wrap "read sha: %w" EOF)).
Proof.
  intros Hm Hname. unfold Tree.Deserialize. cbn [Tree.Deserialize_loop].
  destruct (ReadString_line SP
              (NewReader (raw (strconv.Itoa m) ++ [SP] ++ name ++ [NUL]))
              (raw (strconv.Itoa m) ++ [SP]) (name ++ [NUL]))
    as (b1 & -> & Hwf1 & Hs1).
  { apply wf_NewReader. }
  { rewrite stream_NewReader. apply cut_first.
    apply digits_no_byte; [lia | vm_compute; lia]. }
  rewrite chop_snoc, str_raw, strconv_facts.Atoi_Itoa by done.
  destruct (ReadString_line NUL b1 (name ++ [NUL]) []) as (b2 & -> & Hwf2 & Hs2);
    [done | |].
  { rewrite Hs1. rewrite <- (app_nil_r (name ++ [NUL])), <- app_assoc.
    by apply cut_first. }
  destruct (Read_spec 20 b2) as (data & e & b3 & -> & _ & Hcase);
    [unfold defaultBufSize; lia | done |].
  destruct Hcase as [(-> & Hne & Hsplit) | (-> & -> & _)].
  - rewrite Hs2 in Hsplit. symmetry in Hsplit.
    apply app_eq_nil in Hsplit as [? _]. done.
  - by destruct o.
Qed.

End tree_facts.

(** C6 (the code differs). When between 1 and 19 bytes follow the name of
    an entry, parsing succeeds: the leaf is accepted with those bytes as
    the start of its identifier and zero bytes after them. *)
Theorem Tree_Deserialize_pads_short_identifier (m : Z) (name : string) (got : bytes) :
  0 <= m < 2 ^ 32 → no_byte NUL (raw name) →
  (0 < length got < 20)%nat →
  (length (raw (strconv.Itoa m) ++ [SP] ++ raw name ++ [NUL] ++ got)
   ≤ bufio.defaultBufSize)%nat →
  Tree.Deserialize {| Leafs := [] |}
    (raw (strconv.Itoa m) ++ [SP] ++ raw name ++ [NUL] ++ got)
  = Some ({| Leafs := [ {| Mode := m; Path := name;
                           Sha := got ++ replicate (20 - length got) NUL |} ] |},
          None).
Proof.
  intros Hm Hname Hgot Hlen. unfold Tree.Deserialize.
  cbn [Leafs Tree.Deserialize_loop].
  rewrite (tree_facts.ReadString_fresh SP _ (raw (strconv.Itoa m) ++ [SP])
             (raw name ++ [NUL] ++ got)); [| done |]; cycle 1.
  { apply bufio_facts.cut_first. apply digits_no_byte; [lia | vm_compute; lia]. }
  rewrite chop_snoc, str_raw.
  rewrite strconv_facts.Atoi_Itoa by (unfold maxInt; lia).
  rewrite (tree_facts.ReadString_buffered NUL _ (raw name ++ [NUL]) got)
    by by apply bufio_facts.cut_first.
  cbn [bufio.src bufio.err]. unfold bufio.Read. cbn [bufio.buf bufio.src bufio.err].
  destruct got as [|c got']; [simpl in Hgot; lia |].
  rewrite take_ge, drop_ge by lia.
  rewrite chop_snoc, str_raw. unfold Tree.FileMode. rewrite Z.mod_small by done.
  destruct (length (raw (strconv.Itoa m) ++ [SP] ++ raw name ++ [NUL] ++ c :: got'))
    as [|fuel] eqn:Hfuel; [|reflexivity].
  rewrite !length_app in Hfuel. simpl in Hfuel. lia.
Qed.

(** Witness of C6: the entry ["420 a"], a NUL byte, and the three bytes
    ["xyz"]. *)
Lemma Tree_Deserialize_pads_short_identifier_witness :
  Tree.Deserialize {| Leafs := [] |} tree_example.short_sha
  = Some ({| Leafs := [ {| Mode := 420; Path := "a";
                           Sha := raw "xyz" ++ replicate 17 NUL |} ] |}, None).
Proof.
  apply (Tree_Deserialize_pads_short_identifier 420 "a" (raw "xyz")).
  - lia.
  - repeat constructor.
  - simpl. lia.
  - unfold bufio.defaultBufSize. simpl. lia.
Defined.

(** ** The parsers return on every input *)

Module totality.
Import bufio bufio_facts.

Lemma ReadByte_spec (b : Reader) :
  wf_reader b →
  ∃ c e b', ReadByte b = Some (c, e, b') ∧ wf_reader b' ∧
    ((e = None ∧ stream b = c :: stream b') ∨
     (e = Some EOF ∧ stream b = [] ∧ stream b' = [])).
Proof.
  intros [Hlen Herr]. unfold ReadByte. cbn [ReadByte_loop].
  destruct (buf b) as [|c rest] eqn:Hbuf.
  - destruct Herr as [Herr | [Herr Hsrc]]; cycle 1.
    { rewrite Herr. unfold readErr. rewrite Herr, Hbuf, Hsrc.
      eexists _, _, _. split; [done |]. split; [split; simpl; [lia | by left] |].
      right. unfold stream. by rewrite Hbuf, Hsrc. }
    rewrite Herr. destruct (src b) as [|c s] eqn:Hsrc.
    + rewrite fill_eof by done. rewrite Hbuf. cbn [buf err readErr].
      eexists _, _, _. split; [done |]. split; [split; simpl; [lia | by left] |].
      right. unfold stream. by rewrite Hbuf, Hsrc.
    + destruct (fill_data b) as (data & rest & -> & Hsplit & Hdata & Hle & _).
      { by rewrite Hsrc. }
      { rewrite Hbuf. apply bufsize_pos. }
      rewrite Hbuf in *. cbn [app buf src err] in *.
      destruct data as [|c' data']; [done |].
      eexists _, _, _. split; [done |]. split.
      * split; cbn [buf err]; [simpl in Hle; lia | by left].
      * left. split; [done |]. unfold stream. rewrite Hbuf, Hsplit. done.
  - eexists _, _, _. split; [done |]. split.
    + split; cbn [buf err]; [simpl in Hlen; lia | done].
    + left. split; [done |]. unfold stream. by rewrite Hbuf.
Qed.

Lemma Peek1_spec (b : Reader) :
  wf_reader b →
  ∃ p e b', Peek1 b = Some (p, e, b') ∧ wf_reader b' ∧ stream b' = stream b.
Proof.
  intros [Hlen Herr]. unfold Peek1. cbn [Peek1_fill].
  destruct (buf b) as [|c rest] eqn:Hbuf.
  - destruct Herr as [Herr | [Herr Hsrc]]; cycle 1.
    { rewrite Herr, Hbuf. unfold readErr. rewrite Herr, Hbuf, Hsrc.
      eexists _, _, _. split; [done |]. split; [split; simpl; [lia | by left] |].
      unfold stream. by rewrite Hbuf, Hsrc. }
    rewrite Herr. destruct (src b) as [|c s] eqn:Hsrc.
    + rewrite fill_eof by done. rewrite Hbuf. cbn [buf err readErr].
      eexists _, _, _. split; [done |]. split; [split; simpl; [lia | by left] |].
      unfold stream. by rewrite Hbuf, Hsrc.
    + destruct (fill_data b) as (data & rest & -> & Hsplit & Hdata & Hle & _).
      { by rewrite Hsrc. }
      { rewrite Hbuf. apply bufsize_pos. }
      rewrite Hbuf in *. cbn [app buf src err] in *.
      destruct data as [|c' data']; [done |].
      eexists _, _, _. split; [done |]. split.
      * split; cbn [buf err]; [done | by left].
      * unfold stream. rewrite Hbuf, Hsplit. done.
  - rewrite Hbuf. eexists _, _, _. split; [done |]. split.
    + split; [by rewrite Hbuf | done].
    + done.
Qed.

(** The header loop ends within one turn per byte, and leaves a reader from
    which the comment can be read. *)
Lemma readHeader_returns (fuel : nat) : ∀ rd header key buf,
  wf_reader rd → (length (stream rd) < fuel)%nat →
  ∃ header' rd', Commit.readHeader fuel rd header key buf = Some (inl (header', rd'))
                 ∧ wf_reader rd'.
Proof.
  induction fuel as [|fuel IH]; intros rd header key buf Hwf Hfuel; [lia |].
  cbn [Commit.readHeader].
  destruct (ReadByte_spec rd Hwf) as (c & e & rd1 & -> & Hwf1 & Hcase).
  destruct Hcase as [(-> & Hs) | (-> & Hs & _)]; cycle 1.
  { cbn [is_EOF root_cause].
    destruct (negb (string_eqb key "") && negb (length buf =? 0)%nat); eauto. }
  assert (Hlt1 : (length (stream rd1) < fuel)%nat).
  { rewrite Hs in Hfuel. simpl in Hfuel. lia. }
  destruct (Ascii.eqb c SP).
  { destruct (string_eqb key ""); by apply IH. }
  destruct (Ascii.eqb c LF); [|by apply IH].
  destruct (Peek1_spec rd1 Hwf1) as (p & e & rd2 & -> & Hwf2 & Hs2).
  assert (Hlt2 : (length (stream rd2) < fuel)%nat) by by rewrite Hs2.
  destruct e as [e|]; [by apply IH |].
  destruct p as [|n p]; [by apply IH |].
  destruct (Ascii.eqb n LF); [|by apply IH].
  destruct (ReadByte_spec rd2 Hwf2) as (c3 & e3 & rd3 & -> & Hwf3 & _).
  eauto.
Qed.

(** [CommitObject.Deserialize] returns an object for every input. *)
Lemma Commit_Deserialize_returns (data : bytes) :
  ∃ o, Commit.Deserialize data = Some (inl o).
Proof.
  unfold Commit.Deserialize.
  destruct (readHeader_returns (S (length data)) (NewReader data) ∅ "" [])
    as (header & rd & -> & Hwf).
  { apply wf_NewReader. }
  { rewrite stream_NewReader. lia. }
  rewrite ReadAll_spec by done. eauto.
Qed.

(** The tree loop ends within one turn per byte. *)
Lemma Deserialize_loop_returns (fuel : nat) : ∀ rd leafs,
  wf_reader rd → (length (stream rd) < fuel)%nat →
  ∃ r, Tree.Deserialize_loop fuel rd leafs = Some r.
Proof.
  induction fuel as [|fuel IH]; intros rd leafs Hwf Hfuel; [lia |].
  cbn [Tree.Deserialize_loop].
  destruct (cut SP (stream rd)) as [[mode rest]|] eqn:Hmode; cycle 1.
  { destruct (ReadString_end SP rd Hwf Hmode) as (rd1 & -> & _ & _).
    cbn [is_EOF root_cause]. eauto. }
  destruct (ReadString_line SP rd mode rest Hwf Hmode) as (rd1 & -> & Hwf1 & Hs1).
  destruct (strconv.Atoi (chop (str mode))) as [n | e]; [|eauto].
  destruct (cut NUL (stream rd1)) as [[name rest2]|] eqn:Hname; cycle 1.
  { destruct (ReadString_end NUL rd1 Hwf1 Hname) as (rd2 & -> & _ & _). eauto. }
  destruct (ReadString_line NUL rd1 name rest2 Hwf1 Hname) as (rd2 & -> & Hwf2 & Hs2).
  destruct (Read_spec 20 rd2) as (got & e & rd3 & -> & Hwf3 & Hcase);
    [unfold defaultBufSize; lia | done |].
  destruct Hcase as [(-> & _ & Hs3) | (-> & _)]; [|eauto].
  apply IH; [done |].
  pose proof (cut_nonempty _ _ _ _ Hmode) as Hne.
  apply cut_app in Hmode, Hname.
  assert (Hlen : length (stream rd) = length (mode ++ name ++ got ++ stream rd3)).
  { rewrite Hmode, <- Hs1, Hname, <- Hs2, Hs3. done. }
  rewrite Hlen, !length_app in Hfuel.
  destruct mode; [done | simpl in Hfuel; lia].
Qed.

(** [TreeObject.Deserialize] returns for every input. *)
Lemma Tree_Deserialize_returns (o : TreeObject) (data : bytes) :
  ∃ r, Tree.Deserialize o data = Some r.
Proof.
  unfold Tree.Deserialize.
  destruct (Deserialize_loop_returns (S (length data)) (NewReader data) (Leafs o))
    as ([leafs e] & ->).
  { apply wf_NewReader. }
  { rewrite stream_NewReader. lia. }
  eauto.
Qed.

End totality.

(** * Further properties of the code *)

(** ** The tree codec *)

(** Parsing the serialization of a well-formed tree that fits in the
    reader's buffer appends exactly its leaves, in order, to the leaves the
    receiver already holds, and reports no error. *)
Theorem Tree_Deserialize_appends_serialized (o t : TreeObject) :
  Forall wf_leaf (Leafs t) →
  (length (Tree.Serialize t).1 ≤ bufio.defaultBufSize)%nat →
  Tree.Deserialize o (Tree.Serialize t).1
  = Some ({| Leafs := Leafs o ++ Leafs t |}, None).
Proof.
  destruct t as [ls]. cbn [Leafs Tree.Serialize fst]. intros Hwf Hlen.
  unfold Tree.Deserialize.
  destruct ls as [|leaf ls].
  { cbn [map concat length]. by rewrite app_nil_r. }
  inversion Hwf as [|? ? Hleaf Hrest]; subst.
  cbn [map concat] in *.
  rewrite (tree_facts.Deserialize_loop_step _ _ (Leafs o) leaf
             (concat (map Tree.leaf_bytes ls))); [| done |].
  - rewrite tree_facts.Deserialize_loop_buffered; [by rewrite <- app_assoc | done |].
    pose proof (tree_facts.leaf_bytes_length ls). rewrite length_app.
    unfold Tree.leaf_bytes at 1. rewrite !length_app. simpl. lia.
  - apply tree_facts.ReadString_fresh; [done | by apply tree_facts.leaf_bytes_cut].
Qed.

(** The entries of a directory with a file and a subdirectory. *)
Lemma Tree_Deserialize_appends_serialized_witness :
  Tree.Deserialize {| Leafs := [tree_example.leaf 0] |}
    (Tree.Serialize {| Leafs := [checkout_example.leaf; tree_example.leaf 1] |}).1
  = Some ({| Leafs := [tree_example.leaf 0; checkout_example.leaf;
                       tree_example.leaf 1] |}, None).
Proof.
  apply (Tree_Deserialize_appends_serialized {| Leafs := [tree_example.leaf 0] |}
           {| Leafs := [checkout_example.leaf; tree_example.leaf 1] |}).
  - repeat constructor; vm_compute; congruence.
  - vm_compute. repeat constructor.
Defined.

(** Helpers: the loop on a reader that holds all of its input. *)
Lemma ReadString_window (d : byte) (data s : bytes) (e : option error)
    (line rest : bytes) :
  bufio.cut d data = Some (line, rest) →
  bufio.ReadString d {| bufio.buf := data; bufio.src := s; bufio.err := e |}
  = Some (str line, None, {| bufio.buf := rest; bufio.src := s; bufio.err := e |}).
Proof. intros Hcut. by apply tree_facts.ReadString_buffered. Qed.

Lemma Deserialize_loop_fresh (fuel : nat) (data line rest : bytes)
    (acc : list TreeLeaf) :
  (length data ≤ bufio.defaultBufSize)%nat →
  bufio.cut SP data = Some (line, rest) →
  Tree.Deserialize_loop fuel (bufio.NewReader data) acc
  = Tree.Deserialize_loop fuel {| bufio.buf := data; bufio.src := []; bufio.err := None |} acc.
Proof.
  intros Hlen Hcut. destruct fuel as [|fuel]; [done |].
  cbn [Tree.Deserialize_loop].
  rewrite (tree_facts.ReadString_fresh SP data line rest Hlen Hcut).
  by rewrite (ReadString_window SP data [] None line rest Hcut).
Qed.

Lemma Deserialize_loop_prefix (ls : list TreeLeaf) : ∀ fuel acc tail,
  Forall wf_leaf ls →
  Tree.Deserialize_loop (length ls + fuel)
    {| bufio.buf := concat (map Tree.leaf_bytes ls) ++ tail;
       bufio.src := []; bufio.err := None |} acc
  = Tree.Deserialize_loop fuel
      {| bufio.buf := tail; bufio.src := []; bufio.err := None |} (acc ++ ls).
Proof.
  induction ls as [|leaf ls IH]; intros fuel acc tail Hwf.
  - by rewrite app_nil_r.
  - inversion Hwf as [|? ? Hleaf Hrest]; subst.
    cbn [map concat length Nat.add]. rewrite <- app_assoc.
    rewrite (tree_facts.Deserialize_loop_step _ _ acc leaf
               (concat (map Tree.leaf_bytes ls) ++ tail)); [| done |].
    + rewrite IH by done. by rewrite <- app_assoc.
    + apply tree_facts.ReadString_buffered. cbn [bufio.buf].
      by apply tree_facts.leaf_bytes_cut.
Qed.

(** The serialized leaves followed by [tail], read from the start: the
    leaves are appended and the loop goes on with [tail] in the buffer. *)
Lemma Deserialize_after_leaves (o : TreeObject) (ls : list TreeLeaf)
    (tail line rest : bytes) :
  Forall wf_leaf ls →
  bufio.cut SP tail = Some (line, rest) →
  (length (concat (map Tree.leaf_bytes ls) ++ tail) ≤ bufio.defaultBufSize)%nat →
  ∃ fuel,
    Tree.Deserialize o (concat (map Tree.leaf_bytes ls) ++ tail)
    = match Tree.Deserialize_loop (S fuel)
              {| bufio.buf := tail; bufio.src := []; bufio.err := None |}
              (Leafs o ++ ls) with
      | None => None
      | Some (leafs, e) => Some ({| Leafs := leafs |}, e)
      end.
Proof.
  intros Hwf Hcut Hlen. unfold Tree.Deserialize.
  set (data := concat (map Tree.leaf_bytes ls) ++ tail) in *.
  assert (Hcut' : ∃ line' rest', bufio.cut SP data = Some (line', rest')).
  { subst data. destruct ls as [|leaf ls]; [by eauto |].
    inversion Hwf; subst. cbn [map concat]. rewrite <- app_assoc.
    rewrite tree_facts.leaf_bytes_cut by done. eauto. }
  destruct Hcut' as (line' & rest' & Hcut').
  rewrite (Deserialize_loop_fresh _ data line' rest') by done.
  pose proof (tree_facts.leaf_bytes_length ls) as Hls.
  assert (Htail : (0 < length tail)%nat).
  { pose proof (bufio_facts.cut_nonempty _ _ _ _ Hcut) as Hne.
    apply bufio_facts.cut_app in Hcut.
    subst tail. rewrite length_app. destruct line; [done | simpl; lia]. }
  exists (length data - length ls)%nat.
  replace (S (length data)) with (length ls + S (length data - length ls))%nat.
  - subst data. by rewrite Deserialize_loop_prefix.
  - subst data. rewrite length_app. lia.
Qed.

(** Well-formed leaves followed by an entry whose mode token is not a
    number (all within one buffer): parsing fails on that entry, and the
    leaves before it have been appended to the receiver. *)
Theorem Tree_Deserialize_bad_mode_after_leaves (o : TreeObject)
    (good : list TreeLeaf) (mode : string) (rest : bytes) (e : error) :
  Forall wf_leaf good →
  no_byte SP (raw mode) → strconv.Atoi mode = inr e →
  (length (concat (map Tree.leaf_bytes good) ++ raw mode ++ [SP] ++ rest)
   ≤ bufio.defaultBufSize)%nat →
  Tree.Deserialize o (concat (map Tree.leaf_bytes good) ++ raw mode ++ [SP] ++ rest)
  = Some ({| Leafs := Leafs o ++ good |},
          Some (Wrap "invalid %q mode value: %w" e)).
Proof.
  intros Hwf Hmode Hatoi Hlen.
  assert (Hcut : bufio.cut SP (raw mode ++ [SP] ++ rest) = Some (raw mode ++ [SP], rest))
    by by apply bufio_facts.cut_first.
  destruct (Deserialize_after_leaves o good _ _ _ Hwf Hcut Hlen) as [fuel ->].
  cbn [Tree.Deserialize_loop].
  rewrite (ReadString_window SP _ _ _ _ _ Hcut).
  by rewrite chop_snoc, str_raw, Hatoi.
Qed.

(** The mode token ["rw-"] after one good entry. *)
Lemma Tree_Deserialize_bad_mode_after_leaves_witness :
  Tree.Deserialize {| Leafs := [] |}
    (concat (map Tree.leaf_bytes [tree_example.leaf 0]) ++ raw "rw-" ++ [SP] ++ raw "a")
  = Some ({| Leafs := [] ++ [tree_example.leaf 0] |},
          Some (Wrap "invalid %q mode value: %w" ErrSyntax)).
Proof.
  apply (Tree_Deserialize_bad_mode_after_leaves {| Leafs := [] |}
           [tree_example.leaf 0] "rw-" (raw "a") ErrSyntax).
  - repeat constructor; vm_compute; congruence.
  - repeat constructor.
  - reflexivity.
  - vm_compute. repeat constructor.
Defined.





(** ** The commit parser *)

Module commit_facts.
Import bufio bufio_facts.

Lemma ReadByte_next (b : Reader) (c : byte) (rest : bytes) :
  wf_reader b → stream b = c :: rest →
  ∃ b', ReadByte b = Some (c, None, b') ∧ wf_reader b' ∧ stream b' = rest.
Proof.
  intros Hwf Hs.
  destruct (totality.ReadByte_spec b Hwf) as (c' & e & b' & Hread & Hwf' & Hcase).
  destruct Hcase as [(-> & Hs') | (-> & Hs' & _)]; [|congruence].
  rewrite Hs in Hs'. injection Hs' as -> ->. eauto.
Qed.

Lemma Peek1_next (b : Reader) (c : byte) (rest : bytes) :
  wf_reader b → stream b = c :: rest →
  ∃ b', Peek1 b = Some ([c], None, b') ∧ wf_reader b' ∧ stream b' = c :: rest.
Proof.
  intros [Hlen Herr] Hs. unfold Peek1. cbn [Peek1_fill].
  destruct (buf b) as [|c0 rest0] eqn:Hbuf.
  - destruct Herr as [Herr | [Herr Hsrc]]; cycle 1.
    { unfold stream in Hs. by rewrite Hbuf, Hsrc in Hs. }
    rewrite Herr. destruct (src b) as [|c1 s] eqn:Hsrc.
    { unfold stream in Hs. by rewrite Hbuf, Hsrc in Hs. }
    destruct (fill_data b) as (data & rest1 & -> & Hsplit & Hdata & Hle & _).
    { by rewrite Hsrc. }
    { rewrite Hbuf. apply bufsize_pos. }
    rewrite Hbuf in *. cbn [app buf src err] in *.
    destruct data as [|c' data']; [done |].
    unfold stream in Hs. rewrite Hbuf, Hsplit in Hs. cbn [app] in Hs.
    injection Hs as -> <-.
    eexists. split; [done |]. split.
    + split; cbn [buf err]; [done | by left].
    + done.
  - rewrite Hbuf. unfold stream in Hs. rewrite Hbuf in Hs. cbn [app] in Hs.
    injection Hs as -> <-.
    eexists. split; [done |]. split.
    + split; [by rewrite Hbuf | done].
    + unfold stream. by rewrite Hbuf.
Qed.

(** Bytes that are neither a newline nor, before the key is known, a space
    go to the buffer. *)
Lemma readHeader_chars (chars : bytes) : ∀ fuel rd header key buf rest,
  wf_reader rd → stream rd = chars ++ rest →
  (length (stream rd) < fuel)%nat →
  no_byte LF chars → (key ≠ "" ∨ no_byte SP chars) →
  ∃ rd' fuel',
    wf_reader rd' ∧ stream rd' = rest ∧ (length rest < fuel')%nat ∧
    Commit.readHeader fuel rd header key buf
    = Commit.readHeader fuel' rd' header key (buf ++ chars).
Proof.
  induction chars as [|c chars IH]; intros fuel rd header key buf rest
    Hwf Hs Hfuel Hlf Hsp.
  - exists rd, fuel. rewrite app_nil_r. rewrite Hs in Hfuel. done.
  - destruct fuel as [|fuel]; [lia |].
    destruct (ReadByte_next rd c (chars ++ rest) Hwf Hs) as (rd1 & Hread & Hwf1 & Hs1).
    inversion Hlf as [|? ? Hc Hlf']; subst.
    assert (Hstep : Commit.readHeader (S fuel) rd header key buf
                    = Commit.readHeader fuel rd1 header key (buf ++ [c])).
    { cbn [Commit.readHeader]. rewrite Hread.
      destruct (Ascii.eqb c SP) eqn:Hcsp.
      - destruct Hsp as [Hkey | Hsp].
        + assert (string_eqb key "" = false) as -> by by apply String.eqb_neq.
          done.
        + inversion Hsp; congruence.
      - by rewrite Hc. }
    rewrite Hstep.
    destruct (IH fuel rd1 header key (buf ++ [c]) rest Hwf1 Hs1) as
      (rd' & fuel' & Hwf' & Hs' & Hfuel' & Heq).
    { rewrite Hs1. rewrite Hs in Hfuel. simpl in Hfuel. lia. }
    { done. }
    { destruct Hsp as [? | Hsp]; [by left | right; by inversion Hsp]. }
    exists rd', fuel'. rewrite Heq, <- app_assoc. done.
Qed.

(** One header line up to, and not including, its newline. *)
Lemma readHeader_line (kv : string * string) (fuel : nat) (rd : Reader)
    (header : gmap string (list string)) (rest : bytes) :
  header_line kv →
  wf_reader rd → stream rd = raw kv.1 ++ [SP] ++ raw kv.2 ++ rest →
  (length (stream rd) < fuel)%nat →
  ∃ rd' fuel',
    wf_reader rd' ∧ stream rd' = rest ∧ (length rest < fuel')%nat ∧
    Commit.readHeader fuel rd header "" []
    = Commit.readHeader fuel' rd' header kv.1 (raw kv.2).
Proof.
  destruct kv as [k v]. cbn [fst snd]. intros [(Hk & Hksp & Hklf) Hv] Hwf Hs Hfuel.
  destruct (readHeader_chars (raw k) fuel rd header "" [] ([SP] ++ raw v ++ rest))
    as (rd1 & fuel1 & Hwf1 & Hs1 & Hfuel1 & ->); [done.. | by right |].
  cbn [app] in *.
  destruct fuel1 as [|fuel1]; [simpl in Hfuel1; lia |].
  destruct (ReadByte_next rd1 SP (raw v ++ rest) Hwf1 Hs1) as (rd2 & Hread & Hwf2 & Hs2).
  cbn [Commit.readHeader]. rewrite Hread.
  change (Ascii.eqb SP SP) with true. change (string_eqb "" "") with true.
  cbv iota. rewrite str_raw.
  destruct (readHeader_chars (raw v) fuel1 rd2 header k [] rest)
    as (rd3 & fuel3 & Hwf3 & Hs3 & Hfuel3 & ->); try done.
  - rewrite Hs2. simpl in Hfuel1. lia.
  - by left.
  - by exists rd3, fuel3.
Qed.

(** The newline that ends a header line, when another line follows. *)
Lemma readHeader_newline (fuel : nat) (rd : Reader)
    (header : gmap string (list string)) (key : string) (buf : bytes)
    (c : byte) (rest : bytes) :
  wf_reader rd → stream rd = LF :: c :: rest → Ascii.eqb c LF = false →
  (length (stream rd) < fuel)%nat →
  ∃ rd' fuel',
    wf_reader rd' ∧ stream rd' = c :: rest ∧ (length (c :: rest) < fuel')%nat ∧
    Commit.readHeader fuel rd header key buf
    = Commit.readHeader fuel' rd' (Commit.append_value header key (str buf)) "" [].
Proof.
  intros Hwf Hs Hc Hfuel.
  destruct fuel as [|fuel]; [lia |].
  destruct (ReadByte_next rd LF (c :: rest) Hwf Hs) as (rd1 & Hread & Hwf1 & Hs1).
  destruct (Peek1_next rd1 c rest Hwf1 Hs1) as (rd2 & Hpeek & Hwf2 & Hs2).
  exists rd2, fuel. split; [done |]. split; [done |]. split.
  { rewrite Hs in Hfuel. simpl in *. lia. }
  cbn [Commit.readHeader]. rewrite Hread.
  change (Ascii.eqb LF SP) with false. change (Ascii.eqb LF LF) with true.
  cbv iota. rewrite Hpeek. by rewrite Hc.
Qed.

(** The blank line that ends the header. *)
Lemma readHeader_blank (fuel : nat) (rd : Reader)
    (header : gmap string (list string)) (key : string) (buf : bytes)
    (rest : bytes) :
  wf_reader rd → stream rd = LF :: LF :: rest →
  (length (stream rd) < fuel)%nat →
  ∃ rd',
    wf_reader rd' ∧ stream rd' = rest ∧
    Commit.readHeader fuel rd header key buf
    = Some (inl (Commit.append_value header key (str buf), rd')).
Proof.
  intros Hwf Hs Hfuel.
  destruct fuel as [|fuel]; [lia |].
  destruct (ReadByte_next rd LF (LF :: rest) Hwf Hs) as (rd1 & Hread & Hwf1 & Hs1).
  destruct (Peek1_next rd1 LF rest Hwf1 Hs1) as (rd2 & Hpeek & Hwf2 & Hs2).
  destruct (ReadByte_next rd2 LF rest Hwf2 Hs2) as (rd3 & Hread3 & Hwf3 & Hs3).
  exists rd3. split; [done |]. split; [done |].
  cbn [Commit.readHeader]. rewrite Hread.
  change (Ascii.eqb LF SP) with false. change (Ascii.eqb LF LF) with true.
  cbv iota. rewrite Hpeek. change (Ascii.eqb LF LF) with true. cbv iota.
  by rewrite Hread3.
Qed.

Lemma header_key_first (k : string) :
  header_key k → ∃ c rest, raw k = c :: rest ∧ Ascii.eqb c LF = false.
Proof.
  intros (Hne & _ & Hlf). destruct k as [|c k]; [done |].
  exists c, (raw k). split; [done |]. by inversion Hlf.
Qed.

(** The header lines and the blank line after them. *)
Lemma readHeader_lines (lines : list (string * string)) :
  ∀ kv fuel rd header comment,
  Forall header_line (kv :: lines) →
  wf_reader rd →
  stream rd = concat (map line_bytes (kv :: lines)) ++ [LF] ++ comment →
  (length (stream rd) < fuel)%nat →
  ∃ rd',
    wf_reader rd' ∧ stream rd' = comment ∧
    Commit.readHeader fuel rd header "" []
    = Some (inl (foldl (λ h kv, Commit.append_value h kv.1 kv.2) header (kv :: lines),
                 rd')).
Proof.
  induction lines as [|kv' lines IH]; intros kv fuel rd header comment Hall Hwf Hs Hfuel;
    inversion Hall as [|? ? Hkv Hrest]; subst.
  - cbn [map concat] in Hs. rewrite app_nil_r in Hs. unfold line_bytes in Hs.
    rewrite <- !app_assoc in Hs.
    destruct (readHeader_line kv fuel rd header ([LF] ++ [LF] ++ comment) Hkv Hwf)
      as (rd1 & fuel1 & Hwf1 & Hs1 & Hfuel1 & ->); [done | done |].
    destruct (readHeader_blank fuel1 rd1 header kv.1 (raw kv.2) comment Hwf1 Hs1)
      as (rd2 & Hwf2 & Hs2 & ->); [by rewrite Hs1 |].
    exists rd2. by rewrite str_raw.
  - change (concat (map line_bytes (kv :: kv' :: lines)))
      with (line_bytes kv ++ concat (map line_bytes (kv' :: lines))) in Hs.
    unfold line_bytes at 1 in Hs. rewrite <- !app_assoc in Hs.
    inversion Hrest as [|? ? Hkv' _]; subst.
    destruct (header_key_first kv'.1 (proj1 Hkv')) as (c & krest & Hk & Hc).
    set (tail := concat (map line_bytes (kv' :: lines)) ++ [LF] ++ comment) in *.
    assert (Htail : ∃ rest, tail = c :: rest).
    { subst tail. cbn [map concat]. unfold line_bytes at 1.
      rewrite Hk. cbn [app]. eauto. }
    destruct Htail as [rest Htail].
    destruct (readHeader_line kv fuel rd header ([LF] ++ tail) Hkv Hwf)
      as (rd1 & fuel1 & Hwf1 & Hs1 & Hfuel1 & ->); [done | done |].
    rewrite Htail in Hs1, Hfuel1. cbn [app] in Hs1, Hfuel1.
    destruct (readHeader_newline fuel1 rd1 header kv.1 (raw kv.2) c rest Hwf1 Hs1 Hc)
      as (rd2 & fuel2 & Hwf2 & Hs2 & Hfuel2 & ->); [by rewrite Hs1 |].
    rewrite str_raw. rewrite <- Htail in Hs2, Hfuel2.
    destruct (IH kv' fuel2 rd2 (Commit.append_value header kv.1 kv.2) comment
                Hrest Hwf2 Hs2) as (rd3 & Hwf3 & Hs3 & ->); [by rewrite Hs2 |].
    exists rd3. done.
Qed.

Lemma Deserialize_commit_bytes (kv : string * string)
    (lines : list (string * string)) (comment : string) :
  Forall header_line (kv :: lines) →
  Commit.Deserialize (commit_bytes (kv :: lines) comment)
  = Some (inl {| Header := header_of (kv :: lines); Comment := comment |}).
Proof.
  intros Hall. unfold Commit.Deserialize.
  destruct (readHeader_lines lines kv
              (S (length (commit_bytes (kv :: lines) comment)))
              (NewReader (commit_bytes (kv :: lines) comment)) ∅ (raw comment)
              Hall) as (rd & Hwf & Hs & ->).
  - apply wf_NewReader.
  - done.
  - rewrite stream_NewReader. lia.
  - rewrite ReadAll_spec by done. by rewrite Hs, str_raw.
Qed.

End commit_facts.

(** A commit made of header lines, a blank line and a comment is parsed
    into the multimap of its lines, every value under its key in the order
    of the lines (so repeated keys such as [parent] keep their order), and
    the comment as it is. *)
Theorem Commit_Deserialize_well_formed (kv : string * string)
    (lines : list (string * string)) (comment : string) :
  Forall header_line (kv :: lines) →
  Commit.Deserialize (commit_bytes (kv :: lines) comment)
  = Some (inl {| Header := header_of (kv :: lines); Comment := comment |}).
Proof. apply commit_facts.Deserialize_commit_bytes. Qed.

(** The commit of the repository's own test, with a second parent. *)
Lemma Commit_Deserialize_well_formed_witness :
  Commit.Deserialize (raw commit_example.text)
  = Some (inl {| Header := header_of commit_example.lines;
                 Comment := "A commit message" |}).
Proof.
  apply (Commit_Deserialize_well_formed
           ("tree", "c7aebf0cbe2b1a70501c7b7e1e28faceaba77541")
           (tl commit_example.lines) "A commit message").
  repeat constructor; discriminate.
Defined.

(** Parsing a commit never reports an error: every byte sequence is taken
    as some header and comment. *)
Theorem Commit_Deserialize_never_fails (data : bytes) :
  ∃ o, Commit.Deserialize data = Some (inl o).
Proof. apply totality.Commit_Deserialize_returns. Qed.

(** ** The object store: codecs through the store, and corrupt frames *)

Module store_facts.
Import os.

(** A successful [MkdirAll] leaves a directory at its path. *)
Lemma MkdirAll_from_dir (rk : list string) (m m' : gmap (list string) node) :
  MkdirAll_from rk m = (m', None) → node_at m' (rev rk) = Some Dir.
Proof.
  destruct rk as [|x rparent]; cbn [MkdirAll_from].
  - cbn [rev node_at]. done.
  - destruct (node_at m (rev (x :: rparent))) as [[|c]|] eqn:Hnode.
    + by intros [= <-].
    + done.
    + destruct (MkdirAll_from rparent m) as [m1 [e|]]; [done |].
      unfold Mkdir.
      destruct (node_at m1 (rev (x :: rparent))); [done |].
      destruct (node_at m1 (removelast (rev (x :: rparent)))) as [[|c]|]; [|done..].
      intros [= <-]. apply os_facts.node_at_insert.
      cbn [rev]. by destruct (rev rparent).
Qed.

Lemma MkdirAll_isDir (fs fs' : FS) (p : string) :
  MkdirAll fs p = (fs', None) → Stat fs' p = inl true.
Proof.
  unfold MkdirAll, Stat. destruct (string_eqb p ""); [done |].
  destruct (MkdirAll_from (rev (resolve fs p)) (nodes fs)) as [m e] eqn:Hfrom.
  intros [= <- ->]. apply MkdirAll_from_dir in Hfrom.
  rewrite rev_involutive in Hfrom. unfold resolve in *. cbn [cwd nodes].
  by rewrite Hfrom.
Qed.

(** What a successful [WriteFile] does to the filesystem. *)
Lemma WriteFile_inv (fs fs' : FS) (p : string) (content : bytes) :
  WriteFile fs p content = (fs', None) →
  fs' = {| cwd := cwd fs; nodes := <[resolve fs p := File content]> (nodes fs) |} ∧
  resolve fs p ≠ [] ∧ node_at (nodes fs) (resolve fs p) ≠ Some Dir ∧
  string_eqb p "" = false.
Proof.
  unfold WriteFile. destruct (string_eqb p ""); [done |].
  destruct (resolve fs p) as [|x k] eqn:Hk; [done |].
  destruct (node_at (nodes fs) (x :: k)) as [[|c]|] eqn:Hnode; [done | |].
  - by intros [= <-].
  - destruct (node_at (nodes fs) (removelast (x :: k))) as [[|c]|]; [|done..].
    by intros [= <-].
Qed.

(** Writing a file leaves the directories in place. *)
Lemma WriteFile_keeps_dir (fs fs' : FS) (p q : string) (content : bytes) :
  WriteFile fs p content = (fs', None) →
  Stat fs q = inl true → Stat fs' q = inl true.
Proof.
  intros Hw. apply WriteFile_inv in Hw as (-> & Hne & Hnd & _).
  unfold Stat, resolve. cbn [cwd nodes]. fold (resolve fs q). fold (resolve fs p).
  destruct (string_eqb q ""); [done |].
  destruct (node_at (nodes fs) (resolve fs q)) as [[|c]|] eqn:Hq; [|done..].
  intros _. destruct (resolve fs q) as [|y kq] eqn:Hkq; [done |].
  cbn [node_at] in *. rewrite lookup_insert_ne; [by rewrite Hq |].
  intros Heq. rewrite Heq in Hnd. cbn [node_at] in Hnd. done.
Qed.

(** Writing the same file again changes nothing. *)
Lemma WriteFile_again (fs fs' : FS) (p : string) (content : bytes) :
  WriteFile fs p content = (fs', None) → WriteFile fs' p content = (fs', None).
Proof.
  intros Hw. apply WriteFile_inv in Hw as (-> & Hne & Hnd & Hp).
  unfold WriteFile, resolve. cbn [cwd nodes]. fold (resolve fs p).
  rewrite Hp. rewrite os_facts.node_at_insert by done.
  by rewrite insert_insert_eq.
Qed.

Lemma DirPath_directory (r : Repository) (fs fs' : FS) (mkdir : bool)
    (pathChunks : list string) (full : string) :
  DirPath r fs mkdir pathChunks = (fs', inl full) →
  full = path.Join [gitdir r; path.Join pathChunks] ∧
  isDir fs' full = (true, None).
Proof.
  unfold DirPath.
  destruct (isDir fs _) as [[|] [e|]] eqn:HisDir; try done.
  - by intros [= <- <-].
  - destruct mkdir; [|done]. cbn [negb].
    destruct (MkdirAll fs _) as [fs1 [e|]] eqn:Hmk; [done |].
    intros [= <- <-]. split; [done |].
    apply MkdirAll_isDir in Hmk. unfold isDir. by rewrite Hmk.
Qed.

Lemma isDir_true (fs : FS) (p : string) :
  isDir fs p = (true, None) ↔ Stat fs p = inl true.
Proof.
  unfold isDir. destruct (Stat fs p) as [[|] | e]; [done | done |].
  by destruct (is_ErrNotExist e).
Qed.

End store_facts.

(** A directory path that [DirPath] returns is a directory afterwards,
    whether it was there or has just been made. *)
Theorem DirPath_returns_directory (r : Repository) (fs fs' : FS) (mkdir : bool)
    (pathChunks : list string) (full : string) :
  DirPath r fs mkdir pathChunks = (fs', inl full) →
  full = path.Join [gitdir r; path.Join pathChunks] ∧
  isDir fs' full = (true, None).
Proof. apply store_facts.DirPath_directory. Qed.

(** The fan-out directory of an object, made in a fresh repository. *)
Lemma DirPath_returns_directory_witness :
  "/r/.git/objects/ab" = path.Join [gitdir example.repo; path.Join ["objects"; "ab"]] ∧
  isDir (DirPath example.repo example.fresh true ["objects"; "ab"]).1
    "/r/.git/objects/ab" = (true, None).
Proof.
  apply (DirPath_returns_directory example.repo example.fresh _ true ["objects"; "ab"]).
  vm_compute. reflexivity.
Defined.

(** What [Repository.WriteFile] has written is read back from the joined
    path under the metadata directory. *)
Theorem WriteFile_then_ReadFile (r : Repository) (fs fs' : FS) (mkdir : bool)
    (content : bytes) (pathChunks : list string) :
  WriteFile r fs mkdir content pathChunks = (fs', None) →
  os.ReadFile fs' (path.Join [gitdir r; path.Join pathChunks]) = inl content.
Proof.
  unfold WriteFile.
  destruct (if (1 <? length pathChunks)%nat then _ else _) as [fs1 [full | e]];
    [|done].
  destruct (os.WriteFile fs1 _ content) as [fs2 [e|]] eqn:Hwrite; [done |].
  intros [= <-]. by apply os_facts.WriteFile_ReadFile in Hwrite.
Qed.

(** A tag file, as [cmdTag] writes it. *)
Lemma WriteFile_then_ReadFile_witness :
  os.ReadFile
    (WriteFile example.repo example.fresh true (raw "abc") ["refs"; "tags"; "v1"]).1
    (path.Join [gitdir example.repo; path.Join ["refs"; "tags"; "v1"]])
  = inl (raw "abc").
Proof.
  apply (WriteFile_then_ReadFile example.repo example.fresh _ true (raw "abc")
           ["refs"; "tags"; "v1"]).
  vm_compute. reflexivity.
Defined.

Section StoreMore.

Context {hash : sha1.Hash} {codec : zlib.Codec}.

(** A well-formed tree that fits in the reader's buffer, written to the
    store and read back by the returned identifier, is the same tree. *)
Theorem tree_write_read_roundtrip (r : Repository) (fs fs' : FS)
    (t : TreeObject) (sha : bytes) :
  Forall wf_leaf (Leafs t) →
  (length (Tree.Serialize t).1 ≤ bufio.defaultBufSize)%nat →
  WriteObject r fs "tree" (Tree.Serialize t).1 = (fs', (sha, None)) →
  ReadObject r fs' sha = Some (Ok (OTree t)).
Proof.
  intros Hwf Hlen Hwrite.
  apply WriteObject_stored in Hwrite as [-> Hfile].
  rewrite (ReadObject_framed r fs' _ "tree" NewTree (Tree.Serialize t).1); try done.
  - cbn [construct]. by rewrite tree_facts.Tree_roundtrip_within_buffer.
  - apply sha1.Sum_length.
  - repeat constructor.
  - unfold len, maxInt, bufio.defaultBufSize in *. lia.
Qed.

(** A commit made of header lines, a blank line and a comment, written to
    the store and read back, is the commit with that header and comment. *)
Theorem commit_write_read (r : Repository) (fs fs' : FS)
    (kv : string * string) (lines : list (string * string)) (comment : string)
    (sha : bytes) :
  Forall header_line (kv :: lines) →
  len (commit_bytes (kv :: lines) comment) <= maxInt →
  WriteObject r fs "commit" (commit_bytes (kv :: lines) comment) = (fs', (sha, None)) →
  ReadObject r fs' sha
  = Some (Ok (OCommit {| Header := header_of (kv :: lines); Comment := comment |})).
Proof.
  intros Hall Hlen Hwrite.
  apply WriteObject_stored in Hwrite as [-> Hfile].
  rewrite (ReadObject_framed r fs' _ "commit" NewCommit
             (commit_bytes (kv :: lines) comment)); try done.
  - cbn [construct]. by rewrite commit_facts.Deserialize_commit_bytes.
  - apply sha1.Sum_length.
  - repeat constructor.
Qed.

(** A stored frame whose declared length is not the length of its payload
    is refused, for every known kind: the constructor of the kind is not
    reached, so a ["tag"] frame of this sort is an error and not a panic. *)
Theorem ReadObject_length_mismatch (r : Repository) (fs : FS) (sha : bytes)
    (kind : string) (ctor : kind_ctor) (n : Z) (content : bytes) :
  length sha = 20%nat →
  os.ReadFile fs (object_path r (hex.EncodeToString sha))
    = inl (zlib.compress
             (raw kind ++ [SP] ++ raw (strconv.Itoa n) ++ [NUL] ++ content)) →
  no_byte SP (raw kind) →
  objects !! kind = Some ctor →
  0 <= n <= maxInt → n ≠ len content →
  ReadObject r fs sha = Some (Err (New "bad object length %d != %d")).
Proof.
  intros Hsha Hfile Hkind Hctor Hn Hne.
  unfold ReadObject. rewrite Hsha. cbn [Nat.eqb negb].
  rewrite Hfile, zlib.decompress_compress.
  destruct (bufio_facts.ReadString_line SP
              (bufio.NewReader (raw kind ++ [SP] ++ raw (strconv.Itoa n) ++ [NUL] ++ content))
              (raw kind ++ [SP])
              (raw (strconv.Itoa n) ++ [NUL] ++ content))
    as (rd1 & -> & Hwf1 & Hs1).
  { apply bufio_facts.wf_NewReader. }
  { rewrite bufio_facts.stream_NewReader. by apply bufio_facts.cut_first. }
  rewrite chop_snoc, str_raw, Hctor.
  destruct (bufio_facts.ReadString_line NUL rd1
              (raw (strconv.Itoa n) ++ [NUL]) content)
    as (rd2 & -> & Hwf2 & Hs2); [done | |].
  { rewrite Hs1. apply bufio_facts.cut_first.
    apply digits_no_byte; [lia | vm_compute; lia]. }
  rewrite chop_snoc, str_raw, strconv_facts.Atoi_Itoa by done.
  rewrite bufio_facts.ReadAll_spec by done. rewrite Hs2.
  destruct (Z.eqb_spec n (len content)); done.
Qed.

(** A stored frame whose kind is not one of the registered ones is
    refused. *)
Theorem ReadObject_unknown_kind (r : Repository) (fs : FS) (sha : bytes)
    (kind : string) (rest : bytes) :
  length sha = 20%nat →
  os.ReadFile fs (object_path r (hex.EncodeToString sha))
    = inl (zlib.compress (raw kind ++ [SP] ++ rest)) →
  no_byte SP (raw kind) →
  objects !! kind = None →
  ReadObject r fs sha = Some (Err (New "unknown object kind: %q")).
Proof.
  intros Hsha Hfile Hkind Hctor.
  unfold ReadObject. rewrite Hsha. cbn [Nat.eqb negb].
  rewrite Hfile, zlib.decompress_compress.
  destruct (bufio_facts.ReadString_line SP
              (bufio.NewReader (raw kind ++ [SP] ++ rest)) (raw kind ++ [SP]) rest)
    as (rd1 & -> & Hwf1 & Hs1).
  { apply bufio_facts.wf_NewReader. }
  { rewrite bufio_facts.stream_NewReader. by apply bufio_facts.cut_first. }
  by rewrite chop_snoc, str_raw, Hctor.
Qed.

(** Writing the same object again changes nothing: the second call returns
    the same identifier, no error, and the filesystem as it was. *)
Theorem WriteObject_twice (r : Repository) (fs fs' : FS) (kind : string)
    (content sha : bytes) :
  WriteObject r fs kind content = (fs', (sha, None)) →
  WriteObject r fs' kind content = (fs', (sha, None)).
Proof.
  unfold WriteObject.
  destruct (DirPath r fs true _) as [fs1 [full | e]] eqn:Hdir; [|done].
  destruct (os.WriteFile fs1 _ _) as [fs2 [e|]] eqn:Hwrite; [done |].
  intros [= <- <-].
  apply store_facts.DirPath_directory in Hdir as [-> HisDir].
  apply store_facts.isDir_true in HisDir.
  apply (store_facts.WriteFile_keeps_dir _ _ _ _ _ Hwrite) in HisDir.
  apply store_facts.isDir_true in HisDir.
  unfold DirPath. rewrite HisDir.
  by rewrite (store_facts.WriteFile_again _ _ _ _ Hwrite).
Qed.

End StoreMore.

Lemma tree_write_read_roundtrip_witness :
  example.read (example.write example.fresh "tree" (Tree.Serialize store_example.tree).1).1
    (example.write example.fresh "tree" (Tree.Serialize store_example.tree).1).2.1
  = Some (Ok (OTree store_example.tree)).
Proof.
  apply (tree_write_read_roundtrip (hash := sha1.fips) (codec := zlib.plain)
           example.repo example.fresh _ store_example.tree).
  - repeat constructor; vm_compute; congruence.
  - vm_compute. repeat constructor.
  - vm_compute. reflexivity.
Defined.

Lemma commit_write_read_witness :
  example.read
    (example.write example.fresh "commit" (raw commit_example.text)).1
    (example.write example.fresh "commit" (raw commit_example.text)).2.1
  = Some (Ok (OCommit {| Header := header_of commit_example.lines;
                         Comment := "A commit message" |})).
Proof.
  apply (commit_write_read (hash := sha1.fips) (codec := zlib.plain)
           example.repo example.fresh _
           ("tree", "c7aebf0cbe2b1a70501c7b7e1e28faceaba77541")
           (tl commit_example.lines) "A commit message").
  - repeat constructor; discriminate.
  - vm_compute. discriminate.
  - vm_compute. reflexivity.
Defined.

(** The frame ["blob 5\0hi"]: five bytes declared, two present. *)
Lemma ReadObject_length_mismatch_witness :
  example.read
    (store_example.damaged (raw "blob" ++ [SP] ++ raw (strconv.Itoa 5) ++ [NUL] ++ raw "hi"))
    store_example.blob_id
  = Some (Err (New "bad object length %d != %d")).
Proof.
  apply (ReadObject_length_mismatch (codec := zlib.plain) example.repo _ _
           "blob" NewBlob 5 (raw "hi")).
  - vm_compute. reflexivity.
  - vm_compute. reflexivity.
  - repeat constructor.
  - reflexivity.
  - vm_compute. split; congruence.
  - vm_compute. congruence.
Defined.

(** The frame ["blub 2\0hi"]. *)
Lemma ReadObject_unknown_kind_witness :
  example.read
    (store_example.damaged (raw "blub" ++ [SP] ++ raw "2" ++ [NUL] ++ raw "hi"))
    store_example.blob_id
  = Some (Err (New "unknown object kind: %q")).
Proof.
  apply (ReadObject_unknown_kind (codec := zlib.plain) example.repo _ _
           "blub" (raw "2" ++ [NUL] ++ raw "hi")).
  - vm_compute. reflexivity.
  - vm_compute. reflexivity.
  - repeat constructor.
  - reflexivity.
Defined.

Lemma WriteObject_twice_witness :
  example.write store_example.with_blob.1 "blob" (raw "hi")
  = (store_example.with_blob.1, (store_example.blob_id, None)).
Proof.
  apply (WriteObject_twice (hash := sha1.fips) (codec := zlib.plain)
           example.repo example.fresh).
  vm_compute. reflexivity.
Defined.

(** ** Looking for a repository: the nearest ancestor *)

Lemma FindRepository_loop_nearest (fs : FS) (n : nat) : ∀ fuel repo,
  path.rooted repo = true →
  (∀ i, (i < n)%nat →
        isDir fs (path.Join [Nat.iter i filepath.Dir repo; ".git"]) ≠ (true, None)) →
  isDir fs (path.Join [Nat.iter n filepath.Dir repo; ".git"]) = (true, None) →
  isDir fs (Nat.iter n filepath.Dir repo) = (true, None) →
  FindRepository_loop (S n + fuel) fs repo
  = Some (inl {| workdir := Nat.iter n filepath.Dir repo;
                 gitdir := path.Join [Nat.iter n filepath.Dir repo; ".git"] |}).
Proof.
  induction n as [|n IH]; intros fuel repo Hrooted Hnone Hgit Hdir.
  - by apply FindRepository_loop_found.
  - change (S (S n) + fuel)%nat with (S (S n + fuel)).
    cbn [FindRepository_loop]. unfold FindRepository_step.
    pose proof (Hnone 0%nat ltac:(lia)) as H0. cbn [Nat.iter nat_rect] in H0.
    rewrite (path_facts.rooted_not_dot repo Hrooted).
    rewrite Nat.iter_succ_r in Hgit, Hdir.
    assert (Hnext : FindRepository_loop (S n + fuel) fs (filepath.Dir repo)
                    = Some (inl {| workdir := Nat.iter n filepath.Dir (filepath.Dir repo);
                                   gitdir := path.Join [Nat.iter n filepath.Dir
                                                          (filepath.Dir repo); ".git"] |})).
    { apply IH; [by apply path_facts.rooted_Dir | | done | done].
      intros i Hi. rewrite <- Nat.iter_succ_r. apply Hnone. lia. }
    rewrite Nat.iter_succ_r.
    destruct (isDir fs (path.Join [repo; ".git"])) as [[|] [e|]]; done.
Qed.

(** When the [n]-th ancestor of the start path is the first one that holds
    a [.git] directory, [FindRepository] opens the repository there. *)
Theorem FindRepository_opens_nearest (fs : FS) (start : string) (n fuel : nat) :
  path.rooted (cwd fs) = true →
  (∀ i, (i < n)%nat →
        isDir fs (path.Join [Nat.iter i filepath.Dir (filepath.Abs fs start); ".git"])
        ≠ (true, None)) →
  isDir fs (path.Join [Nat.iter n filepath.Dir (filepath.Abs fs start); ".git"])
    = (true, None) →
  isDir fs (Nat.iter n filepath.Dir (filepath.Abs fs start)) = (true, None) →
  FindRepository (S n + fuel) fs start
  = Some (inl {| workdir := Nat.iter n filepath.Dir (filepath.Abs fs start);
                 gitdir := path.Join [Nat.iter n filepath.Dir (filepath.Abs fs start);
                                      ".git"] |}).
Proof.
  intros Hcwd Hnone Hgit Hdir. unfold FindRepository.
  apply FindRepository_loop_nearest; [by apply path_facts.rooted_Abs | done..].
Qed.

(** From [/r/.git/refs/heads] the repository [/r] is three levels up. *)
Lemma FindRepository_opens_nearest_witness :
  FindRepository 4 example.fresh "/r/.git/refs/heads" = Some (inl example.repo).
Proof.
  apply (FindRepository_opens_nearest example.fresh "/r/.git/refs/heads" 3 0).
  - reflexivity.
  - intros i Hi. destruct i as [|[|[|i]]]; [vm_compute; discriminate.. | lia].
  - vm_compute. reflexivity.
  - vm_compute. reflexivity.
Defined.

(** ** Repository creation never reports an existing repository *)

Module create_facts.












End create_facts.


(** ** Ref resolution without the trailing newline *)

Lemma ResolveRef_redirect (fuel : nat) (r : Repository) (fs : FS) (target : string) :
  ResolveRef (S fuel) r fs ("ref: " +:+ target)
  = match os.ReadFile fs target with
    | inr e => Some (Err (Wrap "read ref %q: %w" e))
    | inl data => ResolveRef fuel r fs (str data)
    end.
Proof.
  change ("ref: " +:+ target)
    with (String "r" (String "e" (String "f" (String ":" (String " " target))))).
  cbn [ResolveRef String.prefix].
  repeat (destruct (ascii_dec _ _) as [_ | Hne]; [|done]).
  cbn [String.length Nat.ltb Nat.leb raw list_ascii_of_string drop].
  fold (raw target). by rewrite drop_0, str_raw.
Qed.

(** A ref that redirects through any number of files, each holding
    ["ref: <next>"] and nothing else, to a file holding a hexadecimal
    identifier and nothing else, resolves to the bytes of that identifier. *)
Theorem ResolveRef_follows_chain (r : Repository) (fs : FS) (paths : list string) :
  ∀ (p : string) (id : bytes) (fuel : nat),
  ref_chain fs p paths id →
  ResolveRef (S (S (length paths)) + fuel) r fs ("ref: " +:+ p) = Some (Ok (id, None)).
Proof.
  induction paths as [|q rest IH]; intros p id fuel Hchain.
  - cbn [ref_chain] in Hchain. cbn [length Nat.add].
    rewrite ResolveRef_redirect, Hchain, str_raw.
    apply ResolveRef_direct.
  - destruct Hchain as [Hp Hrest]. unfold redirects in Hp.
    cbn [length]. change (S (S (S (length rest))) + fuel)%nat
      with (S (S (S (length rest)) + fuel)).
    rewrite ResolveRef_redirect, Hp, str_raw. by apply IH.
Qed.

(** [a] redirects to [b], which holds the identifier. *)
Lemma ResolveRef_follows_chain_witness :
  ResolveRef 3 example.repo chain_example.store "ref: a"
  = Some (Ok (ref_example.id, None)).
Proof.
  apply (ResolveRef_follows_chain example.repo chain_example.store ["b"] "a"
           ref_example.id 0).
  split; vm_compute; reflexivity.
Defined.

(** Redirections that lead back into themselves are followed for ever:
    from a file of a set of files that each redirect to a file of the set,
    resolution never returns. *)
Theorem ResolveRef_cycle_never_returns (r : Repository) (fs : FS)
    (cycle : string → Prop) (p : string) :
  (∀ p, cycle p → ∃ q, cycle q ∧ redirects fs p q) →
  cycle p →
  ∀ fuel, ResolveRef fuel r fs ("ref: " +:+ p) = None.
Proof.
  intros Hclosed Hp fuel. revert p Hp.
  induction fuel as [|fuel IH]; intros p Hp; [done |].
  destruct (Hclosed p Hp) as (q & Hq & Hred). unfold redirects in Hred.
  rewrite ResolveRef_redirect, Hred, str_raw. by apply IH.
Qed.

(** The file [loop] redirects to itself. *)
Lemma ResolveRef_cycle_never_returns_witness :
  ResolveRef 100 example.repo chain_example.store "ref: loop" = None.
Proof.
  apply (ResolveRef_cycle_never_returns example.repo chain_example.store
           (λ p, p = "loop") "loop").
  - intros p ->. exists "loop". split; [done |]. vm_compute. reflexivity.
  - reflexivity.
Defined.

(** ** The ancestry walk *)

Lemma string_app_cons (x : ascii) (a b : string) :
  String x a +:+ b = String x (a +:+ b).
Proof. reflexivity. Qed.

Lemma string_app_assoc (a b c : string) : (a +:+ b) +:+ c = a +:+ (b +:+ c).
Proof.
  induction a as [|x a IH]; [done |]. by rewrite !string_app_cons, IH.
Qed.

Lemma string_app_nil_l (a : string) : "" +:+ a = a.
Proof. reflexivity. Qed.

Lemma string_app_nil_r (a : string) : a +:+ "" = a.
Proof.
  induction a as [|x a IH]; [done |]. by rewrite string_app_cons, IH.
Qed.

Section Walk.

Context {codec : zlib.Codec}.

Lemma writeGraphviz_unfold (fuel : nat) (r : Repository) (fs : FS) (w : string)
    (seen : gset string) (sha : bytes) :
  writeGraphviz (S fuel) r fs w seen sha
  = match ReadObject r fs sha with
    | None => None
    | Some (Panic m) => Some (w, Panic m)
    | Some (Err e) => Some (w, Err (Wrap "read %q object: %w" e))
    | Some (Ok (OCommit c)) =>
        parents_loop (λ w1 id, writeGraphviz fuel r fs w1 seen id) sha
          (default [] (Header c !! "parent")) w
    | Some (Ok _) => Some (w, Err (New "not a commit object: %T"))
    end.
Proof. reflexivity. Qed.

(** What is written is appended to what the writer holds, and does not
    depend on it. *)
Lemma writeGraphviz_prefix (fuel : nat) (r : Repository) (fs : FS)
    (seen : gset string) : ∀ w sha,
  writeGraphviz fuel r fs w seen sha
  = match writeGraphviz fuel r fs "" seen sha with
    | None => None
    | Some (out, res) => Some (w +:+ out, res)
    end.
Proof.
  induction fuel as [|fuel IH]; intros w sha; [done |].
  rewrite !writeGraphviz_unfold.
  destruct (ReadObject r fs sha) as [[[c | b | t] | e | m]|];
    try done; try by rewrite string_app_nil_r.
  generalize (default [] (Header c !! "parent")). intros ps. revert w.
  induction ps as [|p ps IHps]; intros w; cbn [parents_loop].
  { by rewrite string_app_nil_r. }
  rewrite string_app_nil_l.
  destruct (hex.DecodeString p) as [id [e|]]; [done |].
  rewrite (IH (w +:+ edge sha p) id), (IH (edge sha p) id).
  destruct (writeGraphviz fuel r fs "" seen id) as [[out [[] | e | m]]|];
    try done; try by rewrite string_app_assoc.
  rewrite (IHps ((w +:+ edge sha p) +:+ out)), (IHps (edge sha p +:+ out)).
  destruct (parents_loop _ sha ps "") as [[out2 res2]|]; [|done].
  by rewrite !string_app_assoc.
Qed.

(** The loop over parents whose walks all succeed. *)
Lemma parents_loop_ok (fuel : nat) (r : Repository) (fs : FS) (seen : gset string)
    (sha : bytes) (ps : list string) : ∀ (outs : list string) (w : string),
  Forall2 (λ p out, ∃ id, hex.DecodeString p = (id, None) ∧
                          writeGraphviz fuel r fs "" seen id = Some (out, Ok tt))
          ps outs →
  parents_loop (λ w1 id, writeGraphviz fuel r fs w1 seen id) sha ps w
  = Some (w +:+ edges sha ps outs, Ok tt).
Proof.
  induction ps as [|p ps IH]; intros outs w Hall;
    inversion Hall as [|? out ? outs' Hp Hrest]; subst;
    cbn [parents_loop edges].
  { by rewrite string_app_nil_r. }
  destruct Hp as (id & -> & Hwalk).
  rewrite writeGraphviz_prefix, Hwalk. rewrite (IH outs') by done.
  by rewrite !string_app_assoc.
Qed.

(** For a commit whose parents' walks all succeed, the walk writes, for
    every parent header value in order, the edge to that parent followed by
    what the parent's own walk writes.  Nothing is left out for having been
    written before: a commit reached along two paths is walked twice. *)
Theorem writeGraphviz_writes_each_parent (fuel : nat) (r : Repository) (fs : FS)
    (w : string) (seen : gset string) (sha : bytes) (c : CommitObject)
    (outs : list string) :
  ReadObject r fs sha = Some (Ok (OCommit c)) →
  Forall2 (λ p out, ∃ id, hex.DecodeString p = (id, None) ∧
                          writeGraphviz fuel r fs "" seen id = Some (out, Ok tt))
          (default [] (Header c !! "parent")) outs →
  writeGraphviz (S fuel) r fs w seen sha
  = Some (w +:+ edges sha (default [] (Header c !! "parent")) outs, Ok tt).
Proof.
  intros Hread Hall. rewrite writeGraphviz_unfold, Hread.
  by apply parents_loop_ok.
Qed.

(** An error in the walk of a parent, after the walks of the parents before
    it have succeeded, ends the walk of the commit with that error. *)
Theorem writeGraphviz_returns_parent_error (fuel : nat) (r : Repository) (fs : FS)
    (w : string) (seen : gset string) (sha : bytes) (c : CommitObject)
    (before : list string) (outs : list string) (p : string) (after : list string)
    (id : bytes) (out : string) (e : error) :
  ReadObject r fs sha = Some (Ok (OCommit c)) →
  default [] (Header c !! "parent") = before ++ p :: after →
  Forall2 (λ p out, ∃ id, hex.DecodeString p = (id, None) ∧
                          writeGraphviz fuel r fs "" seen id = Some (out, Ok tt))
          before outs →
  hex.DecodeString p = (id, None) →
  writeGraphviz fuel r fs "" seen id = Some (out, Err e) →
  writeGraphviz (S fuel) r fs w seen sha
  = Some (w +:+ edges sha before outs +:+ edge sha p +:+ out, Err e).
Proof.
  intros Hread Hps Hall Hdec Hwalk. rewrite writeGraphviz_unfold, Hread, Hps.
  clear Hread Hps. revert outs w Hall.
  induction before as [|q before IH]; intros outs w Hall;
    inversion Hall as [|? outq ? outs' Hp Hrest]; subst.
  - cbn [app parents_loop edges]. rewrite Hdec, writeGraphviz_prefix, Hwalk.
    by rewrite !string_app_assoc.
  - destruct Hp as (idq & Hq & Hwq).
    cbn [app parents_loop edges]. rewrite Hq, writeGraphviz_prefix, Hwq.
    rewrite (IH outs') by done. by rewrite !string_app_assoc.
Qed.

(** [cmdLog] writes either the whole graph, between its opening and closing
    lines, or nothing at all. *)
Theorem cmdLog_all_or_nothing (fuel : nat) (fs : FS)
    (args : list string) (out : string) (res : result unit) :
  cmdLog fuel fs args = Some (out, res) →
  (res = Ok tt ∧ ∃ body, out = ("digraph gogitlog{" +:+ nl) +:+ body +:+ "}" +:+ nl) ∨
  (res ≠ Ok tt ∧ out = "").
Proof.
  unfold cmdLog.
  destruct args as [|hash0 [|? ?]]; try by (intros [= <- <-]; right).
  destruct (hex.DecodeString hash0) as [sha [e|]]; [by (intros [= <- <-]; right) |].
  destruct (FindRepository fuel fs ".") as [[repo | e]|];
    [| by (intros [= <- <-]; right) | done].
  rewrite writeGraphviz_prefix.
  destruct (writeGraphviz fuel repo fs "" ∅ sha) as [[body [[] | e | m]]|];
    [| by (intros [= <- <-]; right) .. | done].
  intros [= <- <-]. left. split; [done |]. exists body.
  by rewrite !string_app_assoc.
Qed.

End Walk.

(** The merge of [log_example]: the edge from [root] to [base] is written
    once for each of the two ways to [root]. *)
Lemma writeGraphviz_writes_each_parent_witness :
  writeGraphviz (codec := zlib.plain) 4 example.repo log_example.store "" ∅
    log_example.merge
  = Some ("" +:+ edges log_example.merge
                   (default [] (Header (log_example.commit_of
                                          [log_example.left; log_example.right] "merge")
                                  !! "parent"))
                   [log_example.walk_left; log_example.walk_right],
          Ok tt).
Proof.
  apply (writeGraphviz_writes_each_parent (codec := zlib.plain) 3 example.repo
           log_example.store "" ∅ log_example.merge
           (log_example.commit_of [log_example.left; log_example.right] "merge")
           [log_example.walk_left; log_example.walk_right]).
  - vm_compute. reflexivity.
  - replace (default [] (Header (log_example.commit_of
                                   [log_example.left; log_example.right] "merge")
                           !! "parent"))
      with [hex.EncodeToString log_example.left; hex.EncodeToString log_example.right]
      by (vm_compute; reflexivity).
    constructor; [| constructor; [| constructor]].
    + exists log_example.left. split; vm_compute; reflexivity.
    + exists log_example.right. split; vm_compute; reflexivity.
Defined.

(** The commit [broken] of [log_example]: the walk of its first parent is
    written, then the edge to the second one, which is not in the store. *)
Lemma writeGraphviz_returns_parent_error_witness :
  writeGraphviz (codec := zlib.plain) 4 example.repo log_example.store "" ∅
    log_example.broken
  = Some ("" +:+ edges log_example.broken [hex.EncodeToString log_example.left]
                   [log_example.walk_left]
             +:+ edge log_example.broken (hex.EncodeToString log_example.absent)
             +:+ "",
          Err (Wrap "read %q object: %w" (Wrap "read object: %w" ErrNotExist))).
Proof.
  apply (writeGraphviz_returns_parent_error (codec := zlib.plain) 3 example.repo
           log_example.store "" ∅ log_example.broken
           (log_example.commit_of [log_example.left; log_example.absent] "broken")
           [hex.EncodeToString log_example.left] [log_example.walk_left]
           (hex.EncodeToString log_example.absent) [] log_example.absent "").
  - vm_compute. reflexivity.
  - vm_compute. reflexivity.
  - constructor; [| constructor].
    exists log_example.left. split; vm_compute; reflexivity.
  - vm_compute. reflexivity.
  - vm_compute. reflexivity.
Defined.

Lemma cmdLog_all_or_nothing_witness :
  (Ok tt = Ok tt ∧
   ∃ body,
     (("digraph gogitlog{" +:+ nl)
        +:+ edges log_example.merge
              [hex.EncodeToString log_example.left; hex.EncodeToString log_example.right]
              [log_example.walk_left; log_example.walk_right])
       +:+ "}" +:+ nl
     = ("digraph gogitlog{" +:+ nl) +:+ body +:+ "}" +:+ nl) ∨
  (Ok tt ≠ Ok tt ∧
   (("digraph gogitlog{" +:+ nl)
      +:+ edges log_example.merge
            [hex.EncodeToString log_example.left; hex.EncodeToString log_example.right]
            [log_example.walk_left; log_example.walk_right])
     +:+ "}" +:+ nl = "").
Proof.
  apply (cmdLog_all_or_nothing (codec := zlib.plain) 5
           log_example.store [hex.EncodeToString log_example.merge]).
  vm_compute. reflexivity.
Defined.

(** ** The commands on stored objects *)

Lemma append_values_absent (k : string) (lines : list (string * string)) :
  ∀ h0 : gmap string (list string),
  Forall (λ kv, kv.1 ≠ k) lines → h0 !! k = None →
  foldl (λ h kv, Commit.append_value h kv.1 kv.2) h0 lines !! k = None.
Proof.
  induction lines as [|kv lines IH]; intros h0 Hall Hh; [done |].
  inversion Hall as [|? ? Hkv Hrest]; subst.
  cbn [foldl]. apply IH; [done |]. unfold Commit.append_value.
  by rewrite lookup_insert_ne.
Qed.

Lemma header_of_absent (k : string) (lines : list (string * string)) :
  Forall (λ kv, kv.1 ≠ k) lines → header_of lines !! k = None.
Proof. intros Hall. by apply append_values_absent. Qed.

Section CommandFacts.

Context {hash : sha1.Hash} {codec : zlib.Codec}.

(** [cmdHashObject] of a blob prints the identifier of the file's content
    in hexadecimal and a newline, and leaves the store such that reading
    that identifier gives the blob of the file's content. *)
Theorem cmdHashObject_blob_is_readable (fuel : nat) (fs fs' : FS) (file : string)
    (content : bytes) (out : string) :
  os.ReadFile fs file = inl content →
  len content <= maxInt →
  cmdHashObject fuel fs ["blob"; file] = Some (fs', out, None) →
  ∃ repo,
    FindRepository fuel fs "." = Some (inl repo) ∧
    out = hex.EncodeToString (sha1.Sum (frame "blob" content)) +:+ nl ∧
    ReadObject repo fs' (sha1.Sum (frame "blob" content))
    = Some (Ok (OBlob {| Data := content |})).
Proof.
  intros Hfile Hlen. unfold cmdHashObject.
  change (negb _) with false. cbv iota.
  destruct (FindRepository fuel fs ".") as [[repo | e]|]; [|done..].
  rewrite Hfile.
  destruct (WriteObject repo fs "blob" content) as [fs1 [sha [e|]]] eqn:Hwrite;
    [done |].
  intros [= <- <-]. exists repo.
  apply WriteObject_stored in Hwrite as [-> Hstored].
  split; [done |]. split; [done |].
  rewrite (ReadObject_framed repo fs1 _ "blob" NewBlob content); try done.
  - apply sha1.Sum_length.
  - repeat constructor.
Qed.

(** [cmdCheckout] of a stored commit none of whose header lines has the key
    ["tree"] panics on the first value of the missing header, and leaves
    the filesystem as it was. *)
Theorem cmdCheckout_commit_without_tree_panics (fuel : nat) (fs0 fs : FS)
    (repo : Repository) (kv : string * string) (lines : list (string * string))
    (comment : string) (sha : bytes) (dest : string) :
  Forall header_line (kv :: lines) →
  Forall (λ kv, kv.1 ≠ "tree") (kv :: lines) →
  len (commit_bytes (kv :: lines) comment) <= maxInt →
  WriteObject repo fs0 "commit" (commit_bytes (kv :: lines) comment)
    = (fs, (sha, None)) →
  FindRepository fuel fs "." = Some (inl repo) →
  cmdCheckout fuel fs [hex.EncodeToString sha; dest]
  = Some (fs, Panic "index out of range [0] with length 0").
Proof.
  intros Hall Hno Hlen Hwrite Hfind.
  apply WriteObject_stored in Hwrite as [-> Hstored].
  unfold cmdCheckout. rewrite hex_facts.Decode_Encode, Hfind. cbv zeta.
  rewrite (ReadObject_framed repo fs _ "commit" NewCommit
             (commit_bytes (kv :: lines) comment)); try done.
  - cbn [construct]. rewrite commit_facts.Deserialize_commit_bytes by done.
    cbn [Header]. by rewrite header_of_absent.
  - apply sha1.Sum_length.
  - repeat constructor.
Qed.

End CommandFacts.

(** A tag written by [cmdTag] for an identifier in hexadecimal does not
    resolve: the newline that [cmdTag] puts after the identifier reaches
    the decoder, and [ResolveRef] returns the identifier with an error. *)
Theorem cmdTag_does_not_resolve (fuel n : nat) (fs fs' : FS) (name : string)
    (id : bytes) :
  cmdTag fuel fs [name; hex.EncodeToString id] = Some (fs', None) →
  ∃ repo,
    FindRepository fuel fs "." = Some (inl repo) ∧
    ResolveRef (S (S n)) repo fs'
      ("ref: " +:+ path.Join [gitdir repo; path.Join ["refs"; "tags"; name]])
    = Some (Ok (id, Some (InvalidByteError LF))).
Proof.
  unfold cmdTag.
  destruct (FindRepository fuel fs ".") as [[repo | e]|]; [|done..].
  destruct (WriteFile repo fs true _ _) as [fs1 [e|]] eqn:Hwrite; [done |].
  intros [= <-]. exists repo. split; [done |].
  rewrite ResolveRef_redirect.
  unfold WriteFile in Hwrite.
  destruct (if (1 <? length ["refs"; "tags"; name])%nat then _ else _)
    as [fs2 [full | e]]; [|done].
  destruct (os.WriteFile fs2 _ _) as [fs3 [e|]] eqn:Hos; [done |].
  injection Hwrite as <-.
  apply os_facts.WriteFile_ReadFile in Hos. rewrite Hos, str_raw.
  apply ResolveRef_direct_newline.
Qed.

(** ** A created repository is found *)

Module keep_facts.

Lemma kept_refl (fs : FS) : kept fs fs.
Proof. done. Qed.

Lemma kept_trans (fs1 fs2 fs3 : FS) : kept fs1 fs2 → kept fs2 fs3 → kept fs1 fs3.
Proof.
  intros [Hc1 H1] [Hc2 H2]. split; [congruence |].
  intros k Hk. by apply H2, H1.
Qed.

Lemma Mkdir_keeps (m m' : gmap (list string) node) (k : list string)
    (e : option error) :
  os.Mkdir m k = (m', e) →
  ∀ k', os.node_at m k' = Some Dir → os.node_at m' k' = Some Dir.
Proof.
  unfold os.Mkdir.
  destruct (os.node_at m k) as [n|] eqn:Hk; [by intros [= <- <-] |].
  destruct (os.node_at m (removelast k)) as [[|c]|]; try by intros [= <- <-].
  intros [= <- <-] k' Hk'.
  destruct k' as [|x k']; [done |]. cbn [os.node_at] in *.
  rewrite lookup_insert_ne; [done |].
  intros ->. cbn [os.node_at] in Hk. congruence.
Qed.

Lemma MkdirAll_from_keeps (rk : list string) : ∀ m m' e,
  os.MkdirAll_from rk m = (m', e) →
  ∀ k, os.node_at m k = Some Dir → os.node_at m' k = Some Dir.
Proof.
  induction rk as [|x rparent IH]; intros m m' e; cbn [os.MkdirAll_from].
  - destruct (os.node_at m (rev [])) as [[|c]|]; by intros [= <- <-].
  - destruct (os.node_at m (rev (x :: rparent))) as [[|c]|];
      try by intros [= <- <-].
    destruct (os.MkdirAll_from rparent m) as [m1 [e1|]] eqn:Hparent.
    + intros [= <- <-]. by apply (IH _ _ _ Hparent).
    + intros Hmk k Hk. apply (Mkdir_keeps _ _ _ _ Hmk).
      by apply (IH _ _ _ Hparent).
Qed.

Lemma MkdirAll_kept (fs fs' : FS) (p : string) (e : option error) :
  os.MkdirAll fs p = (fs', e) → kept fs fs'.
Proof.
  unfold os.MkdirAll. destruct (string_eqb p ""); [by intros [= <- <-] |].
  destruct (os.MkdirAll_from _ _) as [m e0] eqn:Hfrom.
  intros [= <- <-]. split; [done |]. cbn [nodes].
  by apply (MkdirAll_from_keeps _ _ _ _ Hfrom).
Qed.

Lemma os_WriteFile_kept (fs fs' : FS) (p : string) (content : bytes)
    (e : option error) :
  os.WriteFile fs p content = (fs', e) → kept fs fs'.
Proof.
  unfold os.WriteFile. destruct (string_eqb p ""); [by intros [= <- <-] |].
  assert (Hput : os.node_at (nodes fs) (os.resolve fs p) ≠ Some Dir →
            kept fs {| cwd := cwd fs;
                       nodes := <[os.resolve fs p := File content]> (nodes fs) |}).
  { intros Hnd. split; [done |]. cbn [nodes]. intros k Hk.
    destruct k as [|x k]; [done |]. cbn [os.node_at] in *.
    rewrite lookup_insert_ne; [done |].
    intros Heq. rewrite Heq in Hnd. cbn [os.node_at] in Hnd. done. }
  destruct (os.node_at (nodes fs) (os.resolve fs p)) as [[|c]|] eqn:Hk.
  - by intros [= <- <-].
  - intros [= <- <-]. by apply Hput.
  - destruct (os.node_at (nodes fs) (removelast (os.resolve fs p))) as [[|c]|];
      try by intros [= <- <-].
    intros [= <- <-]. by apply Hput.
Qed.

Lemma DirPath_kept (r : Repository) (fs fs' : FS) (mkdir : bool)
    (chunks : list string) (res : string + error) :
  DirPath r fs mkdir chunks = (fs', res) → kept fs fs'.
Proof.
  unfold DirPath.
  destruct (isDir fs _) as [[|] [e|]]; try by intros [= <- <-].
  destruct (negb mkdir); [by intros [= <- <-] |].
  destruct (os.MkdirAll fs _) as [fs1 [e|]] eqn:Hmk;
    intros [= <- <-]; by apply (MkdirAll_kept _ _ _ _ Hmk).
Qed.

Lemma WriteFile_kept (r : Repository) (fs fs' : FS) (mkdir : bool)
    (content : bytes) (chunks : list string) (e : option error) :
  WriteFile r fs mkdir content chunks = (fs', e) → kept fs fs'.
Proof.
  unfold WriteFile.
  destruct (if (1 <? length chunks)%nat then _ else _) as [fs1 [full | e1]] eqn:Hdir.
  - assert (kept fs fs1) as H1.
    { destruct (1 <? length chunks)%nat.
      - by apply (DirPath_kept _ _ _ _ _ _ Hdir).
      - by injection Hdir as <- _. }
    destruct (os.WriteFile fs1 _ content) as [fs2 [e2|]] eqn:Hos;
      intros [= <- <-]; apply (kept_trans _ _ _ H1), (os_WriteFile_kept _ _ _ _ _ Hos).
  - intros [= <- <-].
    destruct (1 <? length chunks)%nat; [|done].
    by apply (DirPath_kept _ _ _ _ _ _ Hdir).
Qed.

(** A directory stays a directory for [isDir]. *)
Lemma kept_isDir (fs fs' : FS) (p : string) :
  kept fs fs' → isDir fs p = (true, None) → isDir fs' p = (true, None).
Proof.
  intros [Hcwd Hkept]. rewrite !store_facts.isDir_true.
  unfold os.Stat, os.resolve. rewrite Hcwd.
  destruct (string_eqb p ""); [done |].
  destruct (os.node_at (nodes fs) _) as [[|c]|] eqn:Hk; [|done..].
  intros _. by rewrite (Hkept _ Hk).
Qed.

Lemma finish_ok (st : FS * option error) (repo0 : Repository) (fs0 fs' : FS)
    (repo : Repository) :
  match st with
  | (f, Some e0) => (f, inr e0)
  | (f, None) => (f, inl repo0)
  end = (fs', inl repo) →
  (∀ f, st = (f, None) → kept fs0 f) →
  repo = repo0 ∧ kept fs0 fs'.
Proof.
  destruct st as [f [e0|]]; [done |].
  intros [= <- <-] Hst. split; [done |]. by apply Hst.
Qed.

(** What a successful [CreateRepository] has gone through. *)
Lemma CreateRepository_steps (fs fs' : FS) (dir : string) (repo : Repository) :
  CreateRepository fs dir = (fs', inl repo) →
  ∃ fs0,
    os.MkdirAll fs (path.Join [dir; ".git"]) = (fs0, None) ∧
    OpenRepository fs0 dir = inl repo ∧
    kept fs0 fs'.
Proof.
  unfold CreateRepository.
  destruct (os.MkdirAll fs _) as [fs0 [e0|]] eqn:Hmk.
  { by destruct (is_ErrExist e0). }
  destruct (OpenRepository fs0 dir) as [repo0 | e1] eqn:Hopen; [|done].
  set (step1 := match isDir fs0 (workdir repo0) with
                | (_, Some e2) => _ | (true, None) => _ | (false, None) => _ end).
  assert (H1 : ∀ f, step1 = (f, None) → kept fs0 f).
  { subst step1. intros f.
    destruct (isDir fs0 (workdir repo0)) as [[|] [e2|]]; try done.
    - intros [= <-]. apply kept_refl.
    - destruct (os.MkdirAll fs0 _) as [fs2 [e2|]] eqn:Hmk2; [done |].
      intros [= <-]. by apply (MkdirAll_kept _ _ _ _ Hmk2). }
  clearbody step1.
  assert (Hmkdirs : ∀ ctx chunks (st : FS * option error),
            (∀ f, st = (f, None) → kept fs0 f) →
            ∀ f,
              match st with
              | (fs2, Some e2) => (fs2, Some e2)
              | (fs2, None) =>
                  match DirPath repo0 fs2 true chunks with
                  | (fs3, inl _) => (fs3, None)
                  | (fs3, inr e3) => (fs3, Some (Wrap ctx e3))
                  end
              end = (f, None) → kept fs0 f).
  { intros ctx chunks [fs2 [e2|]] Hst f; [done |].
    destruct (DirPath repo0 fs2 true chunks) as [fs3 [full | e3]] eqn:Hdir; [|done].
    intros [= <-]. apply (kept_trans _ fs2); [by apply Hst |].
    by apply (DirPath_kept _ _ _ _ _ _ Hdir). }
  assert (Hwrite : ∀ ctx content name (st : FS * option error),
            (∀ f, st = (f, None) → kept fs0 f) →
            ∀ f,
              match st with
              | (fs2, Some e2) => (fs2, Some e2)
              | (fs2, None) =>
                  match WriteFile repo0 fs2 true (raw content) [name] with
                  | (fs3, None) => (fs3, None)
                  | (fs3, Some e3) => (fs3, Some (Wrap ctx e3))
                  end
              end = (f, None) → kept fs0 f).
  { intros ctx content name [fs2 [e2|]] Hst f; [done |].
    destruct (WriteFile repo0 fs2 true (raw content) [name]) as [fs3 [e3|]] eqn:Hw;
      [done |].
    intros [= <-]. apply (kept_trans _ fs2); [by apply Hst |].
    by apply (WriteFile_kept _ _ _ _ _ _ _ Hw). }
  cbv zeta beta. intros Hres.
  apply (finish_ok _ repo0 fs0) in Hres as [-> Hkept].
  - exists fs0. done.
  - apply Hwrite, Hwrite, Hwrite, Hmkdirs, Hmkdirs, Hmkdirs, Hmkdirs, H1.
Qed.

End keep_facts.

(** A repository created at an absolute, clean path is found from that
    path, and the search returns the repository that the creation
    returned. *)
Theorem CreateRepository_then_FindRepository (fuel : nat) (fs fs' : FS)
    (dir : string) (repo : Repository) :
  filepath.Abs fs dir = dir →
  CreateRepository fs dir = (fs', inl repo) →
  FindRepository (S fuel) fs' dir = Some (inl repo).
Proof.
  intros Habs Hcreate.
  apply keep_facts.CreateRepository_steps in Hcreate as (fs0 & Hmk & Hopen & Hkept).
  pose proof (keep_facts.MkdirAll_kept _ _ _ _ Hmk) as Hkept0.
  apply store_facts.MkdirAll_isDir, store_facts.isDir_true in Hmk.
  unfold FindRepository.
  replace (filepath.Abs fs' dir) with dir; cycle 1.
  { rewrite <- Habs at 1. unfold filepath.Abs.
    destruct Hkept as [-> _]. by destruct Hkept0 as [-> _]. }
  cbn [FindRepository_loop]. unfold FindRepository_step.
  rewrite (keep_facts.kept_isDir _ _ _ Hkept Hmk).
  unfold OpenRepository in *.
  destruct (isDir fs0 dir) as [[|] [e|]] eqn:Hdir; try done.
  injection Hopen as <-.
  by rewrite (keep_facts.kept_isDir _ _ _ Hkept Hdir).
Qed.

Lemma cmdHashObject_blob_is_readable_witness :
  ∃ repo,
    FindRepository 3 hash_example.store "." = Some (inl repo) ∧
    hex.EncodeToString (example.write hash_example.store "blob" (raw "hi")).2.1 +:+ nl
    = hex.EncodeToString (sha1.Sum (Hash := sha1.fips) (frame "blob" (raw "hi"))) +:+ nl ∧
    ReadObject (codec := zlib.plain) repo
      (example.write hash_example.store "blob" (raw "hi")).1
      (sha1.Sum (Hash := sha1.fips) (frame "blob" (raw "hi")))
    = Some (Ok (OBlob {| Data := raw "hi" |})).
Proof.
  apply (cmdHashObject_blob_is_readable (hash := sha1.fips) (codec := zlib.plain)
           3 hash_example.store _ "a.txt" (raw "hi")).
  - vm_compute. reflexivity.
  - vm_compute. discriminate.
  - vm_compute. reflexivity.
Defined.

Lemma cmdCheckout_commit_without_tree_panics_witness :
  cmdCheckout (codec := zlib.plain) 3 command_example.treeless.1
    [hex.EncodeToString command_example.treeless.2.1; "/out"]
  = Some (command_example.treeless.1, Panic "index out of range [0] with length 0").
Proof.
  apply (cmdCheckout_commit_without_tree_panics (hash := sha1.fips)
           (codec := zlib.plain) 3 command_example.inside _ example.repo
           ("author", "Bob R") [] "no tree").
  - repeat constructor; discriminate.
  - repeat constructor. discriminate.
  - vm_compute. discriminate.
  - vm_compute. reflexivity.
  - vm_compute. reflexivity.
Defined.

Lemma cmdTag_does_not_resolve_witness :
  ∃ repo,
    FindRepository 3 command_example.inside "." = Some (inl repo) ∧
    ResolveRef 2 repo command_example.tagged
      ("ref: " +:+ path.Join [gitdir repo; path.Join ["refs"; "tags"; "v1"]])
    = Some (Ok (ref_example.id, Some (InvalidByteError LF))).
Proof.
  apply (cmdTag_does_not_resolve 3 0 command_example.inside command_example.tagged
           "v1" ref_example.id).
  vm_compute. reflexivity.
Defined.

Lemma CreateRepository_then_FindRepository_witness :
  FindRepository 1 example.fresh "/r" = Some (inl example.repo).
Proof.
  apply (CreateRepository_then_FindRepository 0 {| cwd := "/"; nodes := ∅ |}
           example.fresh "/r" example.repo).
  - vm_compute. reflexivity.
  - vm_compute. reflexivity.
Defined.


(** * Paths and keys *)

Module join_facts.
Import path.

Lemma split_from_app (a b cur : bytes) :
  split_from (a ++ SLASH :: b) cur = split_from a cur ++ split_from b [].
Proof.
  revert cur. induction a as [|c a IH]; intros cur; cbn [app split_from].
  - done.
  - destruct (Ascii.eqb c SLASH); by rewrite IH.
Qed.

Lemma split_from_one (a cur : bytes) :
  no_byte SLASH a → split_from a cur = [str (rev cur ++ a)].
Proof.
  revert cur. induction a as [|c a IH]; intros cur Ha; cbn [split_from].
  - by rewrite app_nil_r.
  - inversion Ha as [|? ? Hc Hrest]; subst. rewrite Hc, IH by done.
    cbn [rev]. by rewrite <- app_assoc.
Qed.

Lemma split_app (x y : string) : split (x +:+ "/" +:+ y) = split x ++ split y.
Proof.
  unfold split. rewrite !raw_app.
  change (raw "/" ++ raw y) with (SLASH :: raw y). apply split_from_app.
Qed.

Lemma split_one (n : string) : no_byte SLASH (raw n) → split n = [n].
Proof.
  intros Hn. unfold split. rewrite split_from_one by done.
  cbn [rev app]. by rewrite str_raw.
Qed.

Lemma split_join (ns : list string) :
  ns ≠ [] → Forall (λ n, no_byte SLASH (raw n)) ns → split (join_slash ns) = ns.
Proof.
  induction ns as [|n ns IH]; [done |]. intros _ Hall.
  inversion Hall as [|? ? Hn Hrest]; subst.
  destruct ns as [|n' ns]; cbn [join_slash].
  - by apply split_one.
  - rewrite split_app, split_one by done. cbn [app]. f_equal. by apply IH.
Qed.

(** The elements that [split] gives have no slash. *)
Lemma split_from_slashfree (l cur : bytes) :
  no_byte SLASH cur → Forall (λ e, no_byte SLASH (raw e)) (split_from l cur).
Proof.
  revert cur. induction l as [|c l IH]; intros cur Hcur; cbn [split_from].
  - constructor; [|constructor]. rewrite raw_str.
    unfold no_byte in *. by apply Forall_rev.
  - destruct (Ascii.eqb c SLASH) eqn:Hc.
    + constructor; [|apply IH; constructor]. rewrite raw_str.
      unfold no_byte in *. by apply Forall_rev.
    + apply IH. by constructor.
Qed.

Lemma split_slashfree (p : string) : Forall (λ e, no_byte SLASH (raw e)) (split p).
Proof. apply split_from_slashfree. constructor. Qed.

Lemma plain_tests (e : string) :
  plain e → string_eqb e "" = false ∧ string_eqb e "." = false ∧
            string_eqb e ".." = false.
Proof.
  intros (H1 & H2 & H3 & _). unfold string_eqb.
  by rewrite !(proj2 (String.eqb_neq _ _)).
Qed.

(** Plain elements are pushed one after the other. *)
Lemma clean_elems_plain (root : bool) (ns : list string) : ∀ out,
  Forall plain ns → clean_elems root ns out = rev out ++ ns.
Proof.
  induction ns as [|n ns IH]; intros out Hall; cbn [clean_elems].
  - by rewrite app_nil_r.
  - inversion Hall as [|? ? Hn Hrest]; subst.
    destruct (plain_tests n Hn) as (-> & -> & ->). cbn [orb].
    rewrite IH by done. cbn [rev]. by rewrite <- app_assoc.
Qed.

Lemma clean_elems_app (root : bool) (es ns : list string) : ∀ out,
  Forall plain ns →
  clean_elems root (es ++ ns) out = clean_elems root es out ++ ns.
Proof.
  induction es as [|e es IH]; intros out Hall; cbn [app].
  - rewrite clean_elems_plain by done. cbn [clean_elems]. done.
  - cbn [clean_elems].
    destruct (string_eqb e "" || string_eqb e "."); [by apply IH |].
    destruct (string_eqb e "..").
    + destruct out as [|top out'].
      * destruct root; by apply IH.
      * destruct (string_eqb top ".."); by apply IH.
    + by apply IH.
Qed.

(** At the root, what is kept is plain. *)
Lemma clean_elems_rooted_plain (es : list string) : ∀ out,
  Forall (λ e, no_byte SLASH (raw e)) es → Forall plain out →
  Forall plain (clean_elems true es out).
Proof.
  induction es as [|e es IH]; intros out Hes Hout; cbn [clean_elems].
  - by apply Forall_rev.
  - inversion Hes as [|? ? He Hrest]; subst.
    destruct (string_eqb e "" || string_eqb e ".") eqn:H1; [by apply IH |].
    destruct (string_eqb e "..") eqn:H2.
    + destruct out as [|top out']; [by apply IH |].
      inversion Hout as [|? ? Htop Hout']; subst.
      destruct (plain_tests top Htop) as (_ & _ & ->). by apply IH.
    + apply IH; [done |]. constructor; [|done].
      apply orb_false_elim in H1 as [H0 H1]. unfold string_eqb in *.
      apply String.eqb_neq in H0, H1, H2. done.
Qed.

Lemma key_plain (g : string) : Forall plain (path_key g).
Proof. apply clean_elems_rooted_plain; [apply split_slashfree | constructor]. Qed.

Lemma resolve_rooted (fs : FS) (g : string) :
  rooted g = true → os.resolve fs g = path_key g.
Proof. intros Hg. unfold os.resolve. by rewrite Hg. Qed.

Lemma plain_slashfree (ns : list string) :
  Forall plain ns → Forall (λ n, no_byte SLASH (raw n)) ns.
Proof.
  intros H. eapply Forall_impl; [exact H |]. by intros n (_ & _ & _ & Hn).
Qed.

(** The path that has the plain elements [L], from the root. *)
Lemma resolve_form (fs : FS) (L : list string) :
  Forall plain L → os.resolve fs ("/" +:+ join_slash L) = L.
Proof.
  intros HL. rewrite resolve_rooted by done. unfold path_key.
  change ("/" +:+ join_slash L) with ("" +:+ "/" +:+ join_slash L).
  rewrite split_app. change (split "") with [""]. cbn [app clean_elems].
  change (string_eqb "" "" || string_eqb "" ".") with true. cbv iota.
  destruct L as [|n L].
  - done.
  - rewrite split_join; [| done | by apply plain_slashfree].
    by rewrite clean_elems_plain.
Qed.

Lemma join_slash_rooted (g : string) (ns : list string) :
  rooted g = true → rooted (join_slash (g :: ns)) = true.
Proof.
  intros Hg. apply path_facts.rooted_inv in Hg as [rest ->].
  by destruct ns.
Qed.

Lemma split_join_rooted (g : string) (ns : list string) :
  Forall plain ns → split (join_slash (g :: ns)) = split g ++ ns.
Proof.
  intros Hns. destruct ns as [|n ns]; cbn [join_slash].
  - by rewrite app_nil_r.
  - rewrite split_app. f_equal.
    apply (split_join (n :: ns)); [done | by apply plain_slashfree].
Qed.

Lemma filter_plain (ns : list string) :
  Forall plain ns → filter (λ e, e ≠ "") ns = ns.
Proof.
  induction 1 as [|n ns Hn Hns IH]; [done |].
  rewrite filter_cons_True by apply Hn. by rewrite IH.
Qed.

(** Joining a rooted path with plain elements. *)
Lemma Join_form (g : string) (ns : list string) :
  rooted g = true → Forall plain ns →
  Join (g :: ns) = "/" +:+ join_slash (path_key g ++ ns).
Proof.
  intros Hg Hns. unfold Join.
  rewrite filter_cons_True; cycle 1.
  { apply path_facts.rooted_inv in Hg as [rest ->]. done. }
  rewrite filter_plain by done. unfold Clean.
  rewrite join_slash_rooted by done.
  rewrite split_join_rooted, clean_elems_app by done. done.
Qed.

(** Joining plain elements gives them back, slashes between them. *)
Lemma Join_plain (n : string) (ns : list string) :
  Forall plain (n :: ns) → Join (n :: ns) = join_slash (n :: ns).
Proof.
  intros Hall. unfold Join. rewrite filter_plain by done. unfold Clean.
  assert (Hr : rooted (join_slash (n :: ns)) = false).
  { inversion Hall as [|? ? (Hne & _ & _ & Hsl) _]; subst.
    destruct n as [|c n]; [done |].
    assert (rooted (String c n) = false) as Hc.
    { inversion Hsl; subst. done. }
    by destruct ns. }
  rewrite Hr, split_join, clean_elems_plain; [| done.. | by apply plain_slashfree].
  cbn [rev app].
  destruct (string_eqb (join_slash (n :: ns)) "") eqn:Hempty; [|done].
  exfalso. unfold string_eqb in Hempty. apply String.eqb_eq in Hempty.
  inversion Hall as [|? ? (Hne & _) _]; subst.
  destruct n as [|c n]; [done |]. by destruct ns.
Qed.

Lemma Join_nested (g : string) (ns : list string) :
  rooted g = true → Forall plain ns → Join [g; Join ns] = Join (g :: ns).
Proof.
  intros Hg Hns. destruct ns as [|n ns].
  - assert (Hg' : g ≠ "").
    { apply path_facts.rooted_inv in Hg as [rest ->]. done. }
    change (Join []) with "". unfold Join.
    rewrite (filter_cons_True _ g [""]) by done.
    rewrite (filter_cons_True _ g []) by done.
    rewrite filter_cons_False by (intros H; by apply H).
    by rewrite filter_nil.
  - rewrite (Join_plain n ns) by done. unfold Join.
    assert (Hg' : g ≠ "").
    { apply path_facts.rooted_inv in Hg as [rest ->]. done. }
    assert (Hj : join_slash (n :: ns) ≠ "").
    { inversion Hns as [|? ? (Hne & _) _]; subst.
      destruct n as [|c n]; [done |]. by destruct ns. }
    rewrite (filter_cons_True _ g [join_slash (n :: ns)]) by done.
    rewrite (filter_cons_True _ (join_slash (n :: ns)) []) by done.
    rewrite (filter_cons_True _ g (n :: ns)) by done.
    rewrite (filter_plain (n :: ns)) by done.
    rewrite filter_nil. unfold Clean.
    rewrite (join_slash_rooted g [join_slash (n :: ns)]) by done.
    rewrite (join_slash_rooted g (n :: ns)) by done.
    rewrite (split_join_rooted g (n :: ns)) by done.
    change (join_slash [g; join_slash (n :: ns)])
      with (g +:+ "/" +:+ join_slash (n :: ns)).
    rewrite split_app, split_join; [done | done | by apply plain_slashfree].
Qed.

(** The key of a joined path. *)
Lemma resolve_Join (fs : FS) (g : string) (ns : list string) :
  rooted g = true → Forall plain ns →
  os.resolve fs (Join (g :: ns)) = path_key g ++ ns.
Proof.
  intros Hg Hns. rewrite Join_form by done. apply resolve_form.
  apply Forall_app. split; [apply key_plain | done].
Qed.

Lemma Join_rooted (g : string) (ns : list string) :
  rooted g = true → Forall plain ns → rooted (Join (g :: ns)) = true.
Proof. intros Hg Hns. by rewrite Join_form. Qed.

Lemma key_Join (g : string) (ns : list string) :
  rooted g = true → Forall plain ns → path_key (Join (g :: ns)) = path_key g ++ ns.
Proof.
  intros Hg Hns.
  rewrite <- (resolve_rooted {| cwd := ""; nodes := ∅ |}) by by apply Join_rooted.
  by apply resolve_Join.
Qed.

End join_facts.

(** * Entries that stay *)

Module stay_facts.

Lemma Mkdir_stays (m m' : gmap (list string) node) (k : list string)
    (e : option error) :
  os.Mkdir m k = (m', e) →
  ∀ k' n, os.node_at m k' = Some n → os.node_at m' k' = Some n.
Proof.
  unfold os.Mkdir.
  destruct (os.node_at m k) as [n0|] eqn:Hk; [by intros [= <- <-] |].
  destruct (os.node_at m (removelast k)) as [[|c]|]; try by intros [= <- <-].
  intros [= <- <-] k' n Hk'.
  destruct k' as [|x k']; [done |]. cbn [os.node_at] in *.
  rewrite lookup_insert_ne; [done |].
  intros ->. cbn [os.node_at] in Hk. congruence.
Qed.

(** [MkdirAll] changes no entry that exists. *)
Lemma MkdirAll_from_stays (rk : list string) : ∀ m m' e,
  os.MkdirAll_from rk m = (m', e) →
  ∀ k n, os.node_at m k = Some n → os.node_at m' k = Some n.
Proof.
  induction rk as [|x rparent IH]; intros m m' e; cbn [os.MkdirAll_from].
  - destruct (os.node_at m (rev [])) as [[|c]|]; by intros [= <- <-].
  - destruct (os.node_at m (rev (x :: rparent))) as [[|c]|];
      try by intros [= <- <-].
    destruct (os.MkdirAll_from rparent m) as [m1 [e1|]] eqn:Hparent.
    + intros [= <- <-]. by apply (IH _ _ _ Hparent).
    + intros Hmk k n Hk. apply (Mkdir_stays _ _ _ _ Hmk).
      by apply (IH _ _ _ Hparent).
Qed.

Lemma MkdirAll_stays (fs fs' : FS) (p : string) (e : option error) :
  os.MkdirAll fs p = (fs', e) →
  cwd fs' = cwd fs ∧
  ∀ k n, os.node_at (nodes fs) k = Some n → os.node_at (nodes fs') k = Some n.
Proof.
  unfold os.MkdirAll. destruct (string_eqb p ""); [by intros [= <- <-] |].
  destruct (os.MkdirAll_from _ _) as [m e0] eqn:Hfrom.
  intros [= <- <-]. split; [done |]. cbn [nodes].
  by apply (MkdirAll_from_stays _ _ _ _ Hfrom).
Qed.

Lemma DirPath_stays (r : Repository) (fs fs' : FS) (mkdir : bool)
    (chunks : list string) (res : string + error) :
  DirPath r fs mkdir chunks = (fs', res) →
  cwd fs' = cwd fs ∧
  ∀ k n, os.node_at (nodes fs) k = Some n → os.node_at (nodes fs') k = Some n.
Proof.
  unfold DirPath.
  destruct (isDir fs _) as [[|] [e|]]; try by intros [= <- <-].
  destruct (negb mkdir); [by intros [= <- <-] |].
  destruct (os.MkdirAll fs _) as [fs1 [e|]] eqn:Hmk;
    intros [= <- <-]; by apply (MkdirAll_stays _ _ _ _ Hmk).
Qed.

(** Writing a file changes no entry under another key. *)
Lemma WriteFile_stays (fs fs' : FS) (p : string) (content : bytes)
    (e : option error) :
  os.WriteFile fs p content = (fs', e) →
  cwd fs' = cwd fs ∧
  ∀ k n, k ≠ os.resolve fs p →
         os.node_at (nodes fs) k = Some n → os.node_at (nodes fs') k = Some n.
Proof.
  unfold os.WriteFile. destruct (string_eqb p ""); [by intros [= <- <-] |].
  assert (Hput : ∀ k n, k ≠ os.resolve fs p →
            os.node_at (nodes fs) k = Some n →
            os.node_at (<[os.resolve fs p := File content]> (nodes fs)) k = Some n).
  { intros k n Hne Hk. destruct k as [|x k]; [done |]. cbn [os.node_at] in *.
    by rewrite lookup_insert_ne. }
  destruct (os.node_at (nodes fs) (os.resolve fs p)) as [[|c]|] eqn:Hk.
  - by intros [= <- <-].
  - by intros [= <- <-].
  - destruct (os.node_at (nodes fs) (removelast (os.resolve fs p))) as [[|c]|];
      by intros [= <- <-].
Qed.

Lemma ReadFile_node (fs : FS) (p : string) (c : bytes) :
  os.ReadFile fs p = inl c ↔
  string_eqb p "" = false ∧ os.node_at (nodes fs) (os.resolve fs p) = Some (File c).
Proof.
  unfold os.ReadFile. destruct (string_eqb p ""); [by split; [|intros [? _]] |].
  destruct (os.node_at (nodes fs) (os.resolve fs p)) as [[|c']|];
    (split; [intros Hc; by simplify_eq | intros [_ Hc]; by simplify_eq]).
Qed.

(** A file that stays is read as before. *)
Lemma ReadFile_stays (fs fs' : FS) (p : string) (c : bytes) :
  cwd fs' = cwd fs →
  (os.node_at (nodes fs) (os.resolve fs p) = Some (File c) →
   os.node_at (nodes fs') (os.resolve fs p) = Some (File c)) →
  os.ReadFile fs p = inl c → os.ReadFile fs' p = inl c.
Proof.
  intros Hcwd Hk. rewrite !ReadFile_node. intros [Hp Hnode].
  split; [done |]. unfold os.resolve in *. rewrite Hcwd. by apply Hk.
Qed.

End stay_facts.

(** * Objects in the store *)

Module object_facts.

Lemma hexdigits_plain (c : ascii) :
  Forall (λ d, Ascii.eqb d path.SLASH = false ∧ d ≠ "."%char)
    [hex.hexdigit (nat_of_ascii c / 16); hex.hexdigit (nat_of_ascii c mod 16)].
Proof.
  destruct c as [[] [] [] [] [] [] [] []];
    (constructor; [|constructor; [|constructor]]); vm_compute; done.
Qed.

Lemma Encode_chars (b : bytes) :
  Forall (λ d, Ascii.eqb d path.SLASH = false ∧ d ≠ "."%char)
    (raw (hex.EncodeToString b)).
Proof.
  induction b as [|c b IH]; [constructor |].
  cbn [hex.EncodeToString raw list_ascii_of_string]. fold (raw (hex.EncodeToString b)).
  pose proof (hexdigits_plain c) as Hc.
  inversion Hc as [|? ? H1 Hc']; subst. inversion Hc' as [|? ? H2 _]; subst.
  constructor; [done |]. constructor; done.
Qed.

Lemma Encode_length (b : bytes) :
  length (raw (hex.EncodeToString b)) = (2 * length b)%nat.
Proof.
  induction b as [|c b IH]; [done |].
  cbn [hex.EncodeToString raw list_ascii_of_string length].
  fold (raw (hex.EncodeToString b)). rewrite IH. lia.
Qed.

Lemma plain_of_chars (l : bytes) :
  l ≠ [] →
  Forall (λ d, Ascii.eqb d path.SLASH = false ∧ d ≠ "."%char) l →
  plain (str l).
Proof.
  intros Hne Hall. destruct l as [|c l]; [done |].
  inversion Hall as [|? ? [Hs Hd] Hrest]; subst.
  unfold plain. rewrite raw_str. cbn [str string_of_list_ascii].
  repeat split; try (intros [= ? ?]; done); try done.
  unfold no_byte. eapply Forall_impl; [exact Hall |]. by intros d [? _].
Qed.

(** The two path elements of an identifier of 20 bytes. *)
Lemma object_elems_plain (sha : bytes) :
  length sha = 20%nat →
  Forall plain [ "objects";
                 str (take 2 (raw (hex.EncodeToString sha)));
                 str (drop 2 (raw (hex.EncodeToString sha))) ].
Proof.
  intros Hlen. pose proof (Encode_length sha) as Hl. rewrite Hlen in Hl.
  pose proof (Encode_chars sha) as Hc.
  constructor; [|constructor; [|constructor; [|constructor]]].
  - repeat split; try done. repeat constructor.
  - apply plain_of_chars.
    + intros Hnil. apply (f_equal length) in Hnil.
      rewrite length_take, Hl in Hnil. vm_compute in Hnil. done.
    + by apply Forall_take.
  - apply plain_of_chars.
    + intros Hnil. apply (f_equal length) in Hnil.
      rewrite length_drop, Hl in Hnil. vm_compute in Hnil. done.
    + by apply Forall_drop.
Qed.

(** Where an object is kept. *)
Lemma object_key (r : Repository) (fs : FS) (sha : bytes) :
  path.rooted (gitdir r) = true → length sha = 20%nat →
  os.resolve fs (object_path r (hex.EncodeToString sha))
  = path_key (gitdir r)
      ++ [ "objects";
           str (take 2 (raw (hex.EncodeToString sha)));
           str (drop 2 (raw (hex.EncodeToString sha))) ].
Proof.
  intros Hg Hlen. unfold object_path.
  apply join_facts.resolve_Join; [done |]. by apply object_elems_plain.
Qed.

Lemma str_inj (a b : bytes) : str a = str b → a = b.
Proof. intros H. apply (f_equal raw) in H. by rewrite !raw_str in H. Qed.

(** Different identifiers are kept under different keys. *)
Lemma object_key_inj (r : Repository) (fs : FS) (sha sha' : bytes) :
  path.rooted (gitdir r) = true → length sha = 20%nat → length sha' = 20%nat →
  os.resolve fs (object_path r (hex.EncodeToString sha))
  = os.resolve fs (object_path r (hex.EncodeToString sha')) →
  sha = sha'.
Proof.
  intros Hg Hlen Hlen'. rewrite !object_key by done.
  intros Heq. apply app_inv_head in Heq. injection Heq as Ha Hb.
  apply str_inj in Ha, Hb.
  assert (Hraw : raw (hex.EncodeToString sha) = raw (hex.EncodeToString sha')).
  { rewrite <- (take_drop 2 (raw (hex.EncodeToString sha))).
    rewrite <- (take_drop 2 (raw (hex.EncodeToString sha'))). congruence. }
  assert (Hs : hex.EncodeToString sha = hex.EncodeToString sha').
  { rewrite <- (str_raw (hex.EncodeToString sha)), Hraw. apply str_raw. }
  pose proof (hex_facts.Decode_Encode sha) as H1.
  pose proof (hex_facts.Decode_Encode sha') as H2.
  rewrite Hs in H1. congruence.
Qed.

Section Reading.

Context {codec : zlib.Codec}.

(** Reading depends on the file of the object only. *)
Lemma ReadObject_file (r : Repository) (fs fs' : FS) (sha : bytes) :
  os.ReadFile fs' (object_path r (hex.EncodeToString sha))
  = os.ReadFile fs (object_path r (hex.EncodeToString sha)) →
  ReadObject r fs' sha = ReadObject r fs sha.
Proof. intros H. unfold ReadObject. by rewrite H. Qed.

Lemma ReadObject_Ok (r : Repository) (fs : FS) (sha : bytes) (obj : Object) :
  ReadObject r fs sha = Some (Ok obj) →
  length sha = 20%nat ∧
  ∃ c, os.ReadFile fs (object_path r (hex.EncodeToString sha)) = inl c.
Proof.
  unfold ReadObject.
  destruct (length sha =? 20)%nat eqn:Hlen; [|done].
  apply Nat.eqb_eq in Hlen. cbn [negb].
  destruct (os.ReadFile fs _) as [c | e]; [by eauto |].
  by destruct e.
Qed.

(** An object that is read stays as it is when no entry that exists is
    changed, except possibly under the key [k], which is not its own. *)
Lemma ReadObject_stays (r : Repository) (fs fs' : FS) (sha : bytes) (obj : Object)
    (other : list string → Prop) :
  cwd fs' = cwd fs →
  (∀ k n, ¬ other k →
          os.node_at (nodes fs) k = Some n → os.node_at (nodes fs') k = Some n) →
  ¬ other (os.resolve fs (object_path r (hex.EncodeToString sha))) →
  ReadObject r fs sha = Some (Ok obj) →
  ReadObject r fs' sha = Some (Ok obj).
Proof.
  intros Hcwd Hstay Hk Hread.
  destruct (ReadObject_Ok _ _ _ _ Hread) as (Hlen & c & Hfile).
  rewrite <- Hread. apply ReadObject_file. rewrite Hfile.
  apply (stay_facts.ReadFile_stays fs); [done | | done].
  by apply Hstay.
Qed.

End Reading.

End object_facts.

Section StoreKeeps.

Context {hash : sha1.Hash} {codec : zlib.Codec}.

(** Writing an object leaves every object with another identifier as it
    was: what could be read before the call, successful or not, is read
    after it. *)
Theorem WriteObject_keeps_objects (r : Repository) (fs fs' : FS) (kind : string)
    (content : bytes) (written : bytes) (e : option error)
    (sha : bytes) (obj : Object) :
  path.rooted (gitdir r) = true →
  WriteObject r fs kind content = (fs', (written, e)) →
  sha ≠ written →
  ReadObject r fs sha = Some (Ok obj) →
  ReadObject r fs' sha = Some (Ok obj).
Proof.
  intros Hg Hwrite Hne Hread. unfold WriteObject in Hwrite.
  destruct (object_facts.ReadObject_Ok _ _ _ _ Hread) as (Hlen & _).
  destruct (DirPath r fs true _) as [fs1 [full | e1]] eqn:Hdir.
  - apply stay_facts.DirPath_stays in Hdir as [Hcwd1 Hstay1].
    assert (Hread1 : ReadObject r fs1 sha = Some (Ok obj)).
    { apply (object_facts.ReadObject_stays r fs fs1 sha obj (λ _, False));
        [done | | tauto | done].
      intros k n _. apply Hstay1. }
    destruct (os.WriteFile fs1 _ _) as [fs2 e2] eqn:Hos.
    assert (fs' = fs2 ∧ written = sha1.Sum (frame kind content)) as [-> ->].
    { by destruct e2; injection Hwrite as <- <- _. }
    apply stay_facts.WriteFile_stays in Hos as [Hcwd2 Hstay2].
    apply (object_facts.ReadObject_stays r fs1 fs2 sha obj
             (λ k, k = os.resolve fs1
                         (object_path r (hex.EncodeToString
                                           (sha1.Sum (frame kind content))))));
      [done | | | done].
    + intros k n Hk. by apply Hstay2.
    + intros Heq. apply Hne.
      apply (object_facts.object_key_inj r fs1); [done | done | | done].
      apply sha1.Sum_length.
  - injection Hwrite as <- <- _.
    apply stay_facts.DirPath_stays in Hdir as [Hcwd1 Hstay1].
    apply (object_facts.ReadObject_stays r fs _ sha obj (λ _, False));
      [done | | tauto | done].
    intros k n _. apply Hstay1.
Qed.

End StoreKeeps.

(** * The layout of a created repository *)

Module layout_facts.

(** [Repository.WriteFile] changes no entry that exists, except under the
    key of its file. *)
Lemma Repository_WriteFile_stays (r : Repository) (fs fs' : FS) (mkdir : bool)
    (content : bytes) (chunks : list string) (e : option error) :
  WriteFile r fs mkdir content chunks = (fs', e) →
  cwd fs' = cwd fs ∧
  ∀ k n, k ≠ os.resolve fs (path.Join [gitdir r; path.Join chunks]) →
         os.node_at (nodes fs) k = Some n → os.node_at (nodes fs') k = Some n.
Proof.
  unfold WriteFile.
  destruct (if (1 <? length chunks)%nat then _ else _) as [fs1 res] eqn:Hdir.
  assert (H1 : cwd fs1 = cwd fs ∧
            ∀ k n, os.node_at (nodes fs) k = Some n → os.node_at (nodes fs1) k = Some n).
  { destruct (1 <? length chunks)%nat.
    - by apply (stay_facts.DirPath_stays _ _ _ _ _ _ Hdir).
    - by injection Hdir as <- _. }
  destruct H1 as [Hcwd1 Hstay1].
  destruct res as [full | e1];
    [|intros [= <- <-]; split; [done | intros k n _; apply Hstay1]].
  destruct (os.WriteFile fs1 _ content) as [fs2 e2] eqn:Hos.
  intros Hres. assert (fs' = fs2) as -> by (by destruct e2; injection Hres as <- _).
  apply stay_facts.WriteFile_stays in Hos as [Hcwd2 Hstay2].
  split; [congruence |]. intros k n Hk Hnode.
  apply Hstay2; [|by apply Hstay1].
  unfold os.resolve in *. by rewrite Hcwd1.
Qed.

(** What has been written is read as long as later writes go elsewhere. *)
Lemma WriteFile_read (r : Repository) (fs fs' : FS) (mkdir : bool)
    (content : bytes) (chunks : list string) :
  WriteFile r fs mkdir content chunks = (fs', None) →
  os.ReadFile fs' (path.Join [gitdir r; path.Join chunks]) = inl content.
Proof.
  unfold WriteFile.
  destruct (if (1 <? length chunks)%nat then _ else _) as [fs1 [full | e]];
    [|done].
  destruct (os.WriteFile fs1 _ content) as [fs2 [e|]] eqn:Hwrite; [done |].
  intros [= <-]. by apply os_facts.WriteFile_ReadFile in Hwrite.
Qed.

Lemma file_key (r : Repository) (fs : FS) (name : string) :
  path.rooted (gitdir r) = true → plain name →
  os.resolve fs (path.Join [gitdir r; path.Join [name]]) = path_key (gitdir r) ++ [name].
Proof.
  intros Hg Hname.
  rewrite join_facts.Join_nested by (done || by constructor).
  apply join_facts.resolve_Join; [done | by constructor].
Qed.

(** A file of the metadata directory stays when another one is written. *)
Lemma WriteFile_other (r : Repository) (fs fs' : FS) (mkdir : bool)
    (content : bytes) (name name' : string) (e : option error) (c : bytes) :
  path.rooted (gitdir r) = true → plain name → plain name' → name ≠ name' →
  WriteFile r fs mkdir content [name'] = (fs', e) →
  os.ReadFile fs (path.Join [gitdir r; path.Join [name]]) = inl c →
  os.ReadFile fs' (path.Join [gitdir r; path.Join [name]]) = inl c.
Proof.
  intros Hg Hn Hn' Hne Hwrite.
  apply Repository_WriteFile_stays in Hwrite as [Hcwd Hstay].
  apply stay_facts.ReadFile_stays; [done |].
  apply Hstay. rewrite !file_key by done.
  intros Heq. apply app_inv_head in Heq. congruence.
Qed.

(** The steps that a successful [CreateRepository] has taken. *)
Lemma CreateRepository_trace (fs fs' : FS) (dir : string) (repo : Repository) :
  CreateRepository fs dir = (fs', inl repo) →
  ∃ fs0 fs1 fs2 fs3 fs4 fs5 fs6 fs7 p2 p3 p4 p5,
    os.MkdirAll fs (path.Join [dir; ".git"]) = (fs0, None) ∧
    OpenRepository fs0 dir = inl repo ∧
    kept fs0 fs1 ∧
    DirPath repo fs1 true ["branches"] = (fs2, inl p2) ∧
    DirPath repo fs2 true ["objects"] = (fs3, inl p3) ∧
    DirPath repo fs3 true ["refs"; "tags"] = (fs4, inl p4) ∧
    DirPath repo fs4 true ["refs"; "heads"] = (fs5, inl p5) ∧
    WriteFile repo fs5 true (raw defaultDescription) ["description"] = (fs6, None) ∧
    WriteFile repo fs6 true (raw defaultHEAD) ["HEAD"] = (fs7, None) ∧
    WriteFile repo fs7 true (raw defaultConfig) ["config"] = (fs', None).
Proof.
  unfold CreateRepository.
  destruct (os.MkdirAll fs _) as [fs0 [e0|]] eqn:Hmk.
  { by destruct (is_ErrExist e0). }
  destruct (OpenRepository fs0 dir) as [repo0 | e1] eqn:Hopen; [|done].
  set (step1 := match isDir fs0 (workdir repo0) with
                | (_, Some e2) => _ | (true, None) => _ | (false, None) => _ end).
  assert (H1 : ∀ f, step1 = (f, None) → kept fs0 f).
  { subst step1. intros f.
    destruct (isDir fs0 (workdir repo0)) as [[|] [e2|]]; try done.
    - intros [= <-]. apply keep_facts.kept_refl.
    - destruct (os.MkdirAll fs0 _) as [fs2 [e2|]] eqn:Hmk2; [done |].
      intros [= <-]. by apply (keep_facts.MkdirAll_kept _ _ _ _ Hmk2). }
  clearbody step1. cbv zeta beta.
  destruct step1 as [fs1 [e|]]; [done |].
  destruct (DirPath repo0 fs1 true ["branches"]) as [fs2 [p2 | e]] eqn:H2; [|done].
  destruct (DirPath repo0 fs2 true ["objects"]) as [fs3 [p3 | e]] eqn:H3; [|done].
  destruct (DirPath repo0 fs3 true ["refs"; "tags"]) as [fs4 [p4 | e]] eqn:H4; [|done].
  destruct (DirPath repo0 fs4 true ["refs"; "heads"]) as [fs5 [p5 | e]] eqn:H5; [|done].
  destruct (WriteFile repo0 fs5 true (raw defaultDescription) ["description"])
    as [fs6 [e|]] eqn:H6; [done |].
  destruct (WriteFile repo0 fs6 true (raw defaultHEAD) ["HEAD"])
    as [fs7 [e|]] eqn:H7; [done |].
  destruct (WriteFile repo0 fs7 true (raw defaultConfig) ["config"])
    as [fs8 [e|]] eqn:H8; [done |].
  intros [= <- <-].
  exists fs0, fs1, fs2, fs3, fs4, fs5, fs6, fs7, p2, p3, p4, p5.
  split; [done |]. split; [done |]. split; [by apply H1 |].
  repeat (split; [done |]). done.
Qed.

End layout_facts.

(** A repository created at an absolute path has the layout of an empty
    repository: the four directories, and the three files with their
    default contents, whatever was there before. *)
Theorem CreateRepository_layout (fs fs' : FS) (dir : string) (repo : Repository) :
  path.rooted dir = true →
  CreateRepository fs dir = (fs', inl repo) →
  repo = {| workdir := dir; gitdir := path.Join [dir; ".git"] |} ∧
  Forall (λ d, isDir fs' (path.Join [gitdir repo; d]) = (true, None))
    ["branches"; "objects"; "refs/tags"; "refs/heads"] ∧
  os.ReadFile fs' (path.Join [gitdir repo; "description"]) = inl (raw defaultDescription) ∧
  os.ReadFile fs' (path.Join [gitdir repo; "HEAD"]) = inl (raw defaultHEAD) ∧
  os.ReadFile fs' (path.Join [gitdir repo; "config"]) = inl (raw defaultConfig).
Proof.
  intros Hdir Hcreate.
  apply layout_facts.CreateRepository_trace in Hcreate
    as (fs0 & fs1 & fs2 & fs3 & fs4 & fs5 & fs6 & fs7 & p2 & p3 & p4 & p5 &
        Hmk & Hopen & Hk1 & H2 & H3 & H4 & H5 & H6 & H7 & H8).
  assert (Hrepo : repo = {| workdir := dir; gitdir := path.Join [dir; ".git"] |}).
  { unfold OpenRepository in Hopen.
    destruct (isDir fs0 dir) as [[|] [e|]]; by simplify_eq. }
  split; [done |].
  assert (Hg : path.rooted (gitdir repo) = true).
  { rewrite Hrepo. cbn [gitdir]. apply join_facts.Join_rooted; [done |].
    repeat constructor; done. }
  assert (Hplain : ∀ n, n ∈ ["description"; "HEAD"; "config"] → plain n).
  { intros n Hn. repeat (apply elem_of_cons in Hn as [-> | Hn]);
      [repeat split; try done; repeat constructor.. |].
    by apply elem_of_nil in Hn. }
  pose proof (keep_facts.DirPath_kept _ _ _ _ _ _ H3) as K3.
  pose proof (keep_facts.DirPath_kept _ _ _ _ _ _ H4) as K4.
  pose proof (keep_facts.DirPath_kept _ _ _ _ _ _ H5) as K5.
  pose proof (keep_facts.WriteFile_kept _ _ _ _ _ _ _ H6) as K6.
  pose proof (keep_facts.WriteFile_kept _ _ _ _ _ _ _ H7) as K7.
  pose proof (keep_facts.WriteFile_kept _ _ _ _ _ _ _ H8) as K8.
  apply store_facts.DirPath_directory in H2 as [-> D2].
  apply store_facts.DirPath_directory in H3 as [-> D3].
  apply store_facts.DirPath_directory in H4 as [-> D4].
  apply store_facts.DirPath_directory in H5 as [-> D5].
  split; [|split; [|split]].
  - repeat constructor.
    + apply (keep_facts.kept_isDir fs2); [|exact D2].
      repeat (eapply keep_facts.kept_trans; [eassumption |]). apply keep_facts.kept_refl.
    + apply (keep_facts.kept_isDir fs3); [|exact D3].
      repeat (eapply keep_facts.kept_trans; [eassumption |]). apply keep_facts.kept_refl.
    + apply (keep_facts.kept_isDir fs4); [|exact D4].
      repeat (eapply keep_facts.kept_trans; [eassumption |]). apply keep_facts.kept_refl.
    + apply (keep_facts.kept_isDir fs5); [|exact D5].
      repeat (eapply keep_facts.kept_trans; [eassumption |]). apply keep_facts.kept_refl.
  - change "description" with (path.Join ["description"]).
    eapply (layout_facts.WriteFile_other repo fs7 fs' _ _ "description" "config");
      [done | apply Hplain; set_solver | apply Hplain; set_solver | done
      | exact H8 |].
    eapply (layout_facts.WriteFile_other repo fs6 fs7 _ _ "description" "HEAD");
      [done | apply Hplain; set_solver | apply Hplain; set_solver | done
      | exact H7 |].
    by apply layout_facts.WriteFile_read in H6.
  - change "HEAD" with (path.Join ["HEAD"]).
    eapply (layout_facts.WriteFile_other repo fs7 fs' _ _ "HEAD" "config");
      [done | apply Hplain; set_solver | apply Hplain; set_solver | done
      | exact H8 |].
    by apply layout_facts.WriteFile_read in H7.
  - change "config" with (path.Join ["config"]).
    by apply layout_facts.WriteFile_read in H8.
Qed.

(** * Checking out a tree of blobs *)

Module checkout_facts.

Section Loop.

Context {codec : zlib.Codec}.





End Loop.





End checkout_facts.

Section CheckoutBlobs.

Context {codec : zlib.Codec}.


End CheckoutBlobs.

(** * Checking out a commit *)

Module find_facts.



End find_facts.

Section CheckoutCommit.

Context {codec : zlib.Codec}.


End CheckoutCommit.

(** The blob ["hi"] after the blob ["ho"] has been written. *)
Lemma WriteObject_keeps_objects_witness :
  example.read blobs_example.second.1 blobs_example.first.2.1
  = Some (Ok (OBlob {| Data := raw "hi" |})).
Proof.
  apply (WriteObject_keeps_objects (hash := sha1.fips) (codec := zlib.plain)
           example.repo blobs_example.first.1 blobs_example.second.1
           "blob" (raw "ho") blobs_example.second.2.1 blobs_example.second.2.2
           blobs_example.first.2.1).
  - reflexivity.
  - vm_compute. reflexivity.
  - vm_compute. discriminate.
  - vm_compute. reflexivity.
Defined.

Lemma CreateRepository_layout_witness :
  example.repo = {| workdir := "/r"; gitdir := path.Join ["/r"; ".git"] |} ∧
  Forall (λ d, isDir example.fresh (path.Join [gitdir example.repo; d]) = (true, None))
    ["branches"; "objects"; "refs/tags"; "refs/heads"] ∧
  os.ReadFile example.fresh (path.Join [gitdir example.repo; "description"])
    = inl (raw defaultDescription) ∧
  os.ReadFile example.fresh (path.Join [gitdir example.repo; "HEAD"])
    = inl (raw defaultHEAD) ∧
  os.ReadFile example.fresh (path.Join [gitdir example.repo; "config"])
    = inl (raw defaultConfig).
Proof.
  apply (CreateRepository_layout {| cwd := "/"; nodes := ∅ |} example.fresh "/r"
           example.repo).
  - reflexivity.
  - vm_compute. reflexivity.
Defined.


